(* ===== verification/_CoqProject ===== *)
-Q . S2P
Prelude.v
Address.v
RemoteStore.v
MembershipCache.v
CacheSpec.v
Scenarios.v
CacheInvariants.v
CacheRaces.v
CacheConvergence.v
CacheTestMode.v
CacheOperations.v
CacheTermination.v
CacheCalls.v
CacheDegraded.v
CacheBoot.v
CacheIsolation.v
ERC20Handler.v
Router.v
Client.v
HandlerTests.v
