(* ===== verification/Prelude.v ===== *)
(** * A verification of getclave/envio-erc20

    The program is an Envio indexer.  Every ERC20 [Transfer] event goes
    through a loader and a handler (src/ERC20Handler.ts) that update
    per-wallet token balances and time-bucketed snapshots, but only for
    Clave wallets, and not for the tokens of a few protocols.  Whether an
    address is a Clave wallet, and whether a token is a Syncswap pool, is
    asked of two membership caches (src/utils/WalletCache.ts,
    src/utils/SyncswapCache.ts): each mirrors a Redis set in a
    process-local set, loads it when the process starts, reloads it on
    every ["sadd"] keyspace notification of its key, and answers bulk
    queries from the mirror.

    ** Files, and what they model
    - [Prelude] (this file): executable transition systems ([Steps], [run],
      the notation [s -[ l ]-> s']), the invariant and relation lemmas on
      runs, the [envio] hint databases and the tactics.
    - [Address]: [String.prototype.toLowerCase] on ASCII ([toLowerCase]),
      [addresses.map(toLowerCase)] ([lowercaseAddresses]), and the facts on
      concatenated identifiers.
    - [RemoteStore]: the Redis server behind the caches: set-valued keys,
      [sAdd], [sMembers], [subscribe], keyspace notifications, and
      [getRedisInstance] (src/utils/Redis.ts is not staged: modelled from
      the specification, section 6).
    - [MembershipCache]: the cache class, once for both files.  The
      instance's fields are the record [Cache]; [World] adds the server,
      one FIFO request queue and one FIFO incoming queue per connection,
      the pool of tasks suspended on a connection attempt or on a settled
      promise, and the results the callers received.  An async function
      suspended at an [await] is a stack of [Frame]s; the code after an
      [await] on a Redis command runs when the client receives the reply
      ([updateInMemoryCache_resume], [addPool_resume],
      [subscribeToSetOperations_resume]).  The operations are the
      constructor ([new_cache], [walletCache], [syncswapCache]),
      [initialize] and [initialize_connected], [updateInMemoryCache],
      [subscribeToSetOperations] and its [listener],
      [bulkCheck] with its loop [bulk_loop], and [addPool].  [step]
      interleaves: the server executing a connection's oldest command (or
      failing it), the client receiving a connection's oldest message, a
      suspended task resuming (a connection attempt may fail), another
      process writing to the store, and callers invoking [bulkCheck] and
      [addPool].
    - [CacheSpec]: the contract of [bulkCheck] seen by the handler
      ([MembershipOracle]), its implementation by the loop
      ([bulkCheck_result_spec], [mirror_oracle]), and the observable states
      [quiescent] and [ready].
    - [Scenarios]: a concrete store and the specification's end-to-end
      scenario (section 8), on which the witnesses run, and the fact that
      its final world is [ready] ([spec_final_ready]).
    - [CacheInvariants]: safety in every world [reachable] from the
      constructor, by induction on runs ([run_invariant],
      [run_relation]): the mirror is a subset of the store and no query
      ever reports a non-member.  That the store only grows ([grows]) is
      a lemma of the model (other writers only add), not a property of
      the code.
    - [CacheRaces]: the races of [initialize]: duplicate connections and
      loads, for any number of early queries; and, each on a concrete
      schedule defined there, a query answered before the initial load,
      an add missed between the initial load and the subscription, and an
      added pool erased by the stale initial load of the duplicated
      initialization.  The rejection on connection failure is shown for
      any store and key in [Router].
    - [CacheConvergence]: from a [ready] instance, with no failing command,
      every world with nothing in flight has its mirror equal to the
      store (simulation-style invariant on the eventual mirror of the
      command connection's FIFO queue).
    - [CacheTestMode]: with [NODE_ENV = "test"] the invariant [inert]:
      no connection is ever opened, the mirror stays empty, [addPool]
      rejects, and every query answers the empty set.
    - [CacheOperations]: the public operations on a [ready] instance:
      [bulkCheck..] settles at once with the specification's answer
      ([spec_answer]) on the store, and [addPool] completes on its nominal
      schedule with the pool in the store and the mirror still equal to
      it.
    - [CacheTermination]: termination of the cache's own activity.  A
      [measure] (per queued command, reply, notification and parked task,
      with a weight per [SADD] bounded by the subscriptions that can
      exist) decreases at every server, client and task step, so every
      run of them is finite ([internal_run_bounded]) and one that does not
      fail always reaches a quiescent world ([drain]); hence a ready
      instance converges whatever happens later
      ([ready_eventually_converges]).
    - [CacheCalls]: the accounting of calls.  Every call of [bulkCheck..]
      and [addPool] gets a number; the well-formedness invariant
      [calls_wf] states that the numbers handed out are, as a multiset,
      the settled calls and those awaited by a [KReturn] frame of a queued
      command, a reply in flight or a parked task, that the instance only
      names connections the server opened, and that at most two
      connections are opened per [initialize].  This bookkeeping is the
      model's own; what it gives about the code is that every call
      settles once the instance's own work drains (no promise is left
      pending on an error path), and that the connections opened are
      bounded (the bound is reached by the duplicated initialization).
    - [CacheDegraded]: the [Degraded] state of the specification (a
      [SUBSCRIBE] that failed and was only logged): [degraded x] is kept
      by every step but the instance's own [addPool], so a member [x]
      another process adds stays out of the mirror and out of every
      answer; the schedule [subscribe_failure] (the witness) reaches it
      from the constructor.
    - [CacheBoot]: the nominal boot ([boot_at]) over any store and key
      reaches [ready] with the mirror equal to the store, by symbolic
      execution of the five steps.
    - [CacheIsolation]: the two instances on one server.  The writes of
      the other instance are the world's external writes on another key;
      [isolated] (own connections opened after the instance was built,
      every subscription on them to the own key's channel) holds in every
      reachable world, so a write on the other key changes the store and
      nothing else of the instance.
    - [ERC20Handler]: the entity store (a record of [gmap]s), [loader],
      [handler], [PlainTransferHandler], [setHistoricalBalance]; the caches
      enter through [MembershipOracle], [roundTimestamp] and the protocol
      address lists (not staged) are section parameters.  Theorems: the
      balance updates of a plain transfer, the frame, the filtered
      transfers, the snapshots, the accounts created (before the token
      checks, never overwritten), and the refinement of an abstract
      ledger: the sum of all balance records ([total_balance]) moves by
      the value into and out of the Clave wallets.
    - [Router]: the handler composed with the cache model: the loader's
      [Promise.all] over the two cache calls ([promise_all2],
      [loader_settled], [processEvent_settled]).  Composed with the
      cache invariant, the pipeline writes balance records and accounts
      only for addresses in the store's set, whatever the interleaving
      that produced the answer; a failed connection attempt makes the
      event's processing reject.
    - [Client]: the RPC client of src/viem/Client.ts as data (viem's
      transports as constructors) and its selection on
      [ENVIO_FALLBACK_URL].
    - [HandlerTests]: the fixtures of test/test.ts, each test the store
      [processEvent] returns in test mode, and its assertions as
      [Example]s evaluated on the model (regression runs on fixed inputs,
      with stand-ins for the unstaged constants; the general behaviour is
      in [ERC20Handler]).

    ** Modelling choices and bounds
    - Integers are [Z]: balances are JavaScript [BigInt]s (unbounded, and
      may go negative); block timestamps are small integral numbers, and
      [numberToString] is JavaScript's decimal printing of integers below
      1e21.
    - No fuel: every definition is structural; the concurrency is in the
      choice of actions, so executions are finite lists of actions.
      Liveness is stated as the existence of a run of internal steps
      without failure to a quiescent end state; its length is bounded by
      the [measure] of [CacheTermination], so no fuel is needed there
      either.
    - A Redis command executes atomically at the server; its reply and
      the notifications it publishes are queued on the connections and
      received later, in order per connection.  A failure is a command
      that fails without effect, or a failed connection attempt.
    - The addresses given to [bulkCheck] are strings (the router never
      passes anything else), so its [catch] branch is not reachable in the
      model; the fold is ASCII only.
    - Only SyncswapCache has [addPool]; the model lets a caller invoke it
      on either instance ([AAddPool]), so the theorems over every schedule
      cover the wallet cache's schedules, which have no [AAddPool], and
      more.
    - [roundTimestamp] (src/utils/helpers.ts) and the protocol lists
      (src/constants/) are not staged: the handler's theorems hold for
      every value of them; [HandlerTests] fixes lower-case stand-ins and a
      [roundTimestamp] that rounds down, stated where used.

    ** Not modelled
    - What viem does with the client's options (retries, batching,
      switching between fallback transports): library behaviour.
    - Logging ([console.log], [console.error], [context.log]): no effect on
      state.
    - The Envio runtime (event decoding, batching of loaders): events are
      processed one at a time, loader then handler, on the store left by
      the previous event.
    - The [initializationPromise] field: written by the constructor,
      never read. *)

From stdpp Require Export base gmap list strings pretty.
From Stdlib Require Export ZArith Ascii String.

Declare Scope envio_scope.
Delimit Scope envio_scope with envio.
Open Scope envio_scope.

(** ** Executable transition systems

    Every stateful component of the development is an executable step
    function [S -> A -> option S]: [None] means the action is not enabled
    in that state.  A run is the left fold of the step function over a
    list of actions; it is what the witnesses evaluate with [vm_compute]. *)

Class Steps (S A : Type) := step_of : S -> A -> option S.
Global Arguments step_of {_ _ _} _ _ : assert.

Fixpoint run {St Act : Type} `{Steps St Act} (s : St) (l : list Act) : option St :=
  match l with
  | [] => Some s
  | a :: l' => match step_of s a with Some s' => run s' l' | None => None end
  end.

Notation "s '-[' l ']->' s'" := (run s l = Some s')
  (at level 70, l at level 200, format "s  -[ l ]->  s'") : envio_scope.

Create HintDb envio discriminated.
Create Rewrite HintDb envio_rw.

Section Runs.
Context {St Act : Type} `{Steps St Act}.

Lemma run_nil (s : St) : s -[ [] ]-> s.
Proof. reflexivity. Qed.

Lemma run_cons (s s'' : St) (a : Act) (l : list Act) :
  s -[ a :: l ]-> s'' <-> exists s', step_of s a = Some s' /\ s' -[ l ]-> s''.
Proof.
  simpl. destruct (step_of s a) as [s'|]; split.
  - eauto.
  - intros (? & [= <-] & ?). done.
  - done.
  - intros (? & ? & _). done.
Qed.

Lemma run_app (s s'' : St) (l1 l2 : list Act) :
  s -[ l1 ++ l2 ]-> s'' <-> exists s', s -[ l1 ]-> s' /\ s' -[ l2 ]-> s''.
Proof.
  revert s. induction l1 as [|a l1 IH]; intros s; simpl.
  - split; [eauto | by intros (? & [= ->] & ?)].
  - destruct (step_of s a); [apply IH | split; [done | by intros (? & ? & _)]].
Qed.

(** An invariant of the step function is an invariant of every run. *)
Section Invariant.
Variable P : St -> Prop.
Hypothesis step_P : forall s a s', P s -> step_of s a = Some s' -> P s'.

Lemma run_invariant (s s' : St) (l : list Act) : P s -> s -[ l ]-> s' -> P s'.
Proof.
  revert s. induction l as [|a l IH]; intros s Hs; simpl.
  - by intros [= <-].
  - destruct (step_of s a) eqn:E; [eauto | done].
Qed.
End Invariant.

(** A relation preserved by every step relates the ends of every run. *)
Section Relation.
Variable R : St -> St -> Prop.
Hypothesis R_refl : forall s, R s s.
Hypothesis R_trans : forall s1 s2 s3, R s1 s2 -> R s2 s3 -> R s1 s3.
Hypothesis step_R : forall s a s', step_of s a = Some s' -> R s s'.

Lemma run_relation (s s' : St) (l : list Act) : s -[ l ]-> s' -> R s s'.
Proof.
  revert s. induction l as [|a l IH]; intros s; simpl.
  - by intros [= <-].
  - destruct (step_of s a) eqn:E; [eauto | done].
Qed.
End Relation.
End Runs.

(** ** Shared lemmas on sets and lists *)

Lemma elem_of_list_to_set_filter (P : string -> Prop) `{forall x, Decision (P x)}
    (l : list string) (x : string) :
  x ∈ (list_to_set (filter P l) : gset string) <-> P x /\ x ∈ l.
Proof. rewrite elem_of_list_to_set, list_elem_of_filter. done. Qed.

(** A task appended to the pool is found, and removed, at the old length. *)
Lemma delete_snoc {A} (l : list A) (x : A) : delete (List.length l) (l ++ [x])%list = l.
Proof. induction l as [|y l IH]; simpl; [done | by rewrite IH]. Qed.

Lemma lookup_snoc {A} (l : list A) (x : A) : (l ++ [x])%list !! List.length l = Some x.
Proof. induction l as [|y l IH]; simpl; [done | exact IH]. Qed.


(** ** Sums over finite maps

    The cost of the connections of a world is a sum over a [gmap];
    [map_sum_insert] is how a sum changes when one entry is replaced. *)

Definition map_sum `{Countable K} {V} (f : V -> nat) (m : gmap K V) : nat :=
  sum_list_with (fun kv => f kv.2) (map_to_list m).

Lemma map_sum_insert `{Countable K} {V} (f : V -> nat) (m : gmap K V) (k : K) (v : V) :
  map_sum f (<[k:=v]> m) + default 0 (f <$> m !! k) = map_sum f m + f v.
Proof.
  unfold map_sum. destruct (m !! k) as [v0|] eqn:Hk; simpl.
  - rewrite <- (insert_delete_id m k v0) at 2 by done. rewrite <- (insert_delete_eq m k v).
    rewrite !map_to_list_insert by apply lookup_delete_eq. simpl. lia.
  - rewrite map_to_list_insert by done. simpl. lia.
Qed.

(** A sum over a map is at least the summand of each of its entries. *)
Lemma map_sum_lookup `{Countable K} {V} (f : V -> nat) (m : gmap K V) (k : K) (v : V) :
  m !! k = Some v -> f v <= map_sum f m.
Proof.
  intros Hk. pose proof (map_sum_insert f (delete k m) k v) as E.
  rewrite lookup_delete_eq, insert_delete_eq, insert_id in E by done. simpl in E. lia.
Qed.

(** The same sum for integer summands, which may be negative. *)
Definition sumZ (l : list Z) : Z := foldr Z.add 0%Z l.

Lemma sumZ_cons (x : Z) (l : list Z) : sumZ (x :: l) = (x + sumZ l)%Z.
Proof. done. Qed.

Lemma sumZ_Permutation (l1 l2 : list Z) : l1 ≡ₚ l2 -> sumZ l1 = sumZ l2.
Proof. induction 1; simpl; lia. Qed.

Definition map_sumZ `{Countable K} {V} (f : V -> Z) (m : gmap K V) : Z :=
  sumZ ((fun kv => f kv.2) <$> map_to_list m).

Lemma map_sumZ_insert `{Countable K} {V} (f : V -> Z) (m : gmap K V) (k : K) (v : V) :
  map_sumZ f (<[k:=v]> m) = (map_sumZ f m - default 0 (f <$> m !! k) + f v)%Z.
Proof.
  unfold map_sumZ. destruct (m !! k) as [v0|] eqn:Hk; simpl.
  - rewrite <- (insert_delete_id m k v0) at 2 by done. rewrite <- (insert_delete_eq m k v).
    rewrite !(sumZ_Permutation _ _ (fmap_Permutation _ _ _ (map_to_list_insert _ _ _ (lookup_delete_eq m k)))).
    rewrite !fmap_cons, !sumZ_cons. simpl. lia.
  - rewrite (sumZ_Permutation _ _ (fmap_Permutation _ _ _ (map_to_list_insert _ _ _ Hk))).
    rewrite fmap_cons, sumZ_cons. simpl. lia.
Qed.

(** The concatenation, over the entries of a map, of a list per value:
    the multiset of what the entries hold. *)
Definition map_concat `{Countable K} {V A} (f : V -> list A) (m : gmap K V) : list A :=
  map_to_list m ≫= (fun kv => f kv.2).

Lemma map_concat_insert `{Countable K} {V A} (f : V -> list A) (m : gmap K V) (k : K) (v : V) :
  map_concat f (<[k:=v]> m) ++ default [] (f <$> m !! k) ≡ₚ map_concat f m ++ f v.
Proof.
  unfold map_concat. destruct (m !! k) as [v0|] eqn:Hk; simpl.
  - rewrite <- (insert_delete_id m k v0) at 2 by done. rewrite <- (insert_delete_eq m k v).
    rewrite !map_to_list_insert by apply lookup_delete_eq. simpl. solve_Permutation.
  - rewrite map_to_list_insert by done. simpl. solve_Permutation.
Qed.

Lemma map_concat_nil `{Countable K} {V A} (f : V -> list A) (m : gmap K V) :
  (forall k v, m !! k = Some v -> f v = []) -> map_concat f m = [].
Proof.
  intros Hm. unfold map_concat.
  assert (Hl : forall kv, kv ∈ map_to_list m -> f kv.2 = []).
  { intros [k v] Hkv. apply (Hm k v). by apply elem_of_map_to_list. }
  induction (map_to_list m) as [|kv l IH]; [done|].
  rewrite bind_cons, (Hl kv), IH; [done| |set_solver]. intros; apply Hl; set_solver.
Qed.

Lemma map_concat_insert_fresh `{Countable K} {V A} (f : V -> list A) (m : gmap K V) (k : K) (v : V) :
  m !! k = None -> f v = [] -> map_concat f (<[k:=v]> m) ≡ₚ map_concat f m.
Proof.
  intros Hk Hv. pose proof (map_concat_insert f m k v) as E. rewrite Hk, Hv, !app_nil_r in E. exact E.
Qed.

Lemma sum_list_with_le {A} (f g : A -> nat) (l : list A) :
  (forall x, f x <= g x) -> sum_list_with f l <= sum_list_with g l.
Proof. intros Hfg. induction l as [|x l IH]; simpl; [lia|]. specialize (Hfg x). lia. Qed.

Lemma map_sum_le `{Countable K} {V} (f g : V -> nat) (m : gmap K V) :
  (forall v, f v <= g v) -> map_sum f m <= map_sum g m.
Proof. intros Hfg. unfold map_sum. apply sum_list_with_le. intros kv. apply Hfg. Qed.

(** Removing the [i]-th element of a list removes its summand. *)
Lemma sum_list_with_delete {A} (f : A -> nat) (l : list A) (i : nat) (x : A) :
  l !! i = Some x -> sum_list_with f (delete i l) + f x = sum_list_with f l.
Proof.
  intros Hi. pose proof (delete_Permutation l i x Hi) as Hp.
  rewrite (sum_list_with_Permutation_proper f _ _ Hp). simpl. lia.
Qed.

Lemma forallb_delete {A} (f : A -> bool) (l : list A) (i : nat) :
  forallb f l = true -> forallb f (delete i l) = true.
Proof.
  rewrite !forallb_forall. intros H x Hx. apply H, list_elem_of_In, (list_elem_of_delete_inv _ i).
  by apply list_elem_of_In.
Qed.

Lemma forallb_lookup {A} (f : A -> bool) (l : list A) (i : nat) (x : A) :
  forallb f l = true -> l !! i = Some x -> f x = true.
Proof. rewrite forallb_forall. intros H Hi. apply H, list_elem_of_In. by eapply list_elem_of_lookup_2. Qed.

Lemma forallb_false_exists {A} (f : A -> bool) (l : list A) :
  forallb f l = false -> exists x, x ∈ l /\ f x = false.
Proof.
  induction l as [|x l IH]; simpl; [done|].
  destruct (f x) eqn:Hx; simpl; [intros H; destruct (IH H) as (y & Hy & Hf); exists y; set_solver|].
  intros _. exists x. split; [left|done].
Qed.

(** ** Tactics *)

(** [invc H]: inversion that cleans up after itself. *)
Ltac invc H := inversion H; subst; clear H.

(** [decide_by_eval]: close a decidable goal on closed terms by computing
    its decision procedure. *)
Ltac decide_by_eval := apply (bool_decide_unpack _); vm_compute; reflexivity.

(** [case_if]: split on the first boolean or decidable test in the goal. *)
Ltac case_if :=
  match goal with
  | |- context [if decide ?P then _ else _] => destruct (decide P)
  | |- context [if ?b then _ else _] => destruct b eqn:?
  end.
