(* ===== verification/Address.v ===== *)
(** * Addresses: the case fold and the identifiers built from addresses

    Every address the program touches goes through JavaScript's
    [String.prototype.toLowerCase] before it is compared, stored or used as
    a key (src/utils/WalletCache.ts:122, src/ERC20Handler.ts:41-52, 90-92).
    Addresses are ASCII hex strings, so the fold is modelled on ASCII:
    ['A'..'Z'] map to ['a'..'z'] and every other character is unchanged.
    Entity identifiers are JavaScript string concatenations
    ([address + token], [id + roundTimestamp(..)]); this file proves the
    facts about them the handler needs: the fold is idempotent and length
    preserving, and concatenation of equal-length prefixes is injective. *)

From S2P Require Import Prelude.

Open Scope string_scope.

(** ** The ASCII lower-case fold *)

Definition ascii_toLowerCase (c : ascii) : ascii :=
  let n := N_of_ascii c in
  if ((65 <=? n)%N && (n <=? 90)%N)%bool then ascii_of_N (n + 32) else c.

Fixpoint toLowerCase (s : string) : string :=
  match s with
  | EmptyString => EmptyString
  | String c s' => String (ascii_toLowerCase c) (toLowerCase s')
  end.

(** [addresses.map((addr) => addr.toLowerCase())] *)
Definition lowercaseAddresses (addresses : list string) : list string :=
  map toLowerCase addresses.

(** A string is in normal form when folding it changes nothing. *)
Definition is_lower (s : string) : bool := String.eqb (toLowerCase s) s.

(** ** Lemmas on the fold *)

Lemma ascii_toLowerCase_idem (c : ascii) :
  ascii_toLowerCase (ascii_toLowerCase c) = ascii_toLowerCase c.
Proof. destruct c as [[] [] [] [] [] [] [] []]; vm_compute; reflexivity. Qed.

Lemma toLowerCase_idem (s : string) : toLowerCase (toLowerCase s) = toLowerCase s.
Proof. induction s as [|c s IH]; simpl; [done|]. by rewrite ascii_toLowerCase_idem, IH. Qed.

Lemma toLowerCase_length (s : string) : String.length (toLowerCase s) = String.length s.
Proof. induction s; simpl; congruence. Qed.

Lemma toLowerCase_append (s1 s2 : string) :
  toLowerCase (s1 ++ s2) = toLowerCase s1 ++ toLowerCase s2.
Proof. induction s1 as [|c s1 IH]; simpl; [done | by rewrite IH]. Qed.

Lemma is_lower_spec (s : string) : is_lower s = true <-> toLowerCase s = s.
Proof. apply String.eqb_eq. Qed.

Lemma is_lower_toLowerCase (s : string) : is_lower (toLowerCase s) = true.
Proof. apply is_lower_spec, toLowerCase_idem. Qed.

#[export] Hint Rewrite toLowerCase_idem toLowerCase_length toLowerCase_append : envio_rw.
#[export] Hint Resolve is_lower_toLowerCase : envio.

(** ** Concatenated identifiers *)

Lemma append_length (s1 s2 : string) :
  String.length (s1 ++ s2) = (String.length s1 + String.length s2)%nat.
Proof. induction s1 as [|c s1 IH]; simpl; [done | by rewrite IH]. Qed.

(** Two concatenations whose left parts have the same length are equal only
    when both parts are: [address + token] identifies the pair when every
    address has the same length (42 characters on chain). *)
Lemma append_inj_same_length (a1 a2 b1 b2 : string) :
  String.length a1 = String.length a2 -> a1 ++ b1 = a2 ++ b2 -> a1 = a2 /\ b1 = b2.
Proof.
  revert a2. induction a1 as [|c1 a1 IH]; intros [|c2 a2] Hlen Heq;
    simpl in *; try done.
  injection Heq as -> Heq. injection Hlen as Hlen.
  destruct (IH a2 Hlen Heq) as [-> ->]. done.
Qed.

(** Concatenations with the same right part are equal only when their
    left parts are. *)
Lemma append_cancel_r (a1 a2 b : string) : a1 ++ b = a2 ++ b -> a1 = a2.
Proof.
  intros Heq. assert (Hlen : String.length a1 = String.length a2).
  { apply (f_equal String.length) in Heq. rewrite !append_length in Heq. lia. }
  by destruct (append_inj_same_length a1 a2 b b Hlen Heq).
Qed.
