(* ===== verification/RemoteStore.v ===== *)
(** * The remote key-value store the caches mirror

    The caches talk to a Redis server through [getRedisInstance]
    (src/utils/Redis.ts, imported by the caches but not part of the staged
    sources) and three commands: [SADD], [SMEMBERS] and [SUBSCRIBE].  This
    file models the server side of that surface: the set-valued keys, the
    connections opened so far, the keyspace-notification switch, the
    subscriptions, and the notifications a mutation publishes.  A command
    is executed atomically by the server; its reply and the notifications
    it publishes are delivered later, in order, on the connection they are
    addressed to (that part is in [MembershipCache]).

    Keyspace notifications follow the Redis documentation: when they are
    enabled, a command that mutates key [k] publishes the command's name on
    channel ["__keyspace@<db>__:" ++ k]; [SADD] publishes ["sadd"] only when
    it added at least one member. *)

From S2P Require Import Prelude Address.

Open Scope string_scope.

(** Connections are numbered in the order they are opened. *)
Abbreviation conn := nat.

Record RedisServer := mkRedisServer {
  rs_sets : gmap string (gset string);   (** the set-valued keys *)
  rs_keyspace : bool;                    (** notify-keyspace-events enabled *)
  rs_subs : list (conn * string);        (** (subscriber connection, channel) *)
  rs_nconn : nat                         (** connections opened so far *)
}.

(** The configuration handed to [getRedisInstance]; host, port and
    credentials do not influence the behaviour modelled here. *)
Record RedisConfig := mkRedisConfig { notifyKeyspaceEvents : bool }.

Definition empty_server : RedisServer := mkRedisServer ∅ false [] 0.

(** ** Commands *)

(** [SMEMBERS k]: a missing key is the empty set. *)
Definition sMembers (r : RedisServer) (k : string) : gset string :=
  default ∅ (rs_sets r !! k).

(** [SADD k v]: returns the new server and whether [v] was added. *)
Definition sAdd (r : RedisServer) (k v : string) : RedisServer * bool :=
  if decide (v ∈ sMembers r k) then (r, false)
  else (mkRedisServer (<[k := {[v]} ∪ sMembers r k]> (rs_sets r))
          (rs_keyspace r) (rs_subs r) (rs_nconn r), true).

(** [SUBSCRIBE ch] on connection [c]. *)
Definition subscribe (r : RedisServer) (c : conn) (ch : string) : RedisServer :=
  mkRedisServer (rs_sets r) (rs_keyspace r) ((c, ch) :: rs_subs r) (rs_nconn r).

(** The keyspace channel of key [k] in database [db]. *)
Definition server_keyspace_channel (db : N) (k : string) : string :=
  "__keyspace@" ++ pretty db ++ "__:" ++ k.

(** The notifications an event [ev] on key [k] publishes: one message per
    subscription to the key's channel of database 0. *)
Definition keyspace_notifications (r : RedisServer) (k ev : string)
    : list (conn * string * string) :=
  if rs_keyspace r then
    (fun cs => (cs.1, cs.2, ev)) <$>
      filter (fun cs => cs.2 = server_keyspace_channel 0 k) (rs_subs r)
  else [].

(** [getRedisInstance(config)] (src/utils/Redis.ts, not staged): opens a new
    connection; with [notifyKeyspaceEvents] it switches keyspace
    notifications on for the whole server. *)
Definition getRedisInstance (cfg : RedisConfig) (r : RedisServer)
    : RedisServer * conn :=
  (mkRedisServer (rs_sets r) (rs_keyspace r || notifyKeyspaceEvents cfg)
     (rs_subs r) (S (rs_nconn r)), rs_nconn r).

(** ** Lemmas *)

Lemma sMembers_sAdd (r : RedisServer) (k k' v : string) :
  sMembers (sAdd r k v).1 k' =
    if decide (k = k') then {[v]} ∪ sMembers r k else sMembers r k'.
Proof.
  unfold sAdd. case_decide as Hin; simpl.
  - case_decide; subst; [set_solver | done].
  - unfold sMembers at 1; simpl. case_decide as Hk.
    + subst. by rewrite lookup_insert_eq.
    + by rewrite lookup_insert_ne.
Qed.

Lemma sAdd_mono (r : RedisServer) (k k' v : string) :
  sMembers r k' ⊆ sMembers (sAdd r k v).1 k'.
Proof. rewrite sMembers_sAdd. case_decide; subst; set_solver. Qed.

Lemma sAdd_member (r : RedisServer) (k v : string) :
  v ∈ sMembers (sAdd r k v).1 k.
Proof. rewrite sMembers_sAdd. case_decide; [set_solver | done]. Qed.

Lemma sAdd_keyspace (r : RedisServer) (k v : string) :
  rs_keyspace (sAdd r k v).1 = rs_keyspace r /\ rs_subs (sAdd r k v).1 = rs_subs r.
Proof. unfold sAdd. by case_decide. Qed.

(** [SADD] reports an addition exactly when the member was new. *)
Lemma sAdd_added (r : RedisServer) (k v : string) :
  (sAdd r k v).2 = true <-> v ∉ sMembers r k.
Proof. unfold sAdd. case_decide; simpl; intuition congruence. Qed.

Lemma sMembers_getRedisInstance (cfg : RedisConfig) (r : RedisServer) (k : string) :
  sMembers (getRedisInstance cfg r).1 k = sMembers r k.
Proof. done. Qed.

Lemma sMembers_subscribe (r : RedisServer) (c : conn) (ch k : string) :
  sMembers (subscribe r c ch) k = sMembers r k.
Proof. done. Qed.

#[export] Hint Resolve sAdd_mono sAdd_member : envio.
#[export] Hint Rewrite sMembers_getRedisInstance sMembers_subscribe : envio_rw.
