(* ===== verification/MembershipCache.v ===== *)
(** * The membership cache: WalletCache and SyncswapCache

    src/utils/WalletCache.ts and src/utils/SyncswapCache.ts are one class
    written twice: a cache of a Redis set (key ["clave:wallets"] or
    ["syncswap:pools"]) mirrored in a process-local [Set<string>].  The
    class is modelled once, with the key as the instance's [CACHE_KEY]
    field; SyncswapCache adds [addPool].

    The class is asynchronous, and its bugs are in the interleavings, so the
    model is a small-step semantics of the instance together with the Redis
    server and the connections between them:
    - [World] holds the server, the instance's fields, one FIFO queue of
      requests and one FIFO queue of incoming replies and pushed messages
      per connection, the pool of suspended tasks that wait on something
      other than a connection, and the results the callers have received;
    - a suspended [async] function is a stack of [Frame]s, one per
      activation waiting at an [await], innermost first; the code after
      the [await] on a Redis command is run when the reply is received
      ([updateInMemoryCache_resume], [addPool_resume],
      [subscribeToSetOperations_resume]);
    - [step] executes one [Action]: the server executes the head request
      of a connection (or fails it), the client receives the head message of
      a connection, a suspended task resumes, another process writes to the
      store, or a caller invokes [bulkCheck] or [addPool]. *)

From S2P Require Import Prelude Address RemoteStore.

Open Scope string_scope.

(** ** Data *)

(** What an [async] function settles with: [undefined], a [Set<string>], or
    a rejection. *)
Inductive Val := VUnit | VSet (s : gset string).
Inductive Outcome := Ok (v : Val) | Err.

(** The three commands the class sends. *)
Inductive Req :=
| RqSMembers                      (** [sMembers(this.CACHE_KEY)] *)
| RqSAdd (v : string)             (** [sAdd(this.CACHE_KEY, v)] *)
| RqSubscribe (ch : string).      (** [subscribe(ch, listener)] *)

(** The server's answer to each command, or the failed command. *)
Inductive Reply :=
| RpMembers (members : gset string)
| RpAdded (v : string)
| RpSubscribed (ch : string)
| RpErr (r : Req).

(** Suspended activations, innermost first. *)
Inductive Frame :=
| KInitLoaded                (** [initialize]: after [await this.updateInMemoryCache()] *)
| KInitSubscribed            (** [initialize]: after [await this.subscribeToSetOperations()] *)
| KBulk (addresses : list string)  (** [bulkCheck..]: after [await this.initialize()] *)
| KCatch                     (** [.catch((error) => console.error(..))] *)
| KReturn (id : nat).        (** the caller awaiting call number [id] *)

(** A message arriving on a connection: the reply to the oldest pending
    command, with the frames that await it, or a pushed pub/sub message. *)
Inductive Incoming :=
| IReply (rp : Reply) (fs : list Frame)
| IPush (ch msg : string).

Record ConnQ := mkConnQ {
  cq_requests : list (Req * list Frame);   (** sent, not yet executed *)
  cq_incoming : list Incoming              (** executed, not yet received *)
}.

Definition empty_connq : ConnQ := mkConnQ [] [].

(** What a task outside the connections waits for: the two connections of
    [Promise.all([getRedisInstance(..), getRedisInstance(..)])], or an
    already settled promise (an [await] always yields once). *)
Inductive Pending := PConnect | PResolved (o : Outcome).

(** The fields of the class ([initializationPromise] is written by the
    constructor and never read, so it is not kept). *)
Record Cache := mkCache {
  CACHE_KEY : string;
  redisCommand : option conn;
  redisSub : option conn;
  inMemoryCache : gset string
}.

Record World := mkWorld {
  w_test : bool;                           (** [process.env.NODE_ENV === "test"] *)
  w_redis : RedisServer;
  w_cache : Cache;
  w_conns : gmap conn ConnQ;
  w_tasks : list (Pending * list Frame);
  w_results : list (nat * Outcome);        (** settled calls, oldest first *)
  w_next_id : nat
}.

#[export] Instance Val_eq_dec : EqDecision Val.
Proof. solve_decision. Defined.
#[export] Instance Outcome_eq_dec : EqDecision Outcome.
Proof. solve_decision. Defined.
#[export] Instance Req_eq_dec : EqDecision Req.
Proof. solve_decision. Defined.
#[export] Instance Reply_eq_dec : EqDecision Reply.
Proof. solve_decision. Defined.

(** Field updates. *)
Definition set_redis (w : World) (r : RedisServer) : World :=
  mkWorld (w_test w) r (w_cache w) (w_conns w) (w_tasks w) (w_results w) (w_next_id w).
Definition set_cache (w : World) (c : Cache) : World :=
  mkWorld (w_test w) (w_redis w) c (w_conns w) (w_tasks w) (w_results w) (w_next_id w).
Definition set_conns (w : World) (cs : gmap conn ConnQ) : World :=
  mkWorld (w_test w) (w_redis w) (w_cache w) cs (w_tasks w) (w_results w) (w_next_id w).
Definition set_tasks (w : World) (ts : list (Pending * list Frame)) : World :=
  mkWorld (w_test w) (w_redis w) (w_cache w) (w_conns w) ts (w_results w) (w_next_id w).
Definition set_mirror (c : Cache) (m : gset string) : Cache :=
  mkCache (CACHE_KEY c) (redisCommand c) (redisSub c) m.

Definition conn_of (w : World) (c : conn) : ConnQ := default empty_connq (w_conns w !! c).

(** Park a task in the pool. *)
Definition park (w : World) (p : Pending) (fs : list Frame) : World :=
  set_tasks w (w_tasks w ++ [(p, fs)]).

(** Record that call [id] settled with [o]. *)
Definition settle (w : World) (id : nat) (o : Outcome) : World :=
  mkWorld (w_test w) (w_redis w) (w_cache w) (w_conns w) (w_tasks w)
    (w_results w ++ [(id, o)]) (w_next_id w).

(** Allocate a call number. *)
Definition fresh_id (w : World) : World :=
  mkWorld (w_test w) (w_redis w) (w_cache w) (w_conns w) (w_tasks w)
    (w_results w) (S (w_next_id w)).

(** ** Operations of the class *)

Definition cmdConfig : RedisConfig := mkRedisConfig true.   (** WalletCache.ts:49-57 *)
Definition subConfig : RedisConfig := mkRedisConfig false.  (** WalletCache.ts:58-65 *)

(** [this.redisX!.command(..)]: the command is queued on the connection the
    field holds.  When the field is [undefined] the call throws a
    [TypeError] inside the async function, which then settles with
    [on_undefined] (what its own [catch], if any, turns the error into). *)
Definition send (w : World) (oc : option conn) (r : Req) (fs : list Frame)
    (on_undefined : Outcome) : World :=
  match oc with
  | Some c =>
      let q := conn_of w c in
      set_conns w (<[c := mkConnQ (cq_requests q ++ [(r, fs)]) (cq_incoming q)]> (w_conns w))
  | None => park w (PResolved on_undefined) fs
  end.

(** [updateInMemoryCache], up to [await this.redisCommand!.sMembers(..)] ... *)
Definition updateInMemoryCache (w : World) (fs : list Frame) : World :=
  send w (redisCommand (w_cache w)) RqSMembers fs Err.

(** ... and after it: [this.inMemoryCache = new Set(members)]. *)
Definition updateInMemoryCache_resume (c : Cache) (rp : Reply) : Cache * Outcome :=
  match rp with
  | RpMembers members => (set_mirror c members, Ok VUnit)
  | _ => (c, Err)
  end.

(** [`__keyspace@0__:${this.CACHE_KEY}`] *)
Definition keyspaceChannel (c : Cache) : string := "__keyspace@0__:" ++ CACHE_KEY c.

(** [subscribeToSetOperations], up to [await this.redisSub!.subscribe(..)];
    a [TypeError] on an undefined field is caught by its [try]. *)
Definition subscribeToSetOperations (w : World) (fs : list Frame) : World :=
  send w (redisSub (w_cache w)) (RqSubscribe (keyspaceChannel (w_cache w))) fs (Ok VUnit).

(** After the [await]: success is logged, failure is caught and logged. *)
Definition subscribeToSetOperations_resume (c : Cache) (rp : Reply) : Cache * Outcome :=
  (c, Ok VUnit).

(** The subscription's listener: only ["sadd"] triggers a full reload, whose
    rejection is caught by [.catch]. *)
Definition listener (w : World) (message : string) : World :=
  if decide (message = "sadd") then updateInMemoryCache w [KCatch] else w.

(** [SyncswapCache.addPool], up to [await this.redisCommand!.sAdd(..)] ... *)
Definition addPool (w : World) (pool : string) (fs : list Frame) : World :=
  send w (redisCommand (w_cache w)) (RqSAdd (toLowerCase pool)) fs Err.

(** ... and after it: [this.inMemoryCache.add(lowercasePool)] (the reply
    carries the value the closure holds). *)
Definition addPool_resume (c : Cache) (rp : Reply) : Cache * Outcome :=
  match rp with
  | RpAdded v => (set_mirror c ({[v]} ∪ inMemoryCache c), Ok VUnit)
  | _ => (c, Err)
  end.

(** The continuation that receives a reply is the one of the function that
    sent the command. *)
Definition resume (c : Cache) (rp : Reply) : Cache * Outcome :=
  match rp with
  | RpMembers _ | RpErr RqSMembers => updateInMemoryCache_resume c rp
  | RpAdded _ | RpErr (RqSAdd _) => addPool_resume c rp
  | RpSubscribed _ | RpErr (RqSubscribe _) => subscribeToSetOperations_resume c rp
  end.

(** [initialize], up to [await Promise.all(..)]: nothing in test mode,
    nothing when both connections are set, otherwise open two. *)
Definition initialize (w : World) (fs : list Frame) : World :=
  if w_test w then park w (PResolved (Ok VUnit)) fs
  else match redisCommand (w_cache w), redisSub (w_cache w) with
       | Some _, Some _ => park w (PResolved (Ok VUnit)) fs
       | _, _ => park w PConnect fs
       end.

(** [initialize] after [Promise.all] succeeded: store both connections, then
    [await this.updateInMemoryCache()]. *)
Definition initialize_connected (w : World) (fs : list Frame) : World :=
  let '(r1, c1) := getRedisInstance cmdConfig (w_redis w) in
  let '(r2, c2) := getRedisInstance subConfig r1 in
  let w1 := set_conns (set_redis w r2)
              (<[c2 := empty_connq]> (<[c1 := empty_connq]> (w_conns w))) in
  let c := w_cache w in
  let w2 := set_cache w1 (mkCache (CACHE_KEY c) (Some c1) (Some c2) (inMemoryCache c)) in
  updateInMemoryCache w2 (KInitLoaded :: fs).

(** The loop of [bulkCheck..] (lines 121-129): add each lower-cased address
    the mirror contains to the result set. *)
Fixpoint bulk_loop (mirror acc : gset string) (l : list string) : gset string :=
  match l with
  | [] => acc
  | address :: l' =>
      bulk_loop mirror (if decide (address ∈ mirror) then {[address]} ∪ acc else acc) l'
  end.

Definition bulkCheck_result (mirror : gset string) (addresses : list string) : gset string :=
  bulk_loop mirror ∅ (lowercaseAddresses addresses).

(** Resume one suspended activation with the outcome [o] of what it
    awaited: it either suspends again (left) or settles (right). *)
Definition run_frame (w : World) (f : Frame) (o : Outcome) (rest : list Frame)
    : World + (World * Outcome) :=
  match f, o with
  | KInitLoaded, Ok _ => inl (subscribeToSetOperations w (KInitSubscribed :: rest))
  | KInitLoaded, Err => inr (w, Err)
  | KInitSubscribed, _ => inr (w, o)
  | KBulk addresses, Ok _ =>
      inr (w, Ok (VSet (bulkCheck_result (inMemoryCache (w_cache w)) addresses)))
  | KBulk _, Err => inr (w, Err)
  | KCatch, Err => inr (w, Ok VUnit)
  | KCatch, Ok _ => inr (w, o)
  | KReturn id, _ => inr (settle w id o, o)
  end.

Fixpoint unwind (w : World) (o : Outcome) (fs : list Frame) : World :=
  match fs with
  | [] => w
  | f :: rest =>
      match run_frame w f o rest with
      | inl w' => w'
      | inr (w', o') => unwind w' o' rest
      end
  end.

(** [bulkCheck..(addresses)], called as call number [w_next_id]. *)
Definition bulkCheck (w : World) (addresses : list string) : World :=
  let id := w_next_id w in
  let w := fresh_id w in
  match redisCommand (w_cache w) with
  | None => initialize w [KBulk addresses; KReturn id]
  | Some _ => settle w id (Ok (VSet (bulkCheck_result (inMemoryCache (w_cache w)) addresses)))
  end.

(** [WalletCache.bulkCheckClaveWallets] and
    [SyncswapCache.bulkCheckSyncswapPools] are the same code. *)
Definition bulkCheckClaveWallets : World -> list string -> World := bulkCheck.
Definition bulkCheckSyncswapPools : World -> list string -> World := bulkCheck.

Definition callAddPool (w : World) (pool : string) : World :=
  let id := w_next_id w in addPool (fresh_id w) pool [KReturn id].

(** The constructor: [this.initializationPromise = this.initialize()] with a
    [.catch] attached. *)
Definition new_cache (test : bool) (key : string) (r : RedisServer) : World :=
  initialize (mkWorld test r (mkCache key None None ∅) ∅ [] [] 0) [KCatch].

(** [export const walletCache = new WalletCache()] *)
Definition walletCache (test : bool) (r : RedisServer) : World :=
  new_cache test "clave:wallets" r.

(** [export const syncswapCache = new SyncswapCache()] *)
Definition syncswapCache (test : bool) (r : RedisServer) : World :=
  new_cache test "syncswap:pools" r.

(** ** The server, the connections and the scheduler *)

(** Append pushed messages [(connection, channel, message)] to the incoming
    queues of the connections that exist. *)
Definition push_all (cs : gmap conn ConnQ) (ns : list (conn * string * string))
    : gmap conn ConnQ :=
  foldl (fun cs n =>
           let '(c, ch, ev) := n in
           match cs !! c with
           | Some q => <[c := mkConnQ (cq_requests q) (cq_incoming q ++ [IPush ch ev])]> cs
           | None => cs
           end) cs ns.

Definition publish (w : World) (ns : list (conn * string * string)) : World :=
  set_conns w (push_all (w_conns w) ns).

(** The server executes a command of the instance, sent on connection [c]
    for key [key]: the new server, the reply, the notifications. *)
Definition exec_req (r : RedisServer) (key : string) (c : conn) (rq : Req)
    : RedisServer * Reply * list (conn * string * string) :=
  match rq with
  | RqSMembers => (r, RpMembers (sMembers r key), [])
  | RqSAdd v =>
      let '(r', added) := sAdd r key v in
      (r', RpAdded v, if added then keyspace_notifications r' key "sadd" else [])
  | RqSubscribe ch => (subscribe r c ch, RpSubscribed ch, [])
  end.

(** The server takes the oldest command of connection [c]; with [ok =
    false] the command fails (a network or server error) without effect. *)
Definition server_step (w : World) (c : conn) (ok : bool) : option World :=
  q ← w_conns w !! c;
  match cq_requests q with
  | [] => None
  | (rq, fs) :: rest =>
      let '(r', rp, ns) :=
        if ok then exec_req (w_redis w) (CACHE_KEY (w_cache w)) c rq
        else (w_redis w, RpErr rq, []) in
      let cs := <[c := mkConnQ rest (cq_incoming q ++ [IReply rp fs])]> (w_conns w) in
      Some (set_conns (set_redis w r') (push_all cs ns))
  end.

(** The client receives the oldest message of connection [c]: a reply
    resumes the function that sent the command and then its awaiting
    callers; a pushed message runs the subscription's listener. *)
Definition client_step (w : World) (c : conn) : option World :=
  q ← w_conns w !! c;
  match cq_incoming q with
  | [] => None
  | i :: rest =>
      let w := set_conns w (<[c := mkConnQ (cq_requests q) rest]> (w_conns w)) in
      Some (match i with
            | IReply rp fs =>
                let '(cache', o) := resume (w_cache w) rp in unwind (set_cache w cache') o fs
            | IPush _ msg => listener w msg
            end)
  end.

(** Task [i] of the pool resumes; [Promise.all] of the two connections
    succeeds when [ok] and rejects otherwise. *)
Definition task_step (w : World) (i : nat) (ok : bool) : option World :=
  t ← w_tasks w !! i;
  let w := set_tasks w (delete i (w_tasks w)) in
  Some (match t.1 with
        | PResolved o => unwind w o t.2
        | PConnect => if ok then initialize_connected w t.2 else unwind w Err t.2
        end).

(** Another process runs [SADD k v] on the store. *)
Definition ext_sadd (w : World) (k v : string) : World :=
  let '(r', added) := sAdd (w_redis w) k v in
  publish (set_redis w r') (if added then keyspace_notifications r' k "sadd" else []).

(** Another process runs a command on key [k] that publishes event [ev]
    and does not change the key's members. *)
Definition ext_event (w : World) (k ev : string) : option World :=
  if decide (ev = "sadd") then None
  else Some (publish w (keyspace_notifications (w_redis w) k ev)).

Inductive Action :=
| AServer (c : conn) (ok : bool)
| AClient (c : conn)
| ATask (i : nat) (ok : bool)
| AExtSAdd (k v : string)
| AExtEvent (k ev : string)
| ABulkCheck (addresses : list string)
| AAddPool (pool : string).

Definition step (w : World) (a : Action) : option World :=
  match a with
  | AServer c ok => server_step w c ok
  | AClient c => client_step w c
  | ATask i ok => task_step w i ok
  | AExtSAdd k v => Some (ext_sadd w k v)
  | AExtEvent k ev => ext_event w k ev
  | ABulkCheck addresses => Some (bulkCheck w addresses)
  | AAddPool pool => Some (callAddPool w pool)
  end.

#[export] Instance world_steps : Steps World Action := step.

(** The remote set the instance mirrors. *)
Definition remote (w : World) : gset string := sMembers (w_redis w) (CACHE_KEY (w_cache w)).
Definition mirror (w : World) : gset string := inMemoryCache (w_cache w).
