(* ===== verification/CacheSpec.v ===== *)
(** * What a membership cache promises its callers

    The transfer router (src/ERC20Handler.ts) uses a cache only through
    [bulkCheck..]: given a list of addresses it gets back the set of the
    lower-cased ones that are members.  [MembershipOracle] states that
    contract over an abstract state; the handler's theorems are proved
    against it.  [bulkCheck_result], the loop of
    src/utils/WalletCache.ts:121-129 run on the local mirror, implements it
    ([mirror_oracle]), and [bulkCheck_result_spec] shows the loop equal to
    the reference definition: the lower-cased inputs, filtered by
    membership, as a set.

    The file also defines the observable states of a cache instance:
    [quiescent] (nothing in flight) and [ready] (connected, subscribed and
    in sync), used by the convergence theorem. *)

From S2P Require Import Prelude Address RemoteStore MembershipCache.

Open Scope string_scope.

(** ** The contract of [bulkCheck] *)

Class MembershipOracle (Q : Type) := {
  oracle_members : Q -> gset string;
  oracle_check : Q -> list string -> gset string;
  oracle_check_spec : forall q l x,
    x ∈ oracle_check q l <-> x ∈ oracle_members q /\ x ∈ lowercaseAddresses l
}.

(** The reference definition of the loop. *)
Definition bulkCheck_reference (mirror : gset string) (addresses : list string) : gset string :=
  list_to_set (filter (fun a => a ∈ mirror) (lowercaseAddresses addresses)).

(** ** Observable states of an instance *)

Definition connq_idle (q : ConnQ) : bool :=
  match cq_requests q, cq_incoming q with [], [] => true | _, _ => false end.

(** Nothing in flight: no suspended task, no queued command or message. *)
Definition quiescent (w : World) : bool :=
  match w_tasks w with
  | [] => forallb (fun cq => connq_idle cq.2) (map_to_list (w_conns w))
  | _ => false
  end.

(** The instance's subscription is registered at the server on [s]. *)
Definition subscribed (w : World) (s : conn) : bool :=
  bool_decide ((s, keyspaceChannel (w_cache w)) ∈ rs_subs (w_redis w)).

(** Connected, subscribed, notifications enabled, nothing in flight, and
    the mirror equal to the store. *)
Definition ready (w : World) : Prop :=
  exists c s, redisCommand (w_cache w) = Some c /\ redisSub (w_cache w) = Some s /\
    is_Some (w_conns w !! s) /\ subscribed w s = true /\ rs_keyspace (w_redis w) = true /\ w_test w = false /\
    quiescent w = true /\ mirror w = remote w.

(** ** The loop implements the reference *)

Lemma bulk_loop_spec (m acc : gset string) (l : list string) (x : string) :
  x ∈ bulk_loop m acc l <-> x ∈ acc \/ (x ∈ m /\ x ∈ l).
Proof.
  revert acc. induction l as [|a l IH]; intros acc; simpl.
  - set_solver.
  - rewrite IH. case_decide; set_solver.
Qed.

Lemma bulkCheck_result_elem (m : gset string) (addresses : list string) (x : string) :
  x ∈ bulkCheck_result m addresses <-> x ∈ m /\ x ∈ lowercaseAddresses addresses.
Proof. unfold bulkCheck_result. rewrite bulk_loop_spec. set_solver. Qed.

Lemma bulkCheck_reference_elem (m : gset string) (addresses : list string) (x : string) :
  x ∈ bulkCheck_reference m addresses <-> x ∈ m /\ x ∈ lowercaseAddresses addresses.
Proof. unfold bulkCheck_reference. rewrite elem_of_list_to_set, list_elem_of_filter. tauto. Qed.

(** C18: The loop of [bulkCheck..] (a [forEach] that adds each
    lower-cased address the mirror contains to a fresh set) computes the
    reference definition: the lower-cased inputs, filtered by membership in
    the mirror, as a set. *)
Lemma bulkCheck_result_spec (m : gset string) (addresses : list string) :
  bulkCheck_result m addresses = bulkCheck_reference m addresses.
Proof. apply set_eq. intros x. by rewrite bulkCheck_result_elem, bulkCheck_reference_elem. Qed.

Lemma bulkCheck_result_subset (m : gset string) (addresses : list string) :
  bulkCheck_result m addresses ⊆ m.
Proof. intros x. rewrite bulkCheck_result_elem. tauto. Qed.

#[export] Instance mirror_oracle : MembershipOracle (gset string) := {
  oracle_members m := m;
  oracle_check := bulkCheck_result;
  oracle_check_spec := bulkCheck_result_elem
}.

#[export] Hint Resolve bulkCheck_result_subset : envio.

(** ** Quiescent worlds *)

Lemma quiescent_tasks (w : World) : quiescent w = true -> w_tasks w = [].
Proof. unfold quiescent. by destruct (w_tasks w). Qed.

Lemma quiescent_conn (w : World) (c : conn) (q : ConnQ) :
  quiescent w = true -> w_conns w !! c = Some q -> cq_requests q = [] /\ cq_incoming q = [].
Proof.
  unfold quiescent. destruct (w_tasks w); [|done]. intros Hq Hc.
  apply forallb_forall with (x := (c, q)) in Hq; [|by apply list_elem_of_In, elem_of_map_to_list].
  unfold connq_idle in Hq. simpl in Hq. by destruct (cq_requests q), (cq_incoming q).
Qed.

Lemma quiescent_conn_of (w : World) (c : conn) :
  quiescent w = true -> cq_requests (conn_of w c) = [] /\ cq_incoming (conn_of w c) = [].
Proof.
  intros Hq. unfold conn_of. destruct (w_conns w !! c) as [q|] eqn:Hc; [|done].
  by apply (quiescent_conn w c q).
Qed.
