(* ===== verification/Scenarios.v ===== *)
(** * Concrete stores and schedules

    The inputs the witnesses and the counterexamples run the model on: a
    store holding one wallet and one pool, the schedule that takes a fresh
    instance to [ready], the end-to-end scenario of the specification
    (section 8), and its continuation used by the convergence
    theorem. *)

From S2P Require Import Prelude Address RemoteStore MembershipCache CacheSpec.

Open Scope string_scope.

(** The store before the process starts: one known wallet, one known pool. *)
Definition store0 : RedisServer :=
  mkRedisServer {[ "clave:wallets" := {["0xaaa"]}; "syncswap:pools" := {["0xaaa"]} ]} false [] 0.

(** A fresh instance: the constructor's [initialize] waits for its two
    connections (task 0). *)
Definition boot : list Action :=
  [ ATask 0 true        (* Promise.all: command connection 0, subscriber 1 *)
  ; AServer 0 true      (* SMEMBERS executed *)
  ; AClient 0           (* mirror loaded; SUBSCRIBE sent on 1 *)
  ; AServer 1 true      (* subscription registered *)
  ; AClient 1 ].        (* initialize settles *)

(** Specification, section 8, last item, on the pool cache: query
    ["0xaaa"; "0xBBB"], add pool ["0xbbb"], query it at once, then a
    non-add event and the add notification are processed. *)
Definition spec_scenario : list Action :=
  boot ++
  [ ABulkCheck ["0xaaa"; "0xBBB"]            (* call 0 *)
  ; AAddPool "0xbbb"                         (* call 1: SADD sent on 0 *)
  ; AServer 0 true                           (* SADD executed, "sadd" pushed on 1 *)
  ; AClient 0                                (* addPool settles, local add *)
  ; ABulkCheck ["0xbbb"]                     (* call 2 *)
  ; AExtEvent "syncswap:pools" "expire"      (* pushed on 1 after "sadd" *)
  ; AClient 1                                (* "sadd": reload sent on 0 *)
  ; AClient 1                                (* "expire": ignored *)
  ; AServer 0 true
  ; AClient 0 ].                             (* reload installed *)

(** The world at the end of [spec_scenario]. *)
Definition spec_final : World :=
  default (syncswapCache false store0) (run (syncswapCache false store0) spec_scenario).

(** After [spec_scenario]: another process adds a pool, an unrelated event
    is published, and the instance processes both notifications. *)
Definition converge_acts : list Action :=
  [ AExtSAdd "syncswap:pools" "0xccc"; AExtEvent "syncswap:pools" "expire";
    AClient 1; AClient 1; AServer 0 true; AClient 0 ].

Definition converge_final : World := default spec_final (run spec_final converge_acts).

(** The pool cache is [ready] at the end of the specification's scenario,
    with command connection 0 and subscriber connection 1. *)
Lemma spec_final_ready : ready spec_final.
Proof.
  exists 0, 1. repeat split; first [vm_compute; reflexivity | decide_by_eval].
Qed.

