(* ===== verification/CacheInvariants.v ===== *)
(** * Invariants of the membership cache

    Safety facts that hold in every world reachable from the constructor,
    whatever the interleaving, the failures and the other writers:
    - the store only grows ([step_grows], a lemma of the model: other
      writers only add);
    - the mirror is always a subset of the remote set
      ([mirror_subset_remote]): every member the instance believes in was
      in the store;
    - the instance's key never changes.
    The proofs go through one lemma per kind of step; the code that runs
    when a suspended activation resumes ([unwind]) is shown to change
    neither the server, nor the fields, nor any incoming queue
    ([benign]). *)

From S2P Require Import Prelude Address RemoteStore MembershipCache CacheSpec Scenarios.

Open Scope string_scope.

(** ** Definitions *)

(** [w'] differs from [w] at most by queued requests, parked tasks,
    settled results and call numbers. *)
Definition benign (w w' : World) : Prop :=
  w_test w' = w_test w /\ w_redis w' = w_redis w /\ w_cache w' = w_cache w /\
  forall c, cq_incoming (conn_of w' c) = cq_incoming (conn_of w c).

(** What a message in flight promises about the store [R] it was produced
    from: a [SMEMBERS] reply is a subset of it, an [SADD] reply's member is
    in it. *)
Definition incoming_ok (R : gset string) (i : Incoming) : Prop :=
  match i with
  | IReply (RpMembers m) _ => m ⊆ R
  | IReply (RpAdded v) _ => v ∈ R
  | _ => True
  end.

Definition mirror_inv (w : World) : Prop :=
  mirror w ⊆ remote w /\
  forall c i, i ∈ cq_incoming (conn_of w c) -> incoming_ok (remote w) i.

(** What a settled or settling promise promises: a set it carries holds
    only members of [R]. *)
Definition outcome_ok (R : gset string) (o : Outcome) : Prop :=
  match o with Ok (VSet s) => s ⊆ R | _ => True end.

Definition pending_ok (R : gset string) (p : Pending) : Prop :=
  match p with PResolved o => outcome_ok R o | PConnect => True end.

(** Every set a call settled with, and every settled promise a task
    awaits, holds only members of the store. *)
Definition answers_inv (w : World) : Prop :=
  (forall x, x ∈ w_results w -> outcome_ok (remote w) (x.2)) /\
  (forall t, t ∈ w_tasks w -> pending_ok (remote w) (t.1)).

(** The invariant of every reachable world. *)
Definition cache_inv (w : World) : Prop := mirror_inv w /\ answers_inv w.

(** [w'] is [w] after some steps: same mode, same key, a larger store. *)
Definition grows (w w' : World) : Prop :=
  w_test w' = w_test w /\ CACHE_KEY (w_cache w') = CACHE_KEY (w_cache w) /\
  forall k, sMembers (w_redis w) k ⊆ sMembers (w_redis w') k.

(** The worlds a fresh instance reaches under some schedule. *)
Definition reachable (test : bool) (key : string) (r : RedisServer) (w : World) : Prop :=
  exists acts, new_cache test key r -[ acts ]-> w.

(** ** Steps that only queue work *)

Lemma benign_refl (w : World) : benign w w.
Proof. done. Qed.

Lemma benign_trans (w1 w2 w3 : World) : benign w1 w2 -> benign w2 w3 -> benign w1 w3.
Proof. intros (?&?&?&Hc1) (?&?&?&Hc2). repeat split; first [congruence | intros c; by rewrite Hc2, Hc1]. Qed.

Lemma conn_of_insert (w : World) (c c' : conn) (q : ConnQ) :
  conn_of (set_conns w (<[c := q]> (w_conns w))) c' = if decide (c = c') then q else conn_of w c'.
Proof.
  unfold conn_of; simpl. case_decide; subst.
  - by rewrite lookup_insert_eq.
  - by rewrite lookup_insert_ne.
Qed.

Lemma send_benign (w : World) (oc : option conn) (r : Req) (fs : list Frame) (o : Outcome) :
  benign w (send w oc r fs o).
Proof.
  destruct oc as [c|]; [|done].
  repeat split. intros c'. unfold send. rewrite conn_of_insert. case_decide; by subst.
Qed.

Lemma settle_benign (w : World) (id : nat) (o : Outcome) : benign w (settle w id o).
Proof. done. Qed.

Lemma park_benign (w : World) (p : Pending) (fs : list Frame) : benign w (park w p fs).
Proof. done. Qed.

Lemma fresh_id_benign (w : World) : benign w (fresh_id w).
Proof. done. Qed.

Lemma set_tasks_benign (w : World) (ts : list (Pending * list Frame)) : benign w (set_tasks w ts).
Proof. done. Qed.

Lemma initialize_benign (w : World) (fs : list Frame) : benign w (initialize w fs).
Proof. unfold initialize. repeat case_match; apply park_benign. Qed.

#[export] Hint Resolve benign_refl send_benign settle_benign park_benign
  fresh_id_benign initialize_benign : envio.

Lemma run_frame_benign (w : World) (f : Frame) (o : Outcome) (rest : list Frame) :
  match run_frame w f o rest with
  | inl w' => benign w w'
  | inr (w', _) => benign w w'
  end.
Proof. destruct f, o; simpl; auto with envio. apply send_benign. Qed.

Lemma unwind_benign (w : World) (o : Outcome) (fs : list Frame) : benign w (unwind w o fs).
Proof.
  revert w o. induction fs as [|f fs IH]; intros w o; simpl; [done|].
  pose proof (run_frame_benign w f o fs) as Hf.
  destruct (run_frame w f o fs) as [w'|[w' o']]; [done|].
  eapply benign_trans; [exact Hf | apply IH].
Qed.

Lemma bulkCheck_benign (w : World) (addresses : list string) : benign w (bulkCheck w addresses).
Proof.
  unfold bulkCheck. case_match;
    (eapply benign_trans; [apply fresh_id_benign|]); auto with envio.
Qed.

Lemma callAddPool_benign (w : World) (pool : string) : benign w (callAddPool w pool).
Proof.
  unfold callAddPool, addPool. eapply benign_trans; [apply fresh_id_benign | apply send_benign].
Qed.

Lemma listener_benign (w : World) (message : string) : benign w (listener w message).
Proof. unfold listener. case_decide; first [apply send_benign | apply benign_refl]. Qed.

#[export] Hint Resolve unwind_benign bulkCheck_benign callAddPool_benign : envio.

(** ** Pushed messages *)

Lemma push_all_incoming (cs : gmap conn ConnQ) (ns : list (conn * string * string))
    (c : conn) (i : Incoming) :
  i ∈ cq_incoming (default empty_connq (push_all cs ns !! c)) ->
  i ∈ cq_incoming (default empty_connq (cs !! c)) \/ exists ch ev, i = IPush ch ev.
Proof.
  revert cs. induction ns as [|[[c' ch] ev] ns IH]; intros cs Hi; simpl in *; [by left|].
  destruct (IH _ Hi) as [Hin|]; [|by right].
  destruct (cs !! c') as [q|] eqn:Hq; [|by left].
  destruct (decide (c' = c)) as [->|Hne].
  - rewrite lookup_insert_eq in Hin. simpl in Hin. rewrite Hq.
    apply elem_of_app in Hin as [|Hin]; [by left | right].
    apply list_elem_of_singleton in Hin. eauto.
  - rewrite lookup_insert_ne in Hin by done. by left.
Qed.

(** ** The invariant *)

Lemma incoming_ok_mono (R R' : gset string) (i : Incoming) :
  R ⊆ R' -> incoming_ok R i -> incoming_ok R' i.
Proof. destruct i as [[]|]; simpl; set_solver. Qed.

Lemma benign_mirror_inv (w w' : World) : benign w w' -> mirror_inv w -> mirror_inv w'.
Proof.
  intros (_ & Hr & Hc & Hi) [Hm Hq]. unfold mirror_inv, mirror, remote.
  rewrite Hr, Hc, ?Hi. split; [done|]. intros c i. rewrite Hi. apply Hq.
Qed.

(** Growing the store and pushing messages keep the invariant. *)
Lemma mirror_inv_grow (w : World) (r : RedisServer) (ns : list (conn * string * string)) :
  mirror_inv w -> sMembers (w_redis w) (CACHE_KEY (w_cache w)) ⊆ sMembers r (CACHE_KEY (w_cache w)) ->
  mirror_inv (publish (set_redis w r) ns).
Proof.
  intros [Hm Hq] Hsub. unfold mirror_inv, mirror, remote in *; simpl in *.
  split; [set_solver|]. intros c i Hi.
  destruct (push_all_incoming _ _ _ _ Hi) as [Hin|(? & ? & ->)]; [|done].
  eapply incoming_ok_mono; [exact Hsub | by apply (Hq c)].
Qed.

Lemma exec_req_spec (r : RedisServer) (key : string) (c : conn) (rq : Req) (fs : list Frame) :
  let '(r', rp, _) := exec_req r key c rq in
  sMembers r key ⊆ sMembers r' key /\ incoming_ok (sMembers r' key) (IReply rp fs) /\
  (forall k, sMembers r k ⊆ sMembers r' k).
Proof.
  destruct rq as [|v|ch]; simpl.
  - set_solver.
  - destruct (sAdd r key v) as [r' added] eqn:E. simpl.
    pose proof (sAdd_member r key v) as Hm. pose proof (fun k' => sAdd_mono r key k' v) as Hmono.
    rewrite E in Hm, Hmono. simpl in *. auto.
  - set_solver.
Qed.

Lemma server_step_mirror_inv (w w' : World) (c : conn) (ok : bool) :
  mirror_inv w -> server_step w c ok = Some w' -> mirror_inv w'.
Proof.
  intros [Hm Hq] Hs. unfold server_step in Hs.
  destruct (w_conns w !! c) as [q|] eqn:Hc; simpl in Hs; [|done].
  destruct (cq_requests q) as [|[rq fs] rest]; [done|].
  assert (Hx : exists r' rp ns,
             (if ok then exec_req (w_redis w) (CACHE_KEY (w_cache w)) c rq
              else (w_redis w, RpErr rq, [])) = (r', rp, ns) /\
             remote w ⊆ sMembers r' (CACHE_KEY (w_cache w)) /\
             incoming_ok (sMembers r' (CACHE_KEY (w_cache w))) (IReply rp fs)).
  { destruct ok.
    - pose proof (exec_req_spec (w_redis w) (CACHE_KEY (w_cache w)) c rq fs) as Hx.
      destruct (exec_req _ _ _ _) as [[r' rp] ns]. destruct Hx as (? & ? & _). exists r', rp, ns. by unfold remote.
    - eexists _, _, _. split; [done|]. split; [done | by destruct rq]. }
  destruct Hx as (r' & rp & ns & Heq & Hsub & Hok). rewrite Heq in Hs. injection Hs as <-.
  unfold mirror_inv, mirror, remote in *; simpl in *.
  split; [set_solver|]. intros c' i Hi. unfold conn_of in Hi; simpl in Hi.
  destruct (push_all_incoming _ _ _ _ Hi) as [Hin|(? & ? & ->)]; [|done].
  destruct (decide (c = c')) as [<-|Hne].
  - rewrite lookup_insert_eq in Hin. simpl in Hin.
    apply elem_of_app in Hin as [Hin|Hin].
    + eapply incoming_ok_mono; [exact Hsub|]. apply (Hq c). unfold conn_of. by rewrite Hc.
    + by apply list_elem_of_singleton in Hin as ->.
  - rewrite lookup_insert_ne in Hin by done.
    eapply incoming_ok_mono; [exact Hsub | by apply (Hq c')].
Qed.

Lemma resume_key (c : Cache) (rp : Reply) :
  CACHE_KEY (resume c rp).1 = CACHE_KEY c /\
  redisCommand (resume c rp).1 = redisCommand c /\ redisSub (resume c rp).1 = redisSub c.
Proof. by destruct rp as [| | |[]]. Qed.

Lemma resume_mirror (c : Cache) (rp : Reply) (fs : list Frame) (R : gset string) :
  inMemoryCache c ⊆ R -> incoming_ok R (IReply rp fs) -> inMemoryCache (resume c rp).1 ⊆ R.
Proof. destruct rp as [| | |[]]; simpl; set_solver. Qed.

Lemma client_step_mirror_inv (w w' : World) (c : conn) :
  mirror_inv w -> client_step w c = Some w' -> mirror_inv w'.
Proof.
  intros [Hm Hq] Hs. unfold client_step in Hs.
  destruct (w_conns w !! c) as [q|] eqn:Hc; simpl in Hs; [|done].
  destruct (cq_incoming q) as [|i rest] eqn:Hi; [done|]. injection Hs as <-.
  set (w1 := set_conns w (<[c := mkConnQ (cq_requests q) rest]> (w_conns w))).
  assert (Hq1 : forall c' i', i' ∈ cq_incoming (conn_of w1 c') -> incoming_ok (remote w) i').
  { intros c' i' Hi'. unfold w1 in Hi'. rewrite conn_of_insert in Hi'.
    case_decide; [subst c'|by apply (Hq c')]. apply (Hq c). unfold conn_of. rewrite Hc; simpl. rewrite Hi.
    simpl in *. by apply list_elem_of_further. }
  assert (Hhead : incoming_ok (remote w) i).
  { apply (Hq c). unfold conn_of. rewrite Hc; simpl. rewrite Hi. apply list_elem_of_here. }
  destruct i as [rp fs|ch msg].
  - destruct (resume (w_cache w) rp) as [cache' o] eqn:Hr.
    apply (benign_mirror_inv (set_cache w1 cache')); [apply unwind_benign|].
    pose proof (resume_key (w_cache w) rp) as (Hk & _). rewrite Hr in Hk.
    pose proof (resume_mirror (w_cache w) rp fs (remote w) Hm Hhead) as Hmr. rewrite Hr in Hmr.
    unfold mirror_inv, mirror, remote in *; simpl in *. rewrite Hk. split; [done|].
    intros c' i'. apply Hq1.
  - apply (benign_mirror_inv w1).
    + apply listener_benign.
    + split; [done | apply Hq1].
Qed.

Lemma initialize_connected_mirror_inv (w : World) (fs : list Frame) :
  mirror_inv w -> mirror_inv (initialize_connected w fs).
Proof.
  intros [Hm Hq]. unfold initialize_connected. simpl.
  eapply benign_mirror_inv; [apply send_benign|].
  unfold mirror_inv, mirror, remote in *; simpl. split; [done|].
  intros c i Hi. unfold conn_of in Hi; simpl in Hi.
  rewrite lookup_insert in Hi. case_decide; [set_solver|].
  rewrite lookup_insert in Hi. case_decide; [set_solver|]. by apply (Hq c).
Qed.

Lemma task_step_mirror_inv (w w' : World) (i : nat) (ok : bool) :
  mirror_inv w -> task_step w i ok = Some w' -> mirror_inv w'.
Proof.
  intros Hinv Hs. unfold task_step in Hs.
  destruct (w_tasks w !! i) as [[p fs]|]; simpl in Hs; [|done]. injection Hs as <-.
  assert (Hinv1 : mirror_inv (set_tasks w (delete i (w_tasks w)))) by
    (eapply benign_mirror_inv; [|exact Hinv]; done).
  destruct p; [destruct ok|];
    first [by apply initialize_connected_mirror_inv
          | eapply benign_mirror_inv; [apply unwind_benign | exact Hinv1]].
Qed.

Lemma set_redis_id (w : World) : set_redis w (w_redis w) = w.
Proof. by destruct w. Qed.

Lemma publish_set_redis_id (w : World) (ns : list (conn * string * string)) :
  publish w ns = publish (set_redis w (w_redis w)) ns.
Proof. by rewrite set_redis_id. Qed.

Lemma step_mirror_inv (w w' : World) (a : Action) :
  mirror_inv w -> step w a = Some w' -> mirror_inv w'.
Proof.
  intros Hinv Hs. destruct a; simpl in Hs.
  - eauto using server_step_mirror_inv.
  - eauto using client_step_mirror_inv.
  - eauto using task_step_mirror_inv.
  - injection Hs as <-. unfold ext_sadd.
    pose proof (sAdd_mono (w_redis w) k (CACHE_KEY (w_cache w)) v) as Hmono.
    destruct (sAdd (w_redis w) k v) as [r' added]. by apply mirror_inv_grow.
  - unfold ext_event in Hs. case_decide; [done|]. injection Hs as <-.
    rewrite publish_set_redis_id. by apply mirror_inv_grow.
  - injection Hs as <-. eapply benign_mirror_inv; [apply bulkCheck_benign | exact Hinv].
  - injection Hs as <-. eapply benign_mirror_inv; [apply callAddPool_benign | exact Hinv].
Qed.

Lemma new_cache_mirror_inv (test : bool) (key : string) (r : RedisServer) :
  mirror_inv (new_cache test key r).
Proof.
  eapply benign_mirror_inv; [apply initialize_benign|].
  split; [set_solver|]. intros c i Hi. unfold conn_of in Hi. simpl in Hi. set_solver.
Qed.

(** ** The store only grows *)

Lemma grows_refl (w : World) : grows w w.
Proof. done. Qed.

Lemma grows_trans (w1 w2 w3 : World) : grows w1 w2 -> grows w2 w3 -> grows w1 w3.
Proof. intros (?&?&H1) (?&?&H2). split; [congruence|]. split; [congruence|]. set_solver. Qed.

Lemma benign_grows (w w' : World) : benign w w' -> grows w w'.
Proof. intros (Ht & Hr & Hc & _). unfold grows. rewrite Ht, Hr, Hc. done. Qed.

Lemma step_grows (w w' : World) (a : Action) : step w a = Some w' -> grows w w'.
Proof.
  intros Hs. destruct a; simpl in Hs.
  - unfold server_step in Hs.
    destruct (w_conns w !! c) as [q|]; simpl in Hs; [|done].
    destruct (cq_requests q) as [|[rq fs] rest]; [done|].
    destruct ok.
    + pose proof (exec_req_spec (w_redis w) (CACHE_KEY (w_cache w)) c rq fs) as Hx.
      destruct (exec_req _ _ _ _) as [[r' rp] ns]. injection Hs as <-.
      destruct Hx as (_ & _ & Hk). done.
    + injection Hs as <-. done.
  - unfold client_step in Hs.
    destruct (w_conns w !! c) as [q|]; simpl in Hs; [|done].
    destruct (cq_incoming q) as [|[rp fs|ch msg] rest]; [done| |]; injection Hs as <-.
    + destruct (resume (w_cache w) rp) as [cache' o] eqn:Hr.
      pose proof (resume_key (w_cache w) rp) as (Hk & _). rewrite Hr in Hk; simpl in Hk.
      eapply grows_trans; [|apply benign_grows, unwind_benign].
      unfold grows; simpl. by rewrite Hk.
    + eapply grows_trans; [|apply benign_grows, listener_benign]. done.
  - unfold task_step in Hs.
    destruct (w_tasks w !! i) as [[p fs]|]; simpl in Hs; [|done]. injection Hs as <-.
    destruct p; [destruct ok|];
      try (apply benign_grows; eapply benign_trans; [apply set_tasks_benign | apply unwind_benign]).
    unfold initialize_connected; simpl.
    eapply grows_trans; [|apply benign_grows, send_benign]. done.
  - injection Hs as <-. unfold ext_sadd.
    pose proof (fun k' => sAdd_mono (w_redis w) k k' v) as Hmono.
    destruct (sAdd (w_redis w) k v) as [r' added]. done.
  - unfold ext_event in Hs. case_decide; [done|]. by injection Hs as <-.
  - injection Hs as <-. apply benign_grows, bulkCheck_benign.
  - injection Hs as <-. apply benign_grows, callAddPool_benign.
Qed.

Lemma run_mirror_inv (w w' : World) (acts : list Action) :
  mirror_inv w -> w -[ acts ]-> w' -> mirror_inv w'.
Proof. apply run_invariant. intros s a s'. apply step_mirror_inv. Qed.

(** ** No false positives *)

(** What [unwind] and the calls it makes add to the results and the pool:
    the outcome it was resumed with, or an outcome whose set lies in the
    current mirror [m]; tasks waiting to connect or on a promise that
    settled without a set. *)
Definition adds_only (m : gset string) (o : Outcome) (w w' : World) : Prop :=
  (forall x, x ∈ w_results w' -> x ∈ w_results w \/ x.2 = o \/ outcome_ok m (x.2)) /\
  (forall t, t ∈ w_tasks w' ->
     t ∈ w_tasks w \/ t.1 = PConnect \/ t.1 = PResolved (Ok VUnit) \/ t.1 = PResolved Err).

Lemma adds_only_refl (m : gset string) (o : Outcome) (w : World) : adds_only m o w w.
Proof. split; auto. Qed.

Lemma send_adds_only (m : gset string) (o : Outcome) (w : World) (oc : option conn)
    (r : Req) (fs : list Frame) (ou : Outcome) :
  ou = Ok VUnit \/ ou = Err -> adds_only m o w (send w oc r fs ou).
Proof.
  intros Hou. destruct oc as [c|]; [split; simpl; auto|]. split; [auto|].
  intros t Ht. simpl in Ht. apply elem_of_app in Ht as [|Ht]; [auto|].
  apply list_elem_of_singleton in Ht as ->. simpl. destruct Hou as [-> | ->]; auto.
Qed.

Lemma listener_adds_only (m : gset string) (o : Outcome) (w : World) (message : string) :
  adds_only m o w (listener w message).
Proof.
  unfold listener. case_decide;
    first [apply adds_only_refl | exact (send_adds_only _ _ w _ _ _ _ (or_intror eq_refl))].
Qed.

Lemma adds_only_trans (m : gset string) (o o' : Outcome) (w1 w2 w3 : World) :
  adds_only m o w1 w2 -> adds_only m o' w2 w3 -> o' = o \/ outcome_ok m o' ->
  adds_only m o w1 w3.
Proof.
  intros [R12 T12] [R23 T23] Ho. split.
  - intros x Hx. destruct (R23 x Hx) as [H|[Hx2|H]]; [by apply R12| |auto].
    rewrite Hx2. destruct Ho; auto.
  - intros t Ht. destruct (T23 t Ht) as [H|H]; [by apply T12 | auto].
Qed.

Lemma settle_adds_only (m : gset string) (o : Outcome) (w : World) (id : nat) :
  adds_only m o w (settle w id o).
Proof.
  split; [|by auto]. intros x Hx. simpl in Hx.
  apply elem_of_app in Hx as [|Hx]; [auto|]. apply list_elem_of_singleton in Hx as ->. auto.
Qed.

Lemma unwind_adds_only (w : World) (o : Outcome) (fs : list Frame) :
  adds_only (mirror w) o w (unwind w o fs).
Proof.
  revert w o. induction fs as [|f fs IH]; intros w o; simpl; [apply adds_only_refl|].
  destruct f, o as [v|]; simpl; try (apply send_adds_only; by left); try apply IH.
  all: first
    [ eapply adds_only_trans; [apply settle_adds_only | exact (IH _ _) | by left]
    | eapply adds_only_trans; [apply adds_only_refl | apply IH | right; exact I]
    | eapply adds_only_trans; [apply adds_only_refl | apply IH | right; cbn];
      apply bulkCheck_result_subset ].
Qed.

Lemma outcome_ok_mono (R R' : gset string) (o : Outcome) :
  R ⊆ R' -> outcome_ok R o -> outcome_ok R' o.
Proof. destruct o as [[]|]; simpl; set_solver. Qed.

Lemma pending_ok_mono (R R' : gset string) (p : Pending) :
  R ⊆ R' -> pending_ok R p -> pending_ok R' p.
Proof. destruct p; simpl; eauto using outcome_ok_mono. Qed.

(** The transfer lemma: a world that only added harmless work keeps the
    invariant, provided the store did not shrink. *)
Lemma answers_transfer (w w' : World) (m : gset string) (o : Outcome) :
  m ⊆ remote w -> outcome_ok (remote w) o -> adds_only m o w w' ->
  remote w ⊆ remote w' -> answers_inv w -> answers_inv w'.
Proof.
  intros Hm Ho [Hr Ht] Hsub [HR HT]. split.
  - intros x Hx. apply (outcome_ok_mono (remote w)); [done|].
    destruct (Hr x Hx) as [H|[->|H]]; [by apply HR | done |].
    by apply (outcome_ok_mono m).
  - intros t Ht'. destruct (Ht t Ht') as [H | [-> | [-> | ->]]]; simpl; [|done|done|done].
    eapply pending_ok_mono; [exact Hsub | by apply HT].
Qed.

Lemma resume_outcome (c : Cache) (rp : Reply) :
  (resume c rp).2 = Ok VUnit \/ (resume c rp).2 = Err.
Proof. destruct rp as [| | |[]]; simpl; auto. Qed.

Lemma park_adds_only (m : gset string) (o : Outcome) (w : World) (p : Pending) (fs : list Frame) :
  p = PConnect \/ p = PResolved (Ok VUnit) -> adds_only m o w (park w p fs).
Proof.
  intros Hp. split; [by auto|]. intros t Ht. simpl in Ht.
  apply elem_of_app in Ht as [|Ht]; [auto|]. apply list_elem_of_singleton in Ht as ->.
  simpl. destruct Hp as [-> | ->]; auto.
Qed.

Lemma initialize_adds_only (m : gset string) (o : Outcome) (w : World) (fs : list Frame) :
  adds_only m o w (initialize w fs).
Proof. unfold initialize. repeat case_match; apply park_adds_only; auto. Qed.

Lemma bulkCheck_adds_only (w : World) (l : list string) :
  adds_only (mirror w) Err w (bulkCheck w l).
Proof.
  unfold bulkCheck. case_match.
  - split; [|by auto]. intros x Hx. simpl in Hx.
    apply elem_of_app in Hx as [|Hx]; [auto|]. apply list_elem_of_singleton in Hx as ->.
    right; right. simpl. apply bulkCheck_result_subset.
  - exact (initialize_adds_only _ _ (fresh_id w) _).
Qed.

Lemma client_step_answers_inv (w w' : World) (c : conn) :
  mirror_inv w -> answers_inv w -> remote w ⊆ remote w' -> client_step w c = Some w' ->
  answers_inv w'.
Proof.
  intros [Hm Hq] Hans Hsub Hs. unfold client_step in Hs.
  destruct (w_conns w !! c) as [q|] eqn:Hc; simpl in Hs; [|done].
  destruct (cq_incoming q) as [|[rp fs|ch msg] rest] eqn:Hi; [done| |]; injection Hs as <-.
  - assert (Hhead : incoming_ok (remote w) (IReply rp fs)).
    { apply (Hq c). unfold conn_of. rewrite Hc; simpl. rewrite Hi. apply list_elem_of_here. }
    pose proof (resume_mirror (w_cache w) rp fs (remote w) Hm Hhead) as Hmr.
    pose proof (resume_outcome (w_cache w) rp) as Ho.
    destruct (resume (w_cache w) rp) as [cache' o] eqn:Hr. simpl in Hmr, Ho.
    apply (answers_transfer w _ (inMemoryCache cache') o); [done| | |done|done].
    + by destruct Ho as [-> | ->].
    + exact (unwind_adds_only (set_cache (set_conns w _) cache') o fs).
  - apply (answers_transfer w _ (mirror w) Err); [done|done| |done|done].
    exact (listener_adds_only _ _ (set_conns w _) msg).
Qed.

Lemma task_step_answers_inv (w w' : World) (i : nat) (ok : bool) :
  mirror_inv w -> answers_inv w -> remote w ⊆ remote w' -> task_step w i ok = Some w' ->
  answers_inv w'.
Proof.
  intros [Hm _] Hans Hsub Hs. unfold task_step in Hs.
  destruct (w_tasks w !! i) as [[p fs]|] eqn:Ht; simpl in Hs; [|done]. injection Hs as <-.
  set (w1 := set_tasks w (delete i (w_tasks w))).
  assert (Hans1 : answers_inv w1).
  { destruct Hans as [HR HT]. split; [done|]. intros t Ht'. apply HT.
    by apply list_elem_of_delete_inv in Ht'. }
  assert (Hp : pending_ok (remote w) p).
  { destruct Hans as [_ HT]. apply (HT (p, fs)). by eapply list_elem_of_lookup_2. }
  destruct p as [|o]; [destruct ok|].
  - apply (answers_transfer w1 _ (mirror w) Err); [done|done| |done|done].
    unfold initialize_connected. simpl.
    exact (send_adds_only _ _ (set_cache (set_conns (set_redis w1 _) _) _) _ _ _ _ (or_intror eq_refl)).
  - apply (answers_transfer w1 _ (mirror w) Err); [done|done| |done|done].
    exact (unwind_adds_only w1 Err fs).
  - apply (answers_transfer w1 _ (mirror w) o); [done|done| |done|done].
    exact (unwind_adds_only w1 o fs).
Qed.

Lemma step_answers_inv (w w' : World) (a : Action) :
  mirror_inv w -> answers_inv w -> step w a = Some w' -> answers_inv w'.
Proof.
  intros Hmi Hans Hs. pose proof (step_grows w w' a Hs) as (_ & Hkey & Hgrow).
  assert (Hsub : remote w ⊆ remote w') by (unfold remote; rewrite Hkey; apply Hgrow).
  pose proof Hmi as [Hm _].
  (* steps that leave results and pool alone *)
  assert (Hsame : w_results w' = w_results w -> w_tasks w' = w_tasks w -> answers_inv w').
  { intros Er Et. apply (answers_transfer w w' (mirror w) Err); [done|done| |done|done].
    split; intros ? Hx; rewrite ?Er, ?Et in Hx; auto. }
  destruct a; simpl in Hs.
  - unfold server_step in Hs. destruct (w_conns w !! c) as [q|]; simpl in Hs; [|done].
    destruct (cq_requests q) as [|[rq fs] rest]; [done|].
    destruct ok; [destruct (exec_req _ _ _ _) as [[r' rp] ns]|];
      injection Hs as <-; by apply Hsame.
  - by apply (client_step_answers_inv w w' c).
  - by apply (task_step_answers_inv w w' i ok).
  - injection Hs as <-. apply Hsame; unfold ext_sadd; by destruct (sAdd _ _ _).
  - unfold ext_event in Hs. case_decide; [done|]. injection Hs as <-. by apply Hsame.
  - injection Hs as <-. apply (answers_transfer w _ (mirror w) Err); [done|done| |done|done].
    apply bulkCheck_adds_only.
  - injection Hs as <-. apply (answers_transfer w _ (mirror w) Err); [done|done| |done|done].
    exact (send_adds_only _ _ (fresh_id w) _ _ _ _ (or_intror eq_refl)).
Qed.

(** ** The invariant holds in every reachable world *)

Lemma new_cache_inv (test : bool) (key : string) (r : RedisServer) :
  cache_inv (new_cache test key r).
Proof.
  split; [apply new_cache_mirror_inv|].
  unfold new_cache, initialize. destruct test; simpl; split; intros x Hx;
    [by apply not_elem_of_nil in Hx | apply list_elem_of_singleton in Hx; by subst
    | by apply not_elem_of_nil in Hx | apply list_elem_of_singleton in Hx; by subst].
Qed.

Lemma run_cache_inv (w w' : World) (acts : list Action) :
  cache_inv w -> w -[ acts ]-> w' -> cache_inv w'.
Proof.
  apply run_invariant. intros s a s' [Hm Ha] Hs.
  split; [by eapply step_mirror_inv | by eapply step_answers_inv].
Qed.

(** ** Properties *)

(** C2: Whatever the interleaving of the constructor, the queries, the
    notifications, the failures and the writes of other processes, every
    member of the local mirror is a member of the remote set: the mirror
    never invents a member. *)
Theorem mirror_subset_remote (test : bool) (key : string) (r : RedisServer) (w : World) :
  reachable test key r w -> mirror w ⊆ remote w.
Proof. intros [acts Hrun]. apply (run_cache_inv _ _ _ (new_cache_inv test key r) Hrun). Qed.

Lemma mirror_subset_remote_witness :
  syncswapCache false store0 -[ spec_scenario ]-> spec_final /\ mirror spec_final ⊆ remote spec_final.
Proof.
  assert (E : syncswapCache false store0 -[ spec_scenario ]-> spec_final) by (vm_compute; reflexivity).
  split; [exact E | exact (mirror_subset_remote false "syncswap:pools" store0 spec_final (ex_intro _ spec_scenario E))].
Defined.

(** C3: No false positives: every set a [bulkCheck..] call settled with
    holds only members of the remote set.  A query may miss members (it
    fails open), it never reports an address the store does not hold. *)
Theorem bulkCheck_no_false_positive (test : bool) (key : string) (r : RedisServer)
    (w : World) (id : nat) (s : gset string) :
  reachable test key r w -> (id, Ok (VSet s)) ∈ w_results w -> s ⊆ remote w.
Proof.
  intros [acts Hrun] Hin. destruct (run_cache_inv _ _ _ (new_cache_inv test key r) Hrun) as [_ [HR _]].
  exact (HR _ Hin).
Qed.

Lemma bulkCheck_no_false_positive_witness :
  syncswapCache false store0 -[ spec_scenario ]-> spec_final /\
  (2, Ok (VSet {["0xbbb"]})) ∈ w_results spec_final /\ {["0xbbb"]} ⊆ remote spec_final.
Proof.
  assert (E : syncswapCache false store0 -[ spec_scenario ]-> spec_final) by (vm_compute; reflexivity).
  assert (Hin : (2, Ok (VSet {["0xbbb"]})) ∈ w_results spec_final)
    by (apply (bool_decide_unpack _); vm_compute; reflexivity).
  split; [exact E|]. split; [exact Hin|].
  exact (bulkCheck_no_false_positive false "syncswap:pools" store0 spec_final 2 _ (ex_intro _ spec_scenario E) Hin).
Defined.
