(* ===== verification/CacheRaces.v ===== *)
(** * The races of [initialize], exhibited

    The specification (sections 4.1, 5, 8, 9) requires that concurrent
    callers share one initialization, that [bulkCheck] waits for the
    initial load, that it never rejects, and that the mirror converges to
    the store after each notification.  The class does not: [bulkCheck..]
    tests [!this.redisCommand] and calls [initialize()] again instead of
    awaiting [initializationPromise], [initialize] subscribes only after
    the initial load, and a load's reply replaces the mirror whenever it
    arrives.  The duplicated initialization is shown for any store and
    any number of early queries ([bulkChecks_park], [connect_all]); the
    other races are shown by running the model on a concrete schedule. *)

From S2P Require Import Prelude Address RemoteStore MembershipCache CacheSpec Scenarios.

Open Scope string_scope.

(** ** Schedules *)

(** The router's first event arrives before the constructor's connections
    are open: [bulkCheck] starts a second [initialize] (task 1). *)
Definition race_double_init : list Action :=
  [ ABulkCheck ["0xaaa"]; ATask 0 true; ATask 0 true ].

(** A query between the stores of the connections and the installation of
    the first load. *)
Definition race_stale_read : list Action :=
  [ ATask 0 true; ABulkCheck ["0xAAA"] ].

(** Another process adds a wallet after the initial load was executed and
    before the subscription is registered. *)
Definition race_missed_add : list Action :=
  [ ATask 0 true; AServer 0 true; AExtSAdd "clave:wallets" "0xbbb";
    AClient 0; AServer 1 true; AClient 1 ].

(** The wallet cache after a schedule (the constructor's world when the
    schedule is not enabled). *)
Definition wallet_after (acts : list Action) : World :=
  default (walletCache false store0) (run (walletCache false store0) acts).

(** On the pool cache: a query starts a second [initialize]; both initial
    loads are executed; the second is installed and the pool ["0xBBB"] is
    added on the second command connection; then the first, stale, load
    is received and replaces the mirror; a query follows; the two
    subscriptions are registered. *)
Definition race_lost_add : list Action :=
  [ ABulkCheck ["0xaaa"]; ATask 0 true; AServer 0 true; ATask 0 true; AServer 2 true; AClient 2;
    AAddPool "0xBBB"; AServer 2 true; AClient 2; AClient 0; ABulkCheck ["0xbbb"];
    AServer 3 true; AServer 3 true; AClient 3; AClient 3 ].

Definition pool_after (acts : list Action) : World :=
  default (syncswapCache false store0) (run (syncswapCache false store0) acts).

(** The actions the instance and the server take on their own, as
    opposed to calls and writes of other processes. *)
Definition internal (a : Action) : bool :=
  match a with AServer _ _ | AClient _ | ATask _ _ => true | _ => false end.

(** ** The duplicated initialization, for any number of early queries *)

(** While [redisCommand] is unset, each query parks one more connection
    attempt of its own [initialize]. *)
Lemma bulkChecks_park (w : World) (l : list string) (n : nat) :
  w_test w = false -> redisCommand (w_cache w) = None ->
  w -[ repeat (ABulkCheck l) n ]->
    mkWorld false (w_redis w) (w_cache w) (w_conns w)
      (w_tasks w ++ ((fun i => (PConnect, [KBulk l; KReturn i])) <$> seq (w_next_id w) n))%list
      (w_results w) (w_next_id w + n).
Proof.
  revert w. induction n as [|n IH]; intros w Ht Hc; simpl.
  - rewrite app_nil_r, Nat.add_0_r, <- Ht. by destruct w.
  - unfold bulkCheck, initialize, park. simpl. rewrite Hc, Ht. simpl.
    rewrite IH by done. simpl. rewrite <- app_assoc, Nat.add_succ_r. done.
Qed.

(** A successful connection attempt opens connections [n] and [n + 1]
    and queues the initial load on [n]. *)
Lemma initialize_connected_shape (w : World) (fs : list Frame) :
  let n := rs_nconn (w_redis w) in
  let w1 := initialize_connected w fs in
  w_tasks w1 = w_tasks w /\ rs_nconn (w_redis w1) = n + 2 /\
  (forall c, c < n -> w_conns w1 !! c = w_conns w !! c) /\
  ((forall c, n <= c -> w_conns w !! c = None) -> forall c, n + 2 <= c -> w_conns w1 !! c = None) /\
  cq_requests (conn_of w1 n) = [(RqSMembers, KInitLoaded :: fs)].
Proof.
  intros n w1. unfold w1, initialize_connected. cbn [getRedisInstance]. unfold updateInMemoryCache.
  simpl. unfold conn_of; simpl. rewrite (lookup_insert_ne _ (S (rs_nconn (w_redis w)))) by lia.
  rewrite lookup_insert_eq. simpl. split; [done|]. split; [unfold n; lia|].
  split; [|split].
  - intros c Hc. rewrite !lookup_insert_ne by (unfold n in Hc; lia). done.
  - intros Hf c Hc. rewrite !lookup_insert_ne by (unfold n in Hc; lia). apply Hf. unfold n in Hc; lia.
  - by rewrite lookup_insert_eq.
Qed.

(** The parked attempts, resumed in order, each open two connections and
    queue a full load. *)
Lemma connect_all (fss : list (list Frame)) (w : World) :
  w_tasks w = (fun fs => (PConnect, fs)) <$> fss ->
  (forall c, rs_nconn (w_redis w) <= c -> w_conns w !! c = None) ->
  exists w', w -[ repeat (ATask 0 true) (List.length fss) ]-> w' /\
    rs_nconn (w_redis w') = rs_nconn (w_redis w) + 2 * List.length fss /\
    (forall c, c < rs_nconn (w_redis w) -> w_conns w' !! c = w_conns w !! c) /\
    (forall j fs, fss !! j = Some fs ->
       cq_requests (conn_of w' (rs_nconn (w_redis w) + 2 * j)) = [(RqSMembers, KInitLoaded :: fs)]).
Proof.
  revert w. induction fss as [|fs fss IH]; intros w Ht Hf.
  - exists w. split; [done|]. simpl. split; [lia|]. split; [done|]. intros j fs Hj. by rewrite lookup_nil in Hj.
  - set (w0 := set_tasks w ((fun fs => (PConnect, fs)) <$> fss)).
    destruct (initialize_connected_shape w0 fs) as (Ht1 & Hn1 & Hlo1 & Hf1 & Hq1).
    set (w1 := initialize_connected w0 fs) in *.
    assert (Hs : step w (ATask 0 true) = Some w1) by (simpl; unfold task_step; rewrite Ht; done).
    assert (Hf' : forall c, rs_nconn (w_redis w1) <= c -> w_conns w1 !! c = None)
      by (intros c Hc; apply (Hf1 Hf); lia).
    destruct (IH w1 Ht1 Hf') as (w' & Hr & Hn' & Hlo' & Hq').
    exists w'. split; [apply run_cons; exists w1; by split|].
    change (rs_nconn (w_redis w0)) with (rs_nconn (w_redis w)) in *. simpl List.length.
    split; [lia|]. split.
    + intros c Hc. rewrite Hlo' by lia. apply Hlo1, Hc.
    + intros [|j] fs' Hj; simpl in Hj.
      * injection Hj as <-. rewrite Nat.mul_0_r, Nat.add_0_r. unfold conn_of in *.
        rewrite Hlo' by lia. exact Hq1.
      * replace (rs_nconn (w_redis w) + 2 * S j) with (rs_nconn (w_redis w1) + 2 * j) by lia.
        by apply Hq'.
Qed.

(** ** Properties *)

(** C8: Concurrent callers do not share the initialization: from a
    fresh instance, over any store and for any key, [n] queries arriving
    while the constructor's connections are still opening start [n] more
    initializations; once the [n + 1] connection attempts succeed, the
    instance has opened [2 (n + 1)] connections and queued [n + 1] full
    loads, one on each command connection, where the specification
    (section 8) allows one. *)
Theorem initialize_race_duplicates (key : string) (r : RedisServer) (addresses : list string) (n : nat) :
  exists w, new_cache false key r -[ repeat (ABulkCheck addresses) n ++ repeat (ATask 0 true) (S n) ]-> w /\
    rs_nconn (w_redis w) = rs_nconn r + 2 * S n /\
    forall j, j <= n -> exists fs, cq_requests (conn_of w (rs_nconn r + 2 * j)) = [(RqSMembers, fs)].
Proof.
  set (w0 := new_cache false key r).
  pose proof (bulkChecks_park w0 addresses n eq_refl eq_refl) as H1.
  set (fss := [KCatch] :: ((fun i => [KBulk addresses; KReturn i]) <$> seq 0 n)).
  match type of H1 with _ -[ _ ]-> ?w1 => destruct (connect_all fss w1) as (w & H2 & Hn & _ & Hq) end.
  { simpl. by rewrite <- list_fmap_compose. }
  { intros c _. apply lookup_empty. }
  assert (Hl : List.length fss = S n) by (simpl; by rewrite length_fmap, length_seq).
  rewrite Hl in H2. exists w. split; [apply run_app; eexists; split; [exact H1 | exact H2]|].
  rewrite Hl in Hn. split; [exact Hn|].
  intros j Hj. destruct (lookup_lt_is_Some_2 fss j) as [fs Hfs]; [lia|].
  exists (KInitLoaded :: fs). exact (Hq j fs Hfs).
Qed.

(** C10: A query issued after the connections are stored and before the
    initial load is installed does not wait for it: it settles with the
    empty set although the store holds the address. *)
Theorem bulkCheck_stale_read :
  walletCache false store0 -[ race_stale_read ]-> wallet_after race_stale_read /\
  "0xaaa" ∈ remote (wallet_after race_stale_read) /\
  w_results (wallet_after race_stale_read) = [(0, Ok (VSet ∅))].
Proof.
  split; [vm_compute; reflexivity|]. split; [|vm_compute; reflexivity].
  apply (bool_decide_unpack _). vm_compute. reflexivity.
Qed.

(** C11: A member added by another process after the initial load was
    executed and before the subscription is registered is never
    announced: the instance becomes quiescent with a mirror that misses
    it, and later queries do not report it. *)
Theorem missed_add_stays_stale :
  let w := wallet_after race_missed_add in
  walletCache false store0 -[ race_missed_add ]-> w /\
  quiescent w = true /\ "0xbbb" ∈ remote w /\ "0xbbb" ∉ mirror w /\
  step w (ABulkCheck ["0xBBB"]) =
    Some (settle (fresh_id w) (w_next_id w) (Ok (VSet ∅))).
Proof.
  simpl. split; [vm_compute; reflexivity|]. split; [vm_compute; reflexivity|].
  split; [apply (bool_decide_unpack _); vm_compute; reflexivity|].
  split; [apply (bool_decide_unpack _); vm_compute; reflexivity|].
  vm_compute. reflexivity.
Qed.

(** C9: The specification (section 8) requires that after [addPool(A)]
    resolves, a query of [A] on the same instance returns [A].  With the
    duplicated [initialize], the first initial load, executed before the
    [SADD] on the other command connection but received after its reply,
    overwrites the mirror: [addPool("0xBBB")] (call 1) resolves, the
    following query (call 2) answers the empty set, and the instance
    becomes quiescent with the pool in the store and not in the mirror. *)
Theorem added_pool_lost_to_stale_load :
  let w := pool_after race_lost_add in
  syncswapCache false store0 -[ race_lost_add ]-> w /\
  (1, Ok VUnit) ∈ w_results w /\ (2, Ok (VSet ∅)) ∈ w_results w /\
  quiescent w = true /\ "0xbbb" ∈ remote w /\ "0xbbb" ∉ mirror w.
Proof.
  simpl. split; [vm_compute; reflexivity|].
  repeat split; first [vm_compute; reflexivity | decide_by_eval].
Qed.

