(* ===== verification/CacheConvergence.v ===== *)
(** * Convergence of a ready instance

    Once an instance is [ready] (connected, subscribed, nothing in flight,
    mirror equal to the store), every later world in which nothing is in
    flight again has a mirror equal to the store, whatever other processes
    added, whatever unrelated notifications were interleaved, and whatever
    the callers did, provided no command fails (a failed reload is caught
    and logged, and the mirror then stays stale until the next add).

    The proof tracks the mirror the instance will have once the command
    connection's incoming queue is drained ([eventual]): on one
    connection replies are received in the order the server executed the
    commands, so that mirror is the last [SMEMBERS] reply in the queue,
    extended with the [SADD] replies after it.  The invariant [cover]
    says that this eventual mirror is the store, or that a reload is still
    to be executed, or that an ["sadd"] notification is still to be
    received (and will send one).  When nothing is in flight the last two
    are impossible. *)

From S2P Require Import Prelude Address RemoteStore MembershipCache CacheSpec Scenarios CacheInvariants.

Open Scope string_scope.

(** ** Definitions *)

Definition apply_incoming (M : gset string) (i : Incoming) : gset string :=
  match i with
  | IReply (RpMembers m) _ => m
  | IReply (RpAdded v) _ => {[v]} ∪ M
  | _ => M
  end.

(** The mirror once connection [c]'s incoming queue is received. *)
Definition eventual (w : World) (c : conn) : gset string :=
  foldl apply_incoming (mirror w) (cq_incoming (conn_of w c)).

Definition load_pending (w : World) (c : conn) : Prop :=
  exists fs, (RqSMembers, fs) ∈ cq_requests (conn_of w c).

Definition sadd_pending (w : World) : Prop :=
  exists c ch, IPush ch "sadd" ∈ cq_incoming (conn_of w c).

Definition cover (w : World) (c : conn) : Prop :=
  eventual w c = remote w \/ load_pending w c \/ sadd_pending w.

(** Traffic of a connection that is not the command connection: only
    subscriptions. *)
Definition sub_traffic (q : ConnQ) : Prop :=
  (forall r fs, (r, fs) ∈ cq_requests q -> exists ch, r = RqSubscribe ch) /\
  (forall rp fs, IReply rp fs ∈ cq_incoming q ->
     match rp with RpMembers _ | RpAdded _ | RpErr RqSMembers | RpErr (RqSAdd _) => False
     | _ => True end).

(** The steady state after initialization, with command connection [c]
    and subscriber connection [s]. *)
Definition steady (w : World) (c s : conn) : Prop :=
  w_test w = false /\ redisCommand (w_cache w) = Some c /\ redisSub (w_cache w) = Some s /\
  rs_keyspace (w_redis w) = true /\
  (s, keyspaceChannel (w_cache w)) ∈ rs_subs (w_redis w) /\ is_Some (w_conns w !! s) /\
  (forall t, t ∈ w_tasks w -> t.1 <> PConnect) /\
  (forall c', c' <> c -> sub_traffic (conn_of w c')).

(** What resuming suspended activations may do besides [benign]: queue
    subscriptions, park tasks on settled promises, keep every connection. *)
Definition frame_effects (w w' : World) : Prop :=
  benign w w' /\
  (forall c' r fs, (r, fs) ∈ cq_requests (conn_of w' c') ->
     (r, fs) ∈ cq_requests (conn_of w c') \/ exists ch, r = RqSubscribe ch) /\
  (forall c' x, x ∈ cq_requests (conn_of w c') -> x ∈ cq_requests (conn_of w' c')) /\
  (forall t, t ∈ w_tasks w' -> t ∈ w_tasks w \/ exists o, t.1 = PResolved o) /\
  (forall c', is_Some (w_conns w !! c') -> is_Some (w_conns w' !! c')).

(** Steps in which no command and no connection attempt fails. *)
Definition no_fail (a : Action) : Prop :=
  match a with AServer _ false | ATask _ false => False | _ => True end.

(** ** The subscription channel is the one the server publishes on *)

Lemma keyspaceChannel_server (c : Cache) :
  keyspaceChannel c = server_keyspace_channel 0 (CACHE_KEY c).
Proof. reflexivity. Qed.

(** ** What resuming activations does *)

Lemma frame_effects_refl (w : World) : frame_effects w w.
Proof. repeat split; auto. Qed.

Lemma frame_effects_trans (w1 w2 w3 : World) :
  frame_effects w1 w2 -> frame_effects w2 w3 -> frame_effects w1 w3.
Proof.
  intros (B1 & R1 & P1 & T1 & D1) (B2 & R2 & P2 & T2 & D2).
  split; [eauto using benign_trans|]. split; [|split; [|split]].
  - intros c' r fs H. destruct (R2 c' r fs H) as [H'|]; [by apply R1 | by right].
  - intros c' x H. by apply P2, P1.
  - intros t H. destruct (T2 t H) as [H'|]; [by apply T1 | by right].
  - intros c' H. by apply D2, D1.
Qed.

Lemma send_sub_frame_effects (w : World) (oc : option conn) (ch : string) (fs : list Frame)
    (o : Outcome) :
  frame_effects w (send w oc (RqSubscribe ch) fs o).
Proof.
  split; [apply send_benign|]. destruct oc as [c|].
  - unfold send. split; [|split; [|split]].
    + intros c' r fs' H. rewrite conn_of_insert in H. case_decide; [subst|by left].
      simpl in H. apply elem_of_app in H as [|H]; [by left|].
      apply list_elem_of_singleton in H. injection H as -> _. eauto.
    + intros c' x H. rewrite conn_of_insert. case_decide; [subst|done]. simpl. set_solver.
    + intros t H. by left.
    + intros c' H. simpl. rewrite lookup_insert. case_decide; [done|done].
  - split; [by left|]. split; [done|]. split; [|done].
    intros t H. simpl in H. apply elem_of_app in H as [|H]; [by left|].
    apply list_elem_of_singleton in H as ->. eauto.
Qed.

Lemma settle_frame_effects (w : World) (id : nat) (o : Outcome) : frame_effects w (settle w id o).
Proof. repeat split; auto. Qed.

Lemma unwind_frame_effects (w : World) (o : Outcome) (fs : list Frame) :
  frame_effects w (unwind w o fs).
Proof.
  revert w o. induction fs as [|f fs IH]; intros w o; simpl; [apply frame_effects_refl|].
  destruct f, o; simpl; try apply send_sub_frame_effects; try apply IH.
  all: exact (frame_effects_trans _ _ _ (settle_frame_effects _ _ _) (IH _ _)).
Qed.

Lemma frame_effects_steady (w w' : World) (c s : conn) :
  steady w c s -> frame_effects w w' -> steady w' c s.
Proof.
  intros (Ht & Hc & Hs & Hk & Hsub & Hdom & HT & Hother) ((Bt & Br & Bc & Bi) & R & P & T & D).
  unfold steady. rewrite Bt, Br, Bc. do 5 (split; [done|]). split; [by apply D|]. split.
  - intros t Htw. destruct (T t Htw) as [H|[o ->]]; [by apply HT | done].
  - intros c' Hne. destruct (Hother c' Hne) as [Hreq Hinc]. split.
    + intros r fs H. destruct (R c' r fs H) as [H'|]; [by eapply Hreq | done].
    + intros rp fs. rewrite Bi. apply Hinc.
Qed.

Lemma frame_effects_cover (w w' : World) (c : conn) :
  cover w c -> frame_effects w w' -> cover w' c.
Proof.
  intros Hcov ((Bt & Br & Bc & Bi) & R & P & T & D).
  unfold cover, eventual, load_pending, sadd_pending, mirror, remote in *.
  rewrite Br, Bc, Bi. destruct Hcov as [H|[[fs H]|(c' & ch & H)]]; [by left|..].
  - right; left. exists fs. by apply P.
  - right; right. exists c', ch. by rewrite Bi.
Qed.

(** ** Pushed messages *)

Lemma push_all_requests (cs : gmap conn ConnQ) (ns : list (conn * string * string)) (x : conn) :
  cq_requests (default empty_connq (push_all cs ns !! x)) = cq_requests (default empty_connq (cs !! x)).
Proof.
  revert cs. induction ns as [|[[c' ch] ev] ns IH]; intros cs; simpl; [done|].
  rewrite IH. destruct (cs !! c') as [q|] eqn:Hq; [|done].
  rewrite lookup_insert. case_decide; subst; [by rewrite Hq | done].
Qed.

Lemma push_all_incoming_app (cs : gmap conn ConnQ) (ns : list (conn * string * string)) (x : conn) :
  exists extra, cq_incoming (default empty_connq (push_all cs ns !! x)) =
                (cq_incoming (default empty_connq (cs !! x)) ++ extra)%list /\
              forall i, i ∈ extra -> exists ch ev, i = IPush ch ev.
Proof.
  revert cs. induction ns as [|[[c' ch] ev] ns IH]; intros cs; simpl.
  - exists []. rewrite app_nil_r. split; [done|]. intros i Hi. by apply not_elem_of_nil in Hi.
  - destruct (IH (match cs !! c' with
                  | Some q => <[c' := mkConnQ (cq_requests q) (cq_incoming q ++ [IPush ch ev])]> cs
                  | None => cs end)) as (extra & He & Hx).
    destruct (cs !! c') as [q|] eqn:Hq; [|by exists extra].
    rewrite lookup_insert in He. case_decide; subst.
    + exists (IPush ch ev :: extra). rewrite He, Hq. simpl. rewrite <- app_assoc. split; [done|].
      intros i [->|Hi]%elem_of_cons; eauto.
    + by exists extra.
Qed.

Lemma push_all_dom (cs : gmap conn ConnQ) (ns : list (conn * string * string)) (x : conn) :
  is_Some (cs !! x) -> is_Some (push_all cs ns !! x).
Proof.
  revert cs. induction ns as [|[[c' ch] ev] ns IH]; intros cs Hx; simpl; [done|].
  apply IH. destruct (cs !! c') eqn:Hq; [|done]. rewrite lookup_insert. by case_decide.
Qed.

Lemma push_all_delivers (cs : gmap conn ConnQ) (ns : list (conn * string * string)) (x : conn)
    (ch ev : string) :
  (x, ch, ev) ∈ ns -> is_Some (cs !! x) ->
  IPush ch ev ∈ cq_incoming (default empty_connq (push_all cs ns !! x)).
Proof.
  revert cs. induction ns as [|n ns IH]; intros cs Hin Hx; [by apply not_elem_of_nil in Hin|].
  apply elem_of_cons in Hin as [<-|Hin]; simpl.
  - destruct Hx as [q Hq]. rewrite Hq.
    destruct (push_all_incoming_app (<[x:=mkConnQ (cq_requests q) (cq_incoming q ++ [IPush ch ev])]> cs) ns x)
      as (extra & -> & _).
    rewrite lookup_insert_eq. simpl. set_solver.
  - destruct n as [[c' ch'] ev']. apply IH; [done|].
    destruct (cs !! c') eqn:Hq; [|done]. rewrite lookup_insert. by case_decide.
Qed.

Lemma foldl_apply_pushes (M : gset string) (extra : list Incoming) :
  (forall i, i ∈ extra -> exists ch ev, i = IPush ch ev) -> foldl apply_incoming M extra = M.
Proof.
  revert M. induction extra as [|i extra IH]; intros M Hx; simpl; [done|].
  destruct (Hx i (list_elem_of_here _ _)) as (ch & ev & ->). simpl.
  apply IH. intros j Hj. apply Hx. by apply list_elem_of_further.
Qed.

(** ** Server steps *)

Lemma conn_of_server (w : World) (r' : RedisServer) (c' : conn) (q : ConnQ)
    (rest : list (Req * list Frame)) (rp : Reply) (fs : list Frame)
    (ns : list (conn * string * string)) (x : conn) :
  w_conns w !! c' = Some q ->
  let W := set_conns (set_redis w r')
             (push_all (<[c' := mkConnQ rest (cq_incoming q ++ [IReply rp fs])]> (w_conns w)) ns) in
  cq_requests (conn_of W x) = (if decide (c' = x) then rest else cq_requests (conn_of w x)) /\
  exists extra,
    cq_incoming (conn_of W x) =
      ((if decide (c' = x) then cq_incoming q ++ [IReply rp fs] else cq_incoming (conn_of w x))
        ++ extra)%list /\
    forall i, i ∈ extra -> exists ch ev, i = IPush ch ev.
Proof.
  intros Hq W. unfold W, conn_of; simpl. rewrite push_all_requests.
  destruct (push_all_incoming_app (<[c' := mkConnQ rest (cq_incoming q ++ [IReply rp fs])]> (w_conns w)) ns x)
    as (extra & He & Hx).
  rewrite He. rewrite lookup_insert. case_decide; subst; simpl; eauto.
Qed.

Lemma incoming_prefix_sadd (w W : World) :
  (forall x, exists extra, cq_incoming (conn_of W x) = (cq_incoming (conn_of w x) ++ extra)%list) ->
  sadd_pending w -> sadd_pending W.
Proof.
  intros Hx (x & ch & Hin). exists x, ch. destruct (Hx x) as (extra & ->). set_solver.
Qed.

(** What the server does on a command: notifications stay enabled, no
    subscription is lost, and a subscription leaves the sets alone. *)
Lemma exec_req_effects (r : RedisServer) (key : string) (c' : conn) (rq : Req)
    (r' : RedisServer) (rp : Reply) (ns : list (conn * string * string)) :
  exec_req r key c' rq = (r', rp, ns) ->
  rs_keyspace r' = rs_keyspace r /\ (forall x, x ∈ rs_subs r -> x ∈ rs_subs r') /\
  (forall ch, rq = RqSubscribe ch -> rp = RpSubscribed ch /\ sMembers r' key = sMembers r key).
Proof.
  destruct rq as [|v|ch]; simpl; intros Hex.
  - injection Hex as <- <- <-. split; [done|]. split; [done|]. by intros ch.
  - destruct (sAdd r key v) as [r1 added] eqn:Ha. injection Hex as <- <- <-.
    pose proof (sAdd_keyspace r key v) as [Hk1 Hs1]. rewrite Ha in Hk1, Hs1.
    simpl in Hk1, Hs1. rewrite Hk1, Hs1. split; [done|]. split; [done|]. by intros ch.
  - injection Hex as <- <- <-. split; [done|]. split; [simpl; set_solver|].
    by intros ch0 [= ->].
Qed.

(** In the steady state, a command queued on another connection than the
    command connection is a subscription. *)
Lemma steady_other_subscribe (w : World) (c s c' : conn) (q : ConnQ) (rq : Req)
    (fs : list Frame) (rest : list (Req * list Frame)) :
  steady w c s -> w_conns w !! c' = Some q -> cq_requests q = (rq, fs) :: rest -> c' <> c ->
  exists ch, rq = RqSubscribe ch.
Proof.
  intros (_ & _ & _ & _ & _ & _ & _ & Hother) Hq Hr Hne.
  destruct (Hother c' Hne) as [Hreq _]. apply (Hreq rq fs).
  unfold conn_of. rewrite Hq; simpl; rewrite Hr. apply list_elem_of_here.
Qed.

Section ServerStep.
Context (w : World) (c s c' : conn) (q : ConnQ) (rq : Req) (fs : list Frame)
  (rest : list (Req * list Frame)) (r' : RedisServer) (rp : Reply)
  (ns : list (conn * string * string)).
Hypothesis Hst : steady w c s.
Hypothesis Hq : w_conns w !! c' = Some q.
Hypothesis Hr : cq_requests q = (rq, fs) :: rest.
Hypothesis Hex : exec_req (w_redis w) (CACHE_KEY (w_cache w)) c' rq = (r', rp, ns).

(** The world after the server executed the command. *)
Let W := set_conns (set_redis w r')
           (push_all (<[c' := mkConnQ rest (cq_incoming q ++ [IReply rp fs])]> (w_conns w)) ns).

Lemma server_result_steady : steady W c s.
Proof.
  pose proof Hst as (Ht & Hc & Hs & Hk & Hsub & Hdom & HT & Hother).
  destruct (exec_req_effects _ _ _ _ _ _ _ Hex) as (Hk' & Hsubs' & Hside).
  pose proof (fun x => conn_of_server w r' c' q rest rp fs ns x Hq) as HW. simpl in HW.
  unfold steady, W. simpl. rewrite Hk'. do 4 (split; [done|]). split; [by apply Hsubs'|].
  split; [apply push_all_dom; rewrite lookup_insert; by case_decide|].
  split; [done|]. intros x Hne. destruct (Hother x Hne) as [Hreq Hinc].
  destruct (HW x) as (Hreqx & extra & Hincx & Hpush). split.
  - intros r0 fs0 Hin. rewrite Hreqx in Hin. case_decide; [subst x|by eapply Hreq].
    apply (Hreq r0 fs0). unfold conn_of. rewrite Hq; simpl; rewrite Hr. by apply list_elem_of_further.
  - intros rp0 fs0 Hin. rewrite Hincx in Hin.
    apply elem_of_app in Hin as [Hin|Hin]; [|by destruct (Hpush _ Hin) as (? & ? & ?)].
    case_decide; [subst x|by eapply Hinc].
    apply elem_of_app in Hin as [Hin|Hin].
    + apply (Hinc rp0 fs0). unfold conn_of. by rewrite Hq.
    + apply list_elem_of_singleton in Hin. injection Hin as -> ->.
      destruct (steady_other_subscribe w c s c' q rq fs rest Hst Hq Hr Hne) as [ch ->].
      by destruct (Hside ch eq_refl) as [-> _].
Qed.

Lemma server_result_cover : cover w c -> cover W c.
Proof.
  intros Hcov. set (key := CACHE_KEY (w_cache w)) in *.
  pose proof (fun x => conn_of_server w r' c' q rest rp fs ns x Hq) as HW. simpl in HW.
  assert (Hqc : conn_of w c' = q) by (unfold conn_of; by rewrite Hq).
  assert (Hpre : sadd_pending w -> sadd_pending W).
  { unfold W. apply incoming_prefix_sadd. intros x. destruct (HW x) as (_ & extra & -> & _).
    case_decide as Hx.
    - exists ([IReply rp fs] ++ extra)%list. rewrite <- Hx, Hqc. by rewrite app_assoc.
    - by exists extra. }
  assert (Hload : forall fs0, (RqSMembers, fs0) ∈ cq_requests q -> rq <> RqSMembers ->
                  (RqSMembers, fs0) ∈ rest).
  { intros fs0 Hin Hne. rewrite Hr in Hin.
    apply elem_of_cons in Hin as [Heq|Hin]; [|done]. injection Heq as Heq _. by subst rq. }
  destruct (HW c) as (Hreqc & extra & Hincc & Hpush).
  unfold cover, eventual, load_pending, mirror, remote, W in *. simpl.
  rewrite Hreqc, Hincc, foldl_app, foldl_apply_pushes by done.
  destruct (decide (c' = c)) as [<-|Hne].
  - rewrite Hqc in Hcov. rewrite foldl_app. simpl.
    destruct rq as [|v|ch]; simpl in Hex.
    + injection Hex as <- <- <-. by left.
    + destruct (sAdd (w_redis w) key v) as [r1 added] eqn:Ha. injection Hex as <- <- <-.
      pose proof (sMembers_sAdd (w_redis w) key key v) as Hm. rewrite Ha in Hm. simpl in Hm.
      rewrite decide_True in Hm by done. unfold key in Hm. rewrite Hm.
      destruct Hcov as [->|[[fs0 Hin]|Hsadd]]; [by left| |by right; right; apply Hpre].
      right; left. exists fs0. by apply Hload.
    + injection Hex as <- <- <-. simpl.
      destruct Hcov as [Heq|[[fs0 Hin]|Hsadd]]; [by left| |by right; right; apply Hpre].
      right; left. exists fs0. by apply Hload.
  - destruct (steady_other_subscribe w c s c' q rq fs rest Hst Hq Hr Hne) as [ch Hch].
    destruct (exec_req_effects _ _ _ _ _ _ _ Hex) as (_ & _ & Hside).
    pose proof (proj2 (Hside ch Hch)) as Hrm. unfold key in Hrm. rewrite Hrm.
    destruct Hcov as [Heq|[Hl|Hsadd]]; [by left|by right; left|by right; right; apply Hpre].
Qed.

End ServerStep.

Lemma server_step_steady_cover (w w' : World) (c s c' : conn) :
  steady w c s -> cover w c -> server_step w c' true = Some w' -> steady w' c s /\ cover w' c.
Proof.
  intros Hst Hcov Hstep. unfold server_step in Hstep.
  destruct (w_conns w !! c') as [q|] eqn:Hq; simpl in Hstep; [|done].
  destruct (cq_requests q) as [|[rq fs] rest] eqn:Hr; [done|].
  destruct (exec_req (w_redis w) (CACHE_KEY (w_cache w)) c' rq) as [[r' rp] ns] eqn:Hex.
  injection Hstep as <-.
  split; [exact (server_result_steady w c s c' q rq fs rest r' rp ns Hst Hq Hr Hex)
         | exact (server_result_cover w c s c' q rq fs rest r' rp ns Hst Hq Hr Hex Hcov)].
Qed.

(** ** Commands sent on the command connection *)

Lemma send_cmd_steady_cover (w : World) (c s : conn) (r : Req) (fs : list Frame) (o : Outcome) :
  steady w c s ->
  steady (send w (Some c) r fs o) c s /\ (cover w c -> cover (send w (Some c) r fs o) c) /\
  (r = RqSMembers -> load_pending (send w (Some c) r fs o) c).
Proof.
  intros (Ht & Hc & Hs & Hk & Hsub & Hdom & HT & Hother). unfold send.
  split; [|split; [intros Hcov|]].
  - unfold steady; simpl. do 5 (split; [done|]).
    split; [rewrite lookup_insert; by case_decide|]. split; [done|].
    intros x Hne. rewrite conn_of_insert. rewrite decide_False by done. by apply Hother.
  - unfold cover, eventual, load_pending, sadd_pending, mirror, remote in *; simpl.
    rewrite !conn_of_insert, decide_True by done. simpl.
    destruct Hcov as [H|[[fs0 H]|(x & ch & H)]]; [by left|..].
    + right; left. exists fs0. set_solver.
    + right; right. exists x, ch. rewrite conn_of_insert. case_decide; subst; [done|done].
  - intros ->. exists fs. rewrite conn_of_insert, decide_True by done. simpl. set_solver.
Qed.

(** ** Client steps *)

Lemma resume_apply (c : Cache) (rp : Reply) (fs : list Frame) :
  inMemoryCache (resume c rp).1 = apply_incoming (inMemoryCache c) (IReply rp fs).
Proof. by destruct rp as [| | |[]]. Qed.

Section ClientStep.
Context (w : World) (c s c' : conn) (q : ConnQ) (i : Incoming) (rest : list Incoming).
Hypothesis Hst : steady w c s.
Hypothesis Hq : w_conns w !! c' = Some q.
Hypothesis Hi : cq_incoming q = i :: rest.

(** The world once the head message of [c'] is taken off its queue. *)
Let w1 := set_conns w (<[c' := mkConnQ (cq_requests q) rest]> (w_conns w)).

Lemma client_pop_steady : steady w1 c s.
Proof.
  pose proof Hst as (Ht & Hc & Hs & Hk & Hsub & Hdom & HT & Hother).
  assert (Hqc : conn_of w c' = q) by (unfold conn_of; by rewrite Hq).
  unfold steady, w1; simpl. do 5 (split; [done|]).
  split; [rewrite lookup_insert; case_decide; [done|done]|]. split; [done|].
  intros x Hne. rewrite conn_of_insert. case_decide; [subst x|by apply Hother].
  destruct (Hother c' Hne) as [Hreq Hinc]. rewrite Hqc in Hreq, Hinc. split; [done|].
  intros rp fs0 H. apply (Hinc rp fs0). rewrite Hi. by apply list_elem_of_further.
Qed.

(** A message received on another connection than the command connection
    does not change the eventual mirror. *)
Lemma client_other_apply : c' <> c -> apply_incoming (mirror w) i = mirror w.
Proof.
  intros Hne. pose proof Hst as (_ & _ & _ & _ & _ & _ & _ & Hother).
  destruct i as [rp fs|ch msg]; [|done].
  destruct (Hother c' Hne) as [_ Hinc]. unfold conn_of in Hinc. rewrite Hq in Hinc.
  simpl in Hinc. rewrite Hi in Hinc.
  pose proof (Hinc rp fs (list_elem_of_here _ _)) as Hrp.
  by destruct rp as [m|v|ch0|[|v|ch0]].
Qed.

(** Receiving the head message moves it from the queue into the mirror. *)
Lemma client_pop_eventual :
  foldl apply_incoming (apply_incoming (mirror w) i) (cq_incoming (conn_of w1 c)) = eventual w c.
Proof.
  unfold eventual, w1. rewrite conn_of_insert. case_decide as Hx; simpl.
  - subst c'. unfold conn_of. rewrite Hq. simpl. by rewrite Hi.
  - by rewrite client_other_apply.
Qed.

Lemma client_pop_load : load_pending w c -> load_pending w1 c.
Proof.
  intros [fs0 H]. exists fs0. unfold w1. rewrite conn_of_insert.
  case_decide; subst; [|done]. unfold conn_of in H. by rewrite Hq in H.
Qed.

(** The ["sadd"] notifications other than the head are still queued. *)
Lemma client_pop_sadd : (forall ch, i <> IPush ch "sadd") -> sadd_pending w -> sadd_pending w1.
Proof.
  intros Hnot (x & ch & H). exists x, ch. unfold w1. rewrite conn_of_insert.
  case_decide; [subst x|done]. unfold conn_of in H. rewrite Hq in H. simpl in H. rewrite Hi in H.
  apply elem_of_cons in H as [<-|H]; [by destruct (Hnot ch)|done].
Qed.

(** The cover of [c] once the head message is received into a mirror
    [M]: the mirror [apply_incoming] computes. *)
Lemma client_pop_cover (cache' : Cache) :
  inMemoryCache cache' = apply_incoming (mirror w) i -> CACHE_KEY cache' = CACHE_KEY (w_cache w) ->
  (forall ch, i <> IPush ch "sadd") -> cover w c -> cover (set_cache w1 cache') c.
Proof.
  intros Hm Hk Hnot [H|[H|H]].
  - left. unfold eventual, mirror, remote in *. simpl. rewrite Hm, Hk.
    change (conn_of (set_cache w1 cache')) with (conn_of w1).
    pose proof client_pop_eventual as E. unfold eventual, mirror in E. by rewrite E.
  - right; left. exact (client_pop_load H).
  - right; right. exact (client_pop_sadd Hnot H).
Qed.

Lemma client_reply_steady_cover (rp : Reply) (fs : list Frame) :
  i = IReply rp fs -> cover w c ->
  let '(cache', o) := resume (w_cache w) rp in
  steady (unwind (set_cache w1 cache') o fs) c s /\ cover (unwind (set_cache w1 cache') o fs) c.
Proof.
  intros Hieq Hcov. destruct (resume (w_cache w) rp) as [cache' o] eqn:Hr.
  pose proof (resume_key (w_cache w) rp) as (Hk1 & Hc1 & Hs1). rewrite Hr in Hk1, Hc1, Hs1.
  pose proof (resume_apply (w_cache w) rp fs) as Hm1. rewrite Hr in Hm1. simpl in Hk1, Hc1, Hs1, Hm1.
  assert (Hst2 : steady (set_cache w1 cache') c s).
  { destruct client_pop_steady as (Ht' & Hc' & Hs' & Hk'' & Hsub' & Hdom' & HT' & Hother').
    unfold steady; simpl. rewrite Hc1, Hs1. unfold keyspaceChannel. rewrite Hk1. done. }
  assert (Hcov2 : cover (set_cache w1 cache') c).
  { apply client_pop_cover; [by rewrite Hieq|done| |done]. intros ch0. by rewrite Hieq. }
  split; [eapply frame_effects_steady | eapply frame_effects_cover];
    try apply unwind_frame_effects; done.
Qed.

Lemma client_push_steady_cover (ch msg : string) :
  i = IPush ch msg -> cover w c -> steady (listener w1 msg) c s /\ cover (listener w1 msg) c.
Proof.
  intros Hi' Hcov. unfold listener. case_decide as Hmsg.
  - unfold updateInMemoryCache. pose proof Hst as (_ & Hc & _).
    replace (redisCommand (w_cache w1)) with (Some c) by done.
    destruct (send_cmd_steady_cover w1 c s RqSMembers [KCatch] Err client_pop_steady) as (H1 & _ & H3).
    split; [done|]. right; left. by apply H3.
  - split; [exact client_pop_steady|].
    assert (Hcov1 : cover (set_cache w1 (w_cache w)) c).
    { apply client_pop_cover; [by subst i|done| |done]. intros ch0 Heq. rewrite Hi' in Heq.
      injection Heq as _ Heq. by apply Hmsg. }
    exact Hcov1.
Qed.

End ClientStep.

Lemma client_step_steady_cover (w w' : World) (c s c' : conn) :
  steady w c s -> cover w c -> client_step w c' = Some w' -> steady w' c s /\ cover w' c.
Proof.
  intros Hst Hcov Hstep. unfold client_step in Hstep.
  destruct (w_conns w !! c') as [q|] eqn:Hq; simpl in Hstep; [|done].
  destruct (cq_incoming q) as [|i rest] eqn:Hi; [done|]. injection Hstep as <-.
  destruct i as [rp fs|ch msg].
  - pose proof (client_reply_steady_cover w c s c' q _ rest Hst Hq Hi rp fs eq_refl Hcov) as H.
    simpl in H. by destruct (resume (w_cache w) rp).
  - exact (client_push_steady_cover w c s c' q _ rest Hst Hq Hi ch msg eq_refl Hcov).
Qed.

(** ** Notifications and the other steps *)

Lemma publish_steady (w : World) (r : RedisServer) (ns : list (conn * string * string)) (c s : conn) :
  steady w c s -> rs_keyspace r = rs_keyspace (w_redis w) -> rs_subs r = rs_subs (w_redis w) ->
  steady (publish (set_redis w r) ns) c s.
Proof.
  intros (Ht & Hc & Hs & Hk & Hsub & Hdom & HT & Hother) Hk' Hs'.
  unfold steady, publish; simpl. rewrite Hk', Hs'. do 5 (split; [done|]).
  split; [by apply push_all_dom|]. split; [done|].
  intros x Hne. destruct (Hother x Hne) as [Hreq Hinc]. unfold conn_of; simpl. split.
  - rewrite push_all_requests. apply Hreq.
  - destruct (push_all_incoming_app (w_conns w) ns x) as (extra & -> & Hx).
    intros rp fs [H|H]%elem_of_app; [by apply (Hinc rp fs)|].
    by destruct (Hx _ H) as (? & ? & ?).
Qed.

Lemma publish_cover (w : World) (r : RedisServer) (ns : list (conn * string * string)) (c : conn) :
  sMembers r (CACHE_KEY (w_cache w)) = remote w -> cover w c ->
  cover (publish (set_redis w r) ns) c.
Proof.
  intros HR Hcov.
  assert (Hx : forall x, exists extra,
    cq_incoming (conn_of (publish (set_redis w r) ns) x) = (cq_incoming (conn_of w x) ++ extra)%list /\
    forall i, i ∈ extra -> exists ch ev, i = IPush ch ev).
  { intros x. apply (push_all_incoming_app (w_conns w) ns x). }
  destruct Hcov as [H|[[fs H]|H]].
  - left. unfold eventual, remote, mirror in *. simpl. rewrite HR, <- H.
    destruct (Hx c) as (extra & -> & Hp). by rewrite foldl_app, foldl_apply_pushes.
  - right; left. exists fs. unfold conn_of; simpl. by rewrite push_all_requests.
  - right; right. revert H. apply incoming_prefix_sadd. intros x.
    destruct (Hx x) as (extra & -> & _). eauto.
Qed.

Lemma ext_sadd_steady_cover (w : World) (k v : string) (c s : conn) :
  steady w c s -> cover w c -> steady (ext_sadd w k v) c s /\ cover (ext_sadd w k v) c.
Proof.
  intros Hst Hcov. pose proof Hst as (Ht & Hc & Hs & Hk & Hsub & Hdom & HT & Hother).
  unfold ext_sadd.
  pose proof (sAdd_keyspace (w_redis w) k v) as [Hk1 Hs1].
  pose proof (sMembers_sAdd (w_redis w) k (CACHE_KEY (w_cache w)) v) as Hm.
  pose proof (sAdd_added (w_redis w) k v) as Had.
  destruct (sAdd (w_redis w) k v) as [r' added] eqn:Ha. cbn [fst snd] in Hk1, Hs1, Hm, Had.
  split; [by apply publish_steady|].
  destruct (decide (k = CACHE_KEY (w_cache w))) as [->|Hne].
  - destruct added.
    + (* a new member: the subscriber connection receives "sadd" *)
      right; right. exists s, (keyspaceChannel (w_cache w)).
      unfold conn_of, publish; simpl. destruct Hdom as [qs Hqs].
      apply push_all_delivers; [|by eexists].
      unfold keyspace_notifications. rewrite Hk1, Hk, Hs1.
      apply list_elem_of_fmap. exists (s, keyspaceChannel (w_cache w)). split; [done|].
      apply list_elem_of_filter. split; [apply keyspaceChannel_server | done].
    + apply publish_cover; [|done]. unfold remote. rewrite Hm.
      assert (v ∈ sMembers (w_redis w) (CACHE_KEY (w_cache w))).
      { destruct (decide (v ∈ sMembers (w_redis w) (CACHE_KEY (w_cache w)))); [done|].
        by apply Had in n. }
      set_solver.
  - by apply publish_cover.
Qed.

Lemma set_tasks_steady_cover (w : World) (i : nat) (c s : conn) :
  steady w c s -> cover w c ->
  steady (set_tasks w (delete i (w_tasks w))) c s /\ cover (set_tasks w (delete i (w_tasks w))) c.
Proof.
  intros (Ht & Hc & Hs & Hk & Hsub & Hdom & HT & Hother) Hcov. split; [|done].
  unfold steady; simpl. do 6 (split; [done|]). split; [|done].
  intros t Htw. apply HT. by apply list_elem_of_delete_inv in Htw.
Qed.

Lemma fresh_id_frame_effects (w : World) : frame_effects w (fresh_id w).
Proof. repeat split; auto. Qed.

(** ** Every step keeps the instance steady and covered *)

Lemma step_steady_cover (w w' : World) (a : Action) (c s : conn) :
  steady w c s -> cover w c -> no_fail a -> step w a = Some w' -> steady w' c s /\ cover w' c.
Proof.
  intros Hst Hcov Hnf Hs. destruct a; simpl in Hs, Hnf.
  - destruct ok; [eauto using server_step_steady_cover | done].
  - eauto using client_step_steady_cover.
  - destruct ok; [|done]. unfold task_step in Hs.
    destruct (w_tasks w !! i) as [[p fs]|] eqn:Ht; simpl in Hs; [|done]. injection Hs as <-.
    destruct (set_tasks_steady_cover w i c s Hst Hcov) as [Hst1 Hcov1].
    destruct p as [|o].
    + exfalso. destruct Hst as (_ & _ & _ & _ & _ & _ & HT & _).
      apply (HT (PConnect, fs)); [by eapply list_elem_of_lookup_2 | done].
    + split; [eapply frame_effects_steady | eapply frame_effects_cover];
        try apply unwind_frame_effects; done.
  - injection Hs as <-. by apply ext_sadd_steady_cover.
  - unfold ext_event in Hs. case_decide; [done|]. injection Hs as <-.
    rewrite publish_set_redis_id. split; [by apply publish_steady | by apply publish_cover].
  - injection Hs as <-. pose proof Hst as (_ & Hc & _).
    unfold bulkCheck. simpl. rewrite Hc.
    assert (Hfe : frame_effects w (settle (fresh_id w) (w_next_id w)
                     (Ok (VSet (bulkCheck_result (inMemoryCache (w_cache w)) addresses))))).
    { eapply frame_effects_trans; [apply fresh_id_frame_effects | apply settle_frame_effects]. }
    split; [eapply frame_effects_steady | eapply frame_effects_cover]; done.
  - injection Hs as <-. pose proof Hst as (_ & Hc & _).
    assert (Hst1 : steady (fresh_id w) c s) by (eapply frame_effects_steady; [done | apply fresh_id_frame_effects]).
    assert (Hcov1 : cover (fresh_id w) c) by (eapply frame_effects_cover; [done | apply fresh_id_frame_effects]).
    unfold callAddPool, addPool. change (redisCommand (w_cache (fresh_id w))) with (redisCommand (w_cache w)).
    rewrite Hc. destruct (send_cmd_steady_cover (fresh_id w) c s (RqSAdd (toLowerCase pool))
                            [KReturn (w_next_id w)] Err Hst1) as (H1 & H2 & _).
    split; [done | by apply H2].
Qed.

Lemma run_steady_cover (w w' : World) (acts : list Action) (c s : conn) :
  Forall no_fail acts -> steady w c s -> cover w c -> w -[ acts ]-> w' ->
  steady w' c s /\ cover w' c.
Proof.
  revert w. induction acts as [|a acts IH]; intros w Hnf Hst Hcov Hrun.
  - by injection Hrun as <-.
  - apply run_cons in Hrun as (w1 & Hs & Hrun). apply Forall_cons in Hnf as [Ha Hnf].
    destruct (step_steady_cover w w1 a c s Hst Hcov Ha Hs). eauto.
Qed.

Lemma ready_steady_cover (w : World) :
  ready w -> exists c s, steady w c s /\ cover w c.
Proof.
  intros (c & s & Hc & Hs & Hdom & Hsub & Hk & Ht & Hq & Hm). exists c, s. split.
  - unfold steady. do 3 (split; [done|]). split; [done|].
    split; [by apply bool_decide_eq_true in Hsub|]. split; [done|].
    split; [intros t Htw; rewrite (quiescent_tasks w Hq) in Htw; by apply not_elem_of_nil in Htw|].
    intros x _. destruct (quiescent_conn_of w x Hq) as [Hr Hi]. unfold sub_traffic.
    rewrite Hr, Hi. split; intros ?? H; by apply not_elem_of_nil in H.
  - left. unfold eventual. by rewrite (proj2 (quiescent_conn_of w c Hq)).
Qed.

Lemma quiescent_cover (w : World) (c : conn) :
  quiescent w = true -> cover w c -> mirror w = remote w.
Proof.
  intros Hq [H|[[fs H]|(x & ch & H)]].
  - unfold eventual in H. by rewrite (proj2 (quiescent_conn_of w c Hq)) in H.
  - rewrite (proj1 (quiescent_conn_of w c Hq)) in H. by apply not_elem_of_nil in H.
  - rewrite (proj2 (quiescent_conn_of w x Hq)) in H. by apply not_elem_of_nil in H.
Qed.

(** ** Convergence *)

(** C1: From a ready instance, whatever callers, other writers and
    unrelated notifications do, as long as no command fails, every later
    world with nothing in flight has a local mirror equal to the remote
    set: the mirror converges to the store. *)
Theorem ready_converges (w w' : World) (acts : list Action) :
  ready w -> Forall no_fail acts -> w -[ acts ]-> w' -> quiescent w' = true ->
  mirror w' = remote w'.
Proof.
  intros Hready Hnf Hrun Hq. destruct (ready_steady_cover w Hready) as (c & s & Hst & Hcov).
  destruct (run_steady_cover w w' acts c s Hnf Hst Hcov Hrun) as [_ Hcov'].
  by apply (quiescent_cover w' c).
Qed.

Lemma ready_converges_witness :
  ready spec_final /\ Forall no_fail converge_acts /\ spec_final -[ converge_acts ]-> converge_final /\
  quiescent converge_final = true /\ mirror converge_final = remote converge_final.
Proof.
  pose proof spec_final_ready as Hr.
  assert (Hnf : Forall no_fail converge_acts) by (repeat constructor).
  assert (E : spec_final -[ converge_acts ]-> converge_final) by (vm_compute; reflexivity).
  assert (Hq : quiescent converge_final = true) by (vm_compute; reflexivity).
  do 4 (split; [assumption|]).
  exact (ready_converges spec_final converge_final converge_acts Hr Hnf E Hq).
Defined.
