(* ===== verification/CacheTestMode.v ===== *)
(** * The cache in test mode

    With [NODE_ENV = "test"], [initialize] returns at once
    (src/utils/WalletCache.ts:37-39): no connection is ever opened, so
    [redisCommand] stays [undefined].  Every [updateInMemoryCache] and
    every [addPool] then throws a [TypeError] at [this.redisCommand!], and
    every [bulkCheck..] re-runs [initialize] and reads the empty mirror.
    This file proves the invariant [inert] of every world reachable in test
    mode: no connection, an empty mirror, and only [undefined], rejections
    and empty sets as answers.  The specification (section 4.1) says test
    mode leaves the mirror empty "letting callers inject state directly";
    through the class's operations no caller can. *)

From S2P Require Import Prelude Address RemoteStore MembershipCache CacheSpec Scenarios CacheInvariants.

Open Scope string_scope.

(** ** Definitions *)

(** What a call may settle with in test mode. *)
Definition test_outcome (o : Outcome) : Prop :=
  o = Ok VUnit \/ o = Err \/ o = Ok (VSet ∅).

(** A world of a test-mode instance: no connection ever opened, an empty
    mirror, every suspended task resumed by a settled promise. *)
Definition inert (w : World) : Prop :=
  w_test w = true /\ redisCommand (w_cache w) = None /\ redisSub (w_cache w) = None /\
  mirror w = ∅ /\ w_conns w = ∅ /\
  (forall t, t ∈ w_tasks w -> exists o, t.1 = PResolved o /\ test_outcome o) /\
  (forall x, x ∈ w_results w -> test_outcome (x.2)).

(** ** Lemmas *)

Lemma test_outcome_VUnit : test_outcome (Ok VUnit).
Proof. by left. Qed.

Lemma test_outcome_Err : test_outcome Err.
Proof. by right; left. Qed.

#[local] Hint Resolve test_outcome_VUnit test_outcome_Err : envio.

Lemma bulkCheck_result_empty (addresses : list string) : bulkCheck_result ∅ addresses = ∅.
Proof. apply set_eq. intros x. rewrite bulkCheck_result_elem. set_solver. Qed.

Lemma park_inert (w : World) (o : Outcome) (fs : list Frame) :
  inert w -> test_outcome o -> inert (park w (PResolved o) fs).
Proof.
  intros (? & ? & ? & ? & ? & Ht & Hr) Ho. repeat split; try done.
  intros t Hin. apply elem_of_app in Hin as [Hin | Hin]; [by apply Ht|].
  apply list_elem_of_singleton in Hin. subst t. eauto.
Qed.

Lemma settle_inert (w : World) (id : nat) (o : Outcome) :
  inert w -> test_outcome o -> inert (settle w id o).
Proof.
  intros (? & ? & ? & ? & ? & Ht & Hr) Ho. repeat split; try done.
  intros x Hin. apply elem_of_app in Hin as [Hin | Hin]; [by apply Hr|].
  apply list_elem_of_singleton in Hin. by subst x.
Qed.

(** Without a connection, a command parks its caller on a settled
    promise. *)
Lemma send_inert (w : World) (r : Req) (fs : list Frame) (o : Outcome) :
  inert w -> test_outcome o -> inert (send w None r fs o).
Proof. apply park_inert. Qed.

Lemma run_frame_inert (w : World) (f : Frame) (o : Outcome) (rest : list Frame) :
  inert w -> test_outcome o ->
  match run_frame w f o rest with
  | inl w' => inert w'
  | inr (w', o') => inert w' /\ test_outcome o'
  end.
Proof.
  intros Hw Ho. pose proof Hw as (_ & _ & Hsub & Hm & _).
  destruct f, o as [v|]; simpl; auto with envio.
  - unfold subscribeToSetOperations. rewrite Hsub. auto using send_inert with envio.
  - unfold mirror in Hm. rewrite Hm, bulkCheck_result_empty. split; [done | by right; right].
  - split; [by apply settle_inert | done].
  - split; [by apply settle_inert | done].
Qed.

Lemma unwind_inert (w : World) (o : Outcome) (fs : list Frame) :
  inert w -> test_outcome o -> inert (unwind w o fs).
Proof.
  revert w o. induction fs as [|f rest IH]; intros w o Hw Ho; simpl; [done|].
  pose proof (run_frame_inert w f o rest Hw Ho) as Hf.
  destruct (run_frame w f o rest) as [w'|[w' o']]; [done|]. destruct Hf. by apply IH.
Qed.

Lemma initialize_inert (w : World) (fs : list Frame) : inert w -> inert (initialize w fs).
Proof.
  intros Hw. pose proof Hw as (Htest & _). unfold initialize. rewrite Htest.
  auto using park_inert with envio.
Qed.

Lemma push_all_empty (ns : list (conn * string * string)) : push_all ∅ ns = ∅.
Proof.
  unfold push_all. induction ns as [|[[c ch] ev] ns IH]; simpl; [done|].
  by rewrite lookup_empty.
Qed.

Lemma publish_inert (w : World) (r : RedisServer) (ns : list (conn * string * string)) :
  inert w -> inert (publish (set_redis w r) ns).
Proof.
  intros (? & ? & ? & ? & Hc & ? & ?). unfold publish. simpl. rewrite Hc, push_all_empty.
  by repeat split.
Qed.

Lemma fresh_id_inert (w : World) : inert w -> inert (fresh_id w).
Proof. done. Qed.

Lemma step_inert (w w' : World) (a : Action) : inert w -> step w a = Some w' -> inert w'.
Proof.
  intros Hw Hs. pose proof Hw as (_ & Hcmd & _ & _ & Hc & Ht & _).
  destruct a; simpl in Hs.
  - unfold server_step in Hs. by rewrite Hc, lookup_empty in Hs.
  - unfold client_step in Hs. by rewrite Hc, lookup_empty in Hs.
  - unfold task_step in Hs. destruct (w_tasks w !! i) as [t|] eqn:Hti; simpl in Hs; [|done].
    injection Hs as <-.
    destruct (Ht t (list_elem_of_lookup_2 _ _ _ Hti)) as (o & Hp & Ho). rewrite Hp.
    apply unwind_inert; [|done].
    destruct Hw as (? & ? & ? & ? & ? & _ & ?). repeat split; try done.
    intros t' Hin. apply Ht. by apply list_elem_of_delete_inv in Hin.
  - injection Hs as <-. unfold ext_sadd. destruct (sAdd (w_redis w) k v). by apply publish_inert.
  - unfold ext_event in Hs. case_decide; [done|]. injection Hs as <-.
    rewrite <- (set_redis_id w). by apply publish_inert.
  - injection Hs as <-. unfold bulkCheck. simpl. rewrite Hcmd.
    by apply initialize_inert, fresh_id_inert.
  - injection Hs as <-. unfold callAddPool, addPool. simpl. rewrite Hcmd.
    auto using send_inert, fresh_id_inert with envio.
Qed.

Lemma new_cache_inert (key : string) (r : RedisServer) : inert (new_cache true key r).
Proof.
  unfold new_cache, initialize. simpl. repeat split; try done.
  - intros t Hin. apply list_elem_of_singleton in Hin. subst t. eauto with envio.
  - intros x Hin. by apply not_elem_of_nil in Hin.
Qed.

Lemma run_inert (w w' : World) (acts : list Action) : inert w -> w -[ acts ]-> w' -> inert w'.
Proof. apply run_invariant. intros s a s'. apply step_inert. Qed.

(** ** Properties *)

(** C16: In test mode an instance never opens a connection, its mirror
    stays empty whatever the callers do, and every call settles with
    [undefined], a rejection or the empty set: no query ever reports a
    member. *)
Theorem test_mode_inert (key : string) (r : RedisServer) (w : World) :
  reachable true key r w ->
  w_conns w = ∅ /\ mirror w = ∅ /\ forall x, x ∈ w_results w -> test_outcome (x.2).
Proof.
  intros [acts Hrun]. destruct (run_inert _ _ _ (new_cache_inert key r) Hrun) as (_&_&_&?&?&_&?).
  done.
Qed.

(** C17: In test mode [addPool] does not add the pool: [this.redisCommand!]
    throws, the call is parked on a rejected promise, its one step settles
    it with a rejection, and the mirror still lacks the pool: the
    instance stays [inert]. *)
Theorem addPool_rejects_in_test_mode (key : string) (r : RedisServer) (w : World)
    (pool : string) :
  reachable true key r w ->
  step (callAddPool w pool) (ATask (List.length (w_tasks w)) true) =
    Some (settle (fresh_id w) (w_next_id w) Err) /\
  toLowerCase pool ∉ mirror (callAddPool w pool) /\ inert (callAddPool w pool).
Proof.
  intros [acts Hrun]. pose proof (run_inert _ _ _ (new_cache_inert key r) Hrun) as Hw.
  assert (Hw' : inert (callAddPool w pool)) by exact (step_inert w _ (AAddPool pool) Hw eq_refl).
  destruct Hw as (_ & Hcmd & _ & Hm & _). pose proof Hw' as (_ & _ & _ & Hm' & _).
  split; [|split; [rewrite Hm'; set_solver | exact Hw']].
  unfold callAddPool, addPool. simpl. rewrite Hcmd.
  simpl. unfold task_step. simpl. rewrite lookup_snoc. simpl.
  by rewrite delete_snoc.
Qed.

(** The test-mode pool cache on a schedule where a pool is added, a query
    is made and every parked task resumes. *)
Lemma test_mode_inert_witness :
  reachable true "syncswap:pools" store0 (default (syncswapCache true store0)
    (run (syncswapCache true store0)
       [AAddPool "0xBBB"; ABulkCheck ["0xaaa"]; ATask 0 true; ATask 0 true; ATask 0 true])) /\
  mirror (default (syncswapCache true store0)
    (run (syncswapCache true store0)
       [AAddPool "0xBBB"; ABulkCheck ["0xaaa"]; ATask 0 true; ATask 0 true; ATask 0 true])) = ∅.
Proof.
  assert (R : reachable true "syncswap:pools" store0 (default (syncswapCache true store0)
    (run (syncswapCache true store0)
       [AAddPool "0xBBB"; ABulkCheck ["0xaaa"]; ATask 0 true; ATask 0 true; ATask 0 true])))
    by (exists [AAddPool "0xBBB"; ABulkCheck ["0xaaa"]; ATask 0 true; ATask 0 true; ATask 0 true];
        vm_compute; reflexivity).
  split; [exact R | exact (proj1 (proj2 (test_mode_inert _ _ _ R)))].
Defined.

Lemma addPool_rejects_in_test_mode_witness :
  reachable true "syncswap:pools" store0 (syncswapCache true store0) /\
  step (callAddPool (syncswapCache true store0) "0xBBB") (ATask 1 true) =
    Some (settle (fresh_id (syncswapCache true store0)) 0 Err).
Proof.
  assert (R : reachable true "syncswap:pools" store0 (syncswapCache true store0))
    by (exists []; reflexivity).
  split; [exact R | exact (proj1 (addPool_rejects_in_test_mode _ _ _ "0xBBB" R))].
Defined.
