(* ===== verification/CacheOperations.v ===== *)
(** * The operations of a ready instance

    Once an instance is [ready] (connected, subscribed, nothing in flight,
    the mirror equal to the store), its two public operations do what the
    specification (section 4.1) says: [bulkCheck..] settles at once with
    the reference answer computed on the store itself, and [addPool] writes
    the lower-cased pool to the store and, when its reply is received,
    adds it to the mirror ahead of the notification, keeping the two
    equal. *)

From S2P Require Import Prelude Address RemoteStore MembershipCache CacheSpec Scenarios CacheInvariants CacheConvergence.

Open Scope string_scope.

(** ** Definitions *)

(** What the specification requires a query to answer: the lower-cased
    inputs that are members of the remote set. *)
Definition spec_answer (w : World) (addresses : list string) : Outcome :=
  Ok (VSet (bulkCheck_reference (remote w) addresses)).

(** The nominal schedule of an [addPool] call: the call, the server
    executing its [SADD] on the command connection [c], and the client
    receiving the reply. *)
Definition addPool_schedule (c : conn) (pool : string) : list Action :=
  [AAddPool pool; AServer c true; AClient c].

(** ** Lemmas *)

Lemma ready_cmd_idle (w : World) (c : conn) :
  ready w -> redisCommand (w_cache w) = Some c -> conn_of w c = empty_connq.
Proof.
  intros (c' & s & Hc & _ & _ & _ & _ & _ & Hq & _) _.
  destruct (quiescent_conn_of w c Hq) as [Hr Hi]. destruct (conn_of w c); simpl in *. by subst.
Qed.

(** After [addPool] on an idle command connection, the [SADD] is the one
    queued command. *)
Lemma callAddPool_conns (w : World) (c : conn) (pool : string) :
  redisCommand (w_cache w) = Some c -> conn_of w c = empty_connq ->
  w_conns (callAddPool w pool) !! c =
    Some (mkConnQ [(RqSAdd (toLowerCase pool), [KReturn (w_next_id w)])] []).
Proof.
  intros Hc Hq. unfold callAddPool, addPool. simpl. rewrite Hc. simpl.
  unfold conn_of in *. simpl. rewrite lookup_insert_eq. by rewrite Hq.
Qed.

(** The server executes a [SADD] queued alone: the reply heads the
    connection's incoming queue, the notifications follow it. *)
Lemma server_sadd (w : World) (c : conn) (v : string) (fs : list Frame) :
  w_conns w !! c = Some (mkConnQ [(RqSAdd v, fs)] []) ->
  exists w', server_step w c true = Some w' /\
    w_cache w' = w_cache w /\ w_results w' = w_results w /\
    w_redis w' = (sAdd (w_redis w) (CACHE_KEY (w_cache w)) v).1 /\
    exists q extra, w_conns w' !! c = Some q /\ cq_incoming q = IReply (RpAdded v) fs :: extra.
Proof.
  intros Hc. unfold server_step. rewrite Hc. simpl.
  destruct (sAdd (w_redis w) (CACHE_KEY (w_cache w)) v) as [r' added] eqn:Ha.
  eexists. split; [reflexivity|]. simpl. do 3 (split; [done|]).
  set (cs := <[c := mkConnQ [] ([] ++ [IReply (RpAdded v) fs])]> (w_conns w)).
  set (ns := if added then keyspace_notifications r' (CACHE_KEY (w_cache w)) "sadd" else []).
  destruct (push_all_dom cs ns c) as [q Hq]; [unfold cs; by rewrite lookup_insert_eq|].
  destruct (push_all_incoming_app cs ns c) as (extra & He & _).
  exists q, extra. split; [done|]. rewrite Hq in He. simpl in He. rewrite He.
  unfold cs. by rewrite lookup_insert_eq.
Qed.

(** ** Properties *)

(** C4: On a ready instance [bulkCheck..] settles at once, and its answer
    is the reference computed on the store: the lower-cased inputs that
    are members of the remote set. *)
Theorem bulkCheck_ready (w : World) (addresses : list string) :
  ready w ->
  step w (ABulkCheck addresses) =
    Some (settle (fresh_id w) (w_next_id w) (spec_answer w addresses)).
Proof.
  intros (c & s & Hc & _ & _ & _ & _ & _ & _ & Hm). simpl. unfold bulkCheck. simpl.
  rewrite Hc. unfold mirror in Hm. rewrite Hm. unfold spec_answer.
  replace (bulkCheck_result (remote w) addresses) with (bulkCheck_reference (remote w) addresses);
    [done|].
  apply set_eq. intros x. by rewrite bulkCheck_result_elem, bulkCheck_reference_elem.
Qed.

(** C5: On a ready instance [addPool] completes in three steps (the call,
    the server's [SADD], the client's receipt of the reply): the call
    settles with [undefined], the lower-cased pool is in the store and in
    the mirror, and the mirror still equals the store. *)
Theorem addPool_ready (w : World) (c : conn) (pool : string) :
  ready w -> redisCommand (w_cache w) = Some c ->
  exists w', w -[ addPool_schedule c pool ]-> w' /\
    (w_next_id w, Ok VUnit) ∈ w_results w' /\
    toLowerCase pool ∈ remote w' /\ mirror w' = remote w'.
Proof.
  intros Hr Hc. pose proof Hr as (c' & s & Hc' & _ & _ & _ & _ & _ & _ & Hm).
  pose proof (callAddPool_conns w c pool Hc (ready_cmd_idle w c Hr Hc)) as Hq1.
  destruct (server_sadd _ _ _ _ Hq1) as (w2 & Hs2 & Hcache & Hres & Hredis & q & extra & Hq & Hi).
  assert (Hs3 : step w2 (AClient c) =
    Some (unwind (set_cache (set_conns w2 (<[c := mkConnQ (cq_requests q) extra]> (w_conns w2)))
                    (fst (addPool_resume (w_cache w2) (RpAdded (toLowerCase pool)))))
                 (Ok VUnit) [KReturn (w_next_id w)])).
  { simpl. unfold client_step. rewrite Hq. destruct q as [rq inc]. simpl in Hi |- *. by rewrite Hi. }
  eexists. split.
  { apply run_cons. exists (callAddPool w pool). split; [done|].
    apply run_cons. exists w2. split; [exact Hs2|].
    apply run_cons. eexists. split; [exact Hs3 | apply run_nil]. }
  simpl. rewrite Hres. split; [set_solver|].
  destruct (callAddPool_benign w pool) as (_ & Hr1 & Hc1 & _).
  unfold remote, mirror in *. simpl. rewrite Hredis, Hcache, Hr1, Hc1.
  rewrite sMembers_sAdd, decide_True by done. split; [set_solver|]. by rewrite Hm.
Qed.

(** The ready pool cache at the end of the specification's scenario. *)
Lemma bulkCheck_ready_witness :
  ready spec_final /\
  step spec_final (ABulkCheck ["0xAAA"; "0xccc"]) =
    Some (settle (fresh_id spec_final) (w_next_id spec_final)
            (spec_answer spec_final ["0xAAA"; "0xccc"])).
Proof.
  pose proof spec_final_ready as Hr.
  split; [exact Hr | exact (bulkCheck_ready _ _ Hr)].
Defined.

Lemma addPool_ready_witness :
  ready spec_final /\ redisCommand (w_cache spec_final) = Some 0 /\
  exists w', spec_final -[ addPool_schedule 0 "0xDDD" ]-> w' /\
    (w_next_id spec_final, Ok VUnit) ∈ w_results w' /\
    toLowerCase "0xDDD" ∈ remote w' /\ mirror w' = remote w'.
Proof.
  pose proof spec_final_ready as Hr.
  assert (Hc : redisCommand (w_cache spec_final) = Some 0) by (vm_compute; reflexivity).
  split; [exact Hr|]. split; [exact Hc | exact (addPool_ready _ _ "0xDDD" Hr Hc)].
Defined.
