(* ===== verification/CacheTermination.v ===== *)
(** * The cache's own activity terminates

    Between two calls, a cache instance and the server only take internal
    steps: the server executes a queued command, the client receives a
    reply or a notification, a suspended task resumes.  Each of them can
    queue new work: a reply to the initial load sends the subscription
    ([initialize], src/utils/WalletCache.ts:71-72), an ["sadd"]
    notification sends a reload (lines 95-101), an [SADD] publishes one
    notification per subscription.  This file gives the internal activity
    a measure, [measure], that every internal step decreases
    ([internal_step_measure]), whatever the server's failures.  Hence every
    run of internal steps is bounded by the measure of its first world
    ([internal_run_bounded]), a world where nothing is in flight is always
    reachable by internal steps ([quiescence_reachable]), and a ready
    instance converges whatever the callers and other writers do
    ([ready_eventually_converges]), which completes [ready_converges].

    The measure counts what every queued item still owes: two steps for a
    command, one for a message, the subscription round a [KInitLoaded]
    frame will send, the reload an ["sadd"] notification will send, the
    load a connection attempt will send, and for an [SADD] the
    notifications it will publish, at most one per subscription the
    server will ever hold ([subs_bound]). *)

From S2P Require Import Prelude Address RemoteStore MembershipCache CacheSpec Scenarios CacheInvariants CacheRaces CacheConvergence.

Open Scope string_scope.

(** ** Definitions *)

(** The subscription round each [KInitLoaded] frame of a stack will
    send. *)
Fixpoint frames_cost (fs : list Frame) : nat :=
  match fs with
  | [] => 0
  | KInitLoaded :: fs' => 2 + frames_cost fs'
  | _ :: fs' => frames_cost fs'
  end.

Fixpoint frames_subs (fs : list Frame) : nat :=
  match fs with
  | [] => 0
  | KInitLoaded :: fs' => S (frames_subs fs')
  | _ :: fs' => frames_subs fs'
  end.

(** The subscriptions a queued item may still register. *)
Definition is_subscribe (r : Req) : nat := match r with RqSubscribe _ => 1 | _ => 0 end.
Definition req_subs (x : Req * list Frame) : nat := is_subscribe x.1 + frames_subs x.2.
Definition inc_subs (i : Incoming) : nat :=
  match i with IReply _ fs => frames_subs fs | IPush _ _ => 0 end.
Definition task_subs (t : Pending * list Frame) : nat :=
  (match t.1 with PConnect => 1 | PResolved _ => 0 end) + frames_subs t.2.
Definition connq_subs (q : ConnQ) : nat :=
  sum_list_with req_subs (cq_requests q) + sum_list_with inc_subs (cq_incoming q).

(** The subscriptions the server holds or may still be asked for. *)
Definition subs_bound (w : World) : nat :=
  List.length (rs_subs (w_redis w)) + map_sum connq_subs (w_conns w) + sum_list_with task_subs (w_tasks w).

(** What each queued item still owes, [S] bounding the subscriptions. *)
Definition sadd_weight (S : nat) (r : Req) : nat := match r with RqSAdd _ => 3 * S | _ => 0 end.
Definition req_cost (S : nat) (x : Req * list Frame) : nat := 2 + frames_cost x.2 + sadd_weight S x.1.
Definition inc_cost (i : Incoming) : nat :=
  match i with
  | IReply _ fs => 1 + frames_cost fs
  | IPush _ msg => if decide (msg = "sadd") then 3 else 1
  end.
Definition task_cost (t : Pending * list Frame) : nat :=
  (match t.1 with PConnect => 5 | PResolved _ => 1 end) + frames_cost t.2.
Definition connq_cost (S : nat) (q : ConnQ) : nat :=
  sum_list_with (req_cost S) (cq_requests q) + sum_list_with inc_cost (cq_incoming q).

Definition world_cost (S : nat) (w : World) : nat :=
  map_sum (connq_cost S) (w_conns w) + sum_list_with task_cost (w_tasks w).

Definition measure (w : World) : nat := world_cost (subs_bound w) w.

(** ** How the operations change the measure *)

(** The sum over the connections after the queue of [c] is replaced. *)
Lemma map_sum_conn (f : ConnQ -> nat) (w : World) (c : conn) (q : ConnQ) :
  f empty_connq = 0 ->
  map_sum f (<[c := q]> (w_conns w)) + f (conn_of w c) = map_sum f (w_conns w) + f q.
Proof.
  intros H0. rewrite <- (map_sum_insert f (w_conns w) c q). unfold conn_of.
  destruct (w_conns w !! c); simpl; [done | rewrite H0; lia].
Qed.

Lemma park_cost (S : nat) (w : World) (p : Pending) (fs : list Frame) :
  world_cost S (park w p fs) = world_cost S w + task_cost (p, fs) /\
  subs_bound (park w p fs) = subs_bound w + task_subs (p, fs).
Proof.
  unfold world_cost, subs_bound, park; cbn [w_tasks w_conns w_redis set_tasks].
  rewrite !sum_list_with_app. cbn [sum_list_with]. lia.
Qed.

Lemma connq_cost_snoc (S : nat) (q : ConnQ) (x : Req * list Frame) :
  connq_cost S (mkConnQ (cq_requests q ++ [x]) (cq_incoming q)) = connq_cost S q + req_cost S x /\
  connq_subs (mkConnQ (cq_requests q ++ [x]) (cq_incoming q)) = connq_subs q + req_subs x.
Proof.
  unfold connq_cost, connq_subs; cbn [cq_requests cq_incoming].
  rewrite !sum_list_with_app. cbn [sum_list_with]. lia.
Qed.

(** A command costs what its request does, queued or parked. *)
Lemma send_cost (S : nat) (w : World) (oc : option conn) (r : Req) (fs : list Frame) (o : Outcome) :
  world_cost S (send w oc r fs o) <= world_cost S w + req_cost S (r, fs) /\
  subs_bound (send w oc r fs o) <= subs_bound w + req_subs (r, fs).
Proof.
  destruct oc as [c|]; simpl.
  - destruct (connq_cost_snoc S (conn_of w c) (r, fs)) as [E1 E2].
    set (q' := mkConnQ (cq_requests (conn_of w c) ++ [(r, fs)]) (cq_incoming (conn_of w c))) in *.
    pose proof (map_sum_conn (connq_cost S) w c q' eq_refl) as F1.
    pose proof (map_sum_conn connq_subs w c q' eq_refl) as F2.
    rewrite E1 in F1. rewrite E2 in F2.
    unfold world_cost, subs_bound; simpl. lia.
  - destruct (park_cost S w (PResolved o) fs) as [-> ->].
    unfold task_cost, task_subs, req_cost, req_subs; simpl. lia.
Qed.

Lemma unwind_cost (S : nat) (w : World) (o : Outcome) (fs : list Frame) :
  world_cost S (unwind w o fs) <= world_cost S w + frames_cost fs /\
  subs_bound (unwind w o fs) <= subs_bound w + frames_subs fs.
Proof.
  revert w o. induction fs as [|f rest IH]; intros w o; simpl; [lia|].
  destruct f, o as [v|]; simpl;
    try (match goal with |- context [unwind w ?o' rest] => destruct (IH w o'); split; lia end);
    try (match goal with |- context [unwind (settle w ?i ?o') _ _] =>
           destruct (IH (settle w i o') o'); unfold world_cost, subs_bound in *; simpl in *;
           split; lia end).
  unfold subscribeToSetOperations.
  destruct (send_cost S w (redisSub (w_cache w)) (RqSubscribe (keyspaceChannel (w_cache w)))
              (KInitSubscribed :: rest) (Ok VUnit)) as [H1 H2].
  unfold req_cost, req_subs in *; simpl in *. split; lia.
Qed.

(** Notifications: at most three steps each, no subscription. *)
Lemma push_all_cost (S : nat) (cs : gmap conn ConnQ) (ns : list (conn * string * string)) :
  map_sum (connq_cost S) (push_all cs ns) <= map_sum (connq_cost S) cs + 3 * List.length ns /\
  map_sum connq_subs (push_all cs ns) = map_sum connq_subs cs.
Proof.
  unfold push_all. revert cs. induction ns as [|[[c ch] ev] ns IH]; intros cs; simpl; [lia|].
  destruct (cs !! c) as [q|] eqn:Hq; [|destruct (IH cs); lia].
  set (q' := mkConnQ (cq_requests q) (cq_incoming q ++ [IPush ch ev])).
  destruct (IH (<[c := q']> cs)) as [H1 H2].
  pose proof (map_sum_insert (connq_cost S) cs c q') as E1.
  pose proof (map_sum_insert connq_subs cs c q') as E2. rewrite Hq in E1, E2. simpl in E1, E2.
  assert (Hc : connq_cost S q' <= connq_cost S q + 3 /\ connq_subs q' = connq_subs q).
  { unfold connq_cost, connq_subs, q'; cbn [cq_requests cq_incoming].
    rewrite !sum_list_with_app. cbn [sum_list_with inc_cost inc_subs]. case_decide; lia. }
  split; lia.
Qed.

Lemma keyspace_notifications_length (r : RedisServer) (k ev : string) :
  List.length (keyspace_notifications r k ev) <= List.length (rs_subs r).
Proof.
  unfold keyspace_notifications. destruct (rs_keyspace r); simpl; [|lia].
  rewrite length_fmap. apply length_filter.
Qed.

(** The server's part of a command: a subscription adds one, an [SADD]
    notifies each subscription at most once. *)
Lemma exec_req_bound (r : RedisServer) (key : string) (c : conn) (rq : Req)
    (r' : RedisServer) (rp : Reply) (ns : list (conn * string * string)) :
  exec_req r key c rq = (r', rp, ns) ->
  List.length (rs_subs r') <= List.length (rs_subs r) + is_subscribe rq /\
  3 * List.length ns <= sadd_weight (List.length (rs_subs r)) rq.
Proof.
  destruct rq as [|v|ch]; simpl; intros Hex.
  - injection Hex as <- <- <-. simpl. lia.
  - destruct (sAdd r key v) as [r1 added] eqn:Ha. injection Hex as <- <- <-.
    pose proof (sAdd_keyspace r key v) as [_ Hs1]. rewrite Ha in Hs1. simpl in Hs1. rewrite Hs1.
    split; [lia|]. destruct added; simpl; [|lia].
    pose proof (keyspace_notifications_length r1 key "sadd"). rewrite Hs1 in *. lia.
  - injection Hex as <- <- <-. simpl. lia.
Qed.

Lemma world_cost_mono (S S' : nat) (w : World) : S <= S' -> world_cost S w <= world_cost S' w.
Proof.
  intros HS. unfold world_cost. apply Nat.add_le_mono_r, map_sum_le. intros q.
  unfold connq_cost. apply Nat.add_le_mono_r, sum_list_with_le. intros [r fs].
  unfold req_cost, sadd_weight. destruct r; simpl; lia.
Qed.


Lemma sadd_weight_mono (S S' : nat) (r : Req) : S <= S' -> sadd_weight S r <= sadd_weight S' r.
Proof. destruct r; simpl; lia. Qed.

(** ** Every internal step decreases the measure *)

Lemma server_step_measure (w w' : World) (c : conn) (ok : bool) :
  server_step w c ok = Some w' ->
  subs_bound w' <= subs_bound w /\ world_cost (subs_bound w) w' < world_cost (subs_bound w) w.
Proof.
  intros Hs. unfold server_step in Hs.
  destruct (w_conns w !! c) as [q|] eqn:Hq; simpl in Hs; [|done].
  destruct (cq_requests q) as [|[rq fs] rest] eqn:Hr; [done|].
  set (S := subs_bound w).
  destruct (if ok then exec_req (w_redis w) (CACHE_KEY (w_cache w)) c rq else (w_redis w, RpErr rq, []))
    as [[r' rp] ns] eqn:Hex.
  injection Hs as <-.
  assert (Hb : List.length (rs_subs r') <= List.length (rs_subs (w_redis w)) + is_subscribe rq /\
               3 * List.length ns <= sadd_weight (List.length (rs_subs (w_redis w))) rq).
  { destruct ok; [exact (exec_req_bound _ _ _ _ _ _ _ Hex) | injection Hex as <- <- <-; simpl; lia]. }
  assert (HS : List.length (rs_subs (w_redis w)) <= S) by (unfold S, subs_bound; lia).
  pose proof (sadd_weight_mono _ _ rq HS) as Hw.
  set (q1 := mkConnQ rest (cq_incoming q ++ [IReply rp fs])).
  assert (Hq1 : connq_cost S q1 + 1 + sadd_weight S rq = connq_cost S q /\
                connq_subs q1 + is_subscribe rq = connq_subs q).
  { unfold connq_cost, connq_subs, q1. cbn [cq_requests cq_incoming]. rewrite Hr.
    rewrite !sum_list_with_app. cbn [sum_list_with inc_cost inc_subs]. unfold req_cost, req_subs.
    simpl. lia. }
  pose proof (map_sum_insert (connq_cost S) (w_conns w) c q1) as E1.
  pose proof (map_sum_insert connq_subs (w_conns w) c q1) as E2. rewrite Hq in E1, E2. simpl in E1, E2.
  destruct (push_all_cost S (<[c:=q1]> (w_conns w)) ns) as [P1 P2].
  unfold world_cost, subs_bound in *; simpl. split; lia.
Qed.

(** Taking the head message of a connection off its queue. *)
Lemma pop_cost (S : nat) (w : World) (c : conn) (q : ConnQ) (i : Incoming) (rest : list Incoming) :
  w_conns w !! c = Some q -> cq_incoming q = i :: rest ->
  world_cost S (set_conns w (<[c := mkConnQ (cq_requests q) rest]> (w_conns w))) + inc_cost i =
    world_cost S w /\
  subs_bound (set_conns w (<[c := mkConnQ (cq_requests q) rest]> (w_conns w))) + inc_subs i =
    subs_bound w.
Proof.
  intros Hq Hi. set (q1 := mkConnQ (cq_requests q) rest).
  assert (Hq1 : connq_cost S q1 + inc_cost i = connq_cost S q /\ connq_subs q1 + inc_subs i = connq_subs q).
  { unfold connq_cost, connq_subs, q1. cbn [cq_requests cq_incoming]. rewrite Hi.
    cbn [sum_list_with]. lia. }
  pose proof (map_sum_insert (connq_cost S) (w_conns w) c q1) as E1.
  pose proof (map_sum_insert connq_subs (w_conns w) c q1) as E2. rewrite Hq in E1, E2. simpl in E1, E2.
  unfold world_cost, subs_bound in *; simpl. split; lia.
Qed.

Lemma client_step_measure (w w' : World) (c : conn) :
  client_step w c = Some w' ->
  subs_bound w' <= subs_bound w /\ world_cost (subs_bound w) w' < world_cost (subs_bound w) w.
Proof.
  intros Hs. unfold client_step in Hs.
  destruct (w_conns w !! c) as [q|] eqn:Hq; simpl in Hs; [|done].
  destruct (cq_incoming q) as [|i rest] eqn:Hi; [done|]. injection Hs as <-.
  set (S := subs_bound w).
  destruct (pop_cost S w c q i rest Hq Hi) as [E1 E2].
  set (w1 := set_conns w (<[c := mkConnQ (cq_requests q) rest]> (w_conns w))) in *.
  destruct i as [rp fs|ch msg]; simpl in E1, E2.
  - change (w_cache w1) with (w_cache w). destruct (resume (w_cache w) rp) as [cache' o].
    destruct (unwind_cost S (set_cache w1 cache') o fs) as [U1 U2].
    change (world_cost S (set_cache w1 cache')) with (world_cost S w1) in U1.
    change (subs_bound (set_cache w1 cache')) with (subs_bound w1) in U2. split; lia.
  - unfold listener. case_decide.
    + unfold updateInMemoryCache. change (w_cache w1) with (w_cache w).
      destruct (send_cost S w1 (redisCommand (w_cache w)) RqSMembers [KCatch] Err) as [U1 U2].
      unfold req_cost, req_subs in U1, U2; simpl in U1, U2. split; lia.
    + split; lia.
Qed.

(** Taking the [i]-th task off the pool. *)
Lemma task_pop_cost (S : nat) (w : World) (i : nat) (t : Pending * list Frame) :
  w_tasks w !! i = Some t ->
  world_cost S (set_tasks w (delete i (w_tasks w))) + task_cost t = world_cost S w /\
  subs_bound (set_tasks w (delete i (w_tasks w))) + task_subs t = subs_bound w.
Proof.
  intros Ht. pose proof (sum_list_with_delete task_cost _ i t Ht).
  pose proof (sum_list_with_delete task_subs _ i t Ht).
  unfold world_cost, subs_bound; simpl. split; lia.
Qed.

Lemma map_sum_insert_empty (f : ConnQ -> nat) (m : gmap conn ConnQ) (c : conn) :
  f empty_connq = 0 -> map_sum f (<[c := empty_connq]> m) <= map_sum f m.
Proof. intros H0. pose proof (map_sum_insert f m c empty_connq). lia. Qed.

(** Opening the two connections sends the initial load. *)
Lemma initialize_connected_cost (S : nat) (w : World) (fs : list Frame) :
  world_cost S (initialize_connected w fs) <= world_cost S w + 4 + frames_cost fs /\
  subs_bound (initialize_connected w fs) <= subs_bound w + 1 + frames_subs fs.
Proof.
  unfold initialize_connected. simpl.
  set (cs := <[Datatypes.S (rs_nconn (w_redis w)) := empty_connq]> (<[rs_nconn (w_redis w) := empty_connq]> (w_conns w))).
  match goal with |- context [updateInMemoryCache ?w2' _] => set (w2 := w2') end.
  assert (Hc : world_cost S w2 <= world_cost S w /\ subs_bound w2 <= subs_bound w).
  { unfold world_cost, subs_bound, w2, cs; simpl.
    pose proof (map_sum_insert_empty (connq_cost S) (<[rs_nconn (w_redis w) := empty_connq]> (w_conns w))
                  (Datatypes.S (rs_nconn (w_redis w))) eq_refl).
    pose proof (map_sum_insert_empty (connq_cost S) (w_conns w) (rs_nconn (w_redis w)) eq_refl).
    pose proof (map_sum_insert_empty connq_subs (<[rs_nconn (w_redis w) := empty_connq]> (w_conns w))
                  (Datatypes.S (rs_nconn (w_redis w))) eq_refl).
    pose proof (map_sum_insert_empty connq_subs (w_conns w) (rs_nconn (w_redis w)) eq_refl).
    split; lia. }
  unfold updateInMemoryCache.
  destruct (send_cost S w2 (redisCommand (w_cache w2)) RqSMembers (KInitLoaded :: fs) Err) as [U1 U2].
  unfold req_cost, req_subs in U1, U2.
  cbn [fst snd frames_cost frames_subs is_subscribe sadd_weight] in U1, U2. split; lia.
Qed.

Lemma task_step_measure (w w' : World) (i : nat) (ok : bool) :
  task_step w i ok = Some w' ->
  subs_bound w' <= subs_bound w /\ world_cost (subs_bound w) w' < world_cost (subs_bound w) w.
Proof.
  intros Hs. unfold task_step in Hs.
  destruct (w_tasks w !! i) as [[p fs]|] eqn:Ht; simpl in Hs; [|done]. injection Hs as <-.
  set (S := subs_bound w).
  destruct (task_pop_cost S w i (p, fs) Ht) as [E1 E2].
  set (w1 := set_tasks w (delete i (w_tasks w))) in *.
  unfold task_cost, task_subs in E1, E2. cbn [fst snd] in E1, E2.
  destruct p as [|o]; [destruct ok|].
  - destruct (initialize_connected_cost S w1 fs). split; lia.
  - destruct (unwind_cost S w1 Err fs). split; lia.
  - destruct (unwind_cost S w1 o fs). split; lia.
Qed.

Lemma internal_step_measure (w w' : World) (a : Action) :
  internal a = true -> step w a = Some w' -> measure w' < measure w.
Proof.
  intros Ha Hs. unfold measure.
  assert (H : subs_bound w' <= subs_bound w /\ world_cost (subs_bound w) w' < world_cost (subs_bound w) w).
  { destruct a; try discriminate Ha; simpl in Hs;
      [exact (server_step_measure _ _ _ _ Hs) | exact (client_step_measure _ _ _ Hs)
      | exact (task_step_measure _ _ _ _ Hs)]. }
  destruct H as [Hb Hc]. pose proof (world_cost_mono _ _ w' Hb). lia.
Qed.

(** ** Draining *)

(** While something is in flight, an internal step without failure is
    enabled: a task can resume, a server can execute, a client can
    receive. *)
Lemma internal_enabled (w : World) :
  quiescent w = false -> exists a w', internal a = true /\ no_fail a /\ step w a = Some w'.
Proof.
  unfold quiescent. destruct (w_tasks w) as [|t ts] eqn:Ht.
  - intros Hq. destruct (forallb_false_exists _ _ Hq) as ([c q] & Hin & Hidle).
    apply elem_of_map_to_list in Hin. simpl in Hidle. unfold connq_idle in Hidle.
    destruct (cq_requests q) as [|x rest] eqn:Hr.
    + destruct (cq_incoming q) as [|i rest] eqn:Hi; [done|].
      eexists (AClient c), _. split; [done|]. split; [done|].
      simpl. unfold client_step. rewrite Hin. simpl. rewrite Hi. reflexivity.
    + destruct x as [rq fs].
      destruct (exec_req (w_redis w) (CACHE_KEY (w_cache w)) c rq) as [[r' rp] ns] eqn:Hex.
      eexists (AServer c true), _. split; [done|]. split; [done|].
      simpl. unfold server_step. rewrite Hin. simpl. rewrite Hr, Hex. reflexivity.
  - intros _. eexists (ATask 0 true), _. split; [done|]. split; [done|].
    simpl. unfold task_step. rewrite Ht. reflexivity.
Qed.

(** Internal steps without failure lead to a world where nothing is in
    flight, in at most [measure w] steps. *)
Lemma drain (w : World) :
  exists acts w', Forall (fun a => internal a = true /\ no_fail a) acts /\ w -[ acts ]-> w' /\
    quiescent w' = true /\ List.length acts <= measure w.
Proof.
  remember (measure w) as n eqn:Hn. revert w Hn.
  induction n as [n IH] using lt_wf_ind. intros w Hn.
  destruct (quiescent w) eqn:Hq.
  - exists [], w. split; [constructor|]. split; [reflexivity|]. simpl. split; [done|lia].
  - destruct (internal_enabled w Hq) as (a & w1 & Ha & Hnf & Hs).
    pose proof (internal_step_measure w w1 a Ha Hs) as Hlt.
    destruct (IH (measure w1) ltac:(lia) w1 eq_refl) as (acts & w' & Hall & Hrun & Hq' & Hlen).
    exists (a :: acts), w'. split; [constructor; auto|].
    split; [apply run_cons; eauto|]. simpl. split; [done|lia].
Qed.

Lemma internal_run_measure (w w' : World) (acts : list Action) :
  Forall (fun a => internal a = true) acts -> w -[ acts ]-> w' ->
  List.length acts + measure w' <= measure w.
Proof.
  revert w. induction acts as [|a acts IH]; intros w Hall Hrun.
  - injection Hrun as <-. simpl. lia.
  - apply Forall_cons in Hall as [Ha Hall]. apply run_cons in Hrun as (w1 & Hs & Hrun).
    pose proof (internal_step_measure w w1 a Ha Hs). specialize (IH w1 Hall Hrun). simpl. lia.
Qed.

(** ** Properties *)

(** C19: Termination of the cache's own activity: between two calls or
    writes of other processes, every run of server, client and task steps,
    whatever fails, is no longer than the measure of the world it starts
    from, and each step lowers the measure. *)
Theorem internal_run_bounded (w w' : World) (acts : list Action) :
  Forall (fun a => internal a = true) acts -> w -[ acts ]-> w' ->
  List.length acts + measure w' <= measure w /\
  (acts <> [] -> measure w' < measure w).
Proof.
  intros Hall Hrun. pose proof (internal_run_measure w w' acts Hall Hrun) as H.
  split; [exact H|]. intros Hne. destruct acts; [done|]. simpl in H. lia.
Qed.

(** C20: A ready instance converges, whatever callers, other writers and
    unrelated notifications do as long as no command fails: from every
    later world, internal steps that do not fail reach a world with nothing
    in flight and the mirror equal to the remote set. *)
Theorem ready_eventually_converges (w w' : World) (acts : list Action) :
  ready w -> Forall no_fail acts -> w -[ acts ]-> w' ->
  exists acts' w'', Forall (fun a => internal a = true /\ no_fail a) acts' /\
    w' -[ acts' ]-> w'' /\ quiescent w'' = true /\ mirror w'' = remote w''.
Proof.
  intros Hready Hnf Hrun. destruct (ready_steady_cover w Hready) as (c & s & Hst & Hcov).
  destruct (run_steady_cover w w' acts c s Hnf Hst Hcov Hrun) as [Hst' Hcov'].
  destruct (drain w') as (acts' & w'' & Hall & Hrun' & Hq & _).
  assert (Hnf' : Forall no_fail acts') by (eapply Forall_impl; [exact Hall | intros x [_ Hx]; exact Hx]).
  destruct (run_steady_cover w' w'' acts' c s Hnf' Hst' Hcov' Hrun') as [_ Hcov''].
  exists acts', w''. do 3 (split; [done|]). exact (quiescent_cover w'' c Hq Hcov'').
Qed.

(** The constructor's world drains by the boot schedule. *)
Lemma internal_run_bounded_witness :
  Forall (fun a => internal a = true) boot /\
  walletCache false store0 -[ boot ]-> default (walletCache false store0) (run (walletCache false store0) boot) /\
  List.length boot + measure (default (walletCache false store0) (run (walletCache false store0) boot))
    <= measure (walletCache false store0).
Proof.
  assert (Hall : Forall (fun a => internal a = true) boot) by (repeat constructor).
  assert (E : walletCache false store0 -[ boot ]->
                default (walletCache false store0) (run (walletCache false store0) boot))
    by (vm_compute; reflexivity).
  split; [exact Hall|]. split; [exact E|].
  exact (proj1 (internal_run_bounded _ _ _ Hall E)).
Defined.

(** After the specification's scenario another process adds a pool. *)
Lemma ready_eventually_converges_witness :
  ready spec_final /\ Forall no_fail [AExtSAdd "syncswap:pools" "0xccc"] /\
  spec_final -[ [AExtSAdd "syncswap:pools" "0xccc"] ]->
    default spec_final (run spec_final [AExtSAdd "syncswap:pools" "0xccc"]) /\
  exists acts' w'', Forall (fun a => internal a = true /\ no_fail a) acts' /\
    default spec_final (run spec_final [AExtSAdd "syncswap:pools" "0xccc"]) -[ acts' ]-> w'' /\
    quiescent w'' = true /\ mirror w'' = remote w''.
Proof.
  pose proof spec_final_ready as Hr.
  assert (Hnf : Forall no_fail [AExtSAdd "syncswap:pools" "0xccc"]) by (repeat constructor).
  assert (E : spec_final -[ [AExtSAdd "syncswap:pools" "0xccc"] ]->
                default spec_final (run spec_final [AExtSAdd "syncswap:pools" "0xccc"]))
    by (vm_compute; reflexivity).
  do 3 (split; [assumption|]).
  exact (ready_eventually_converges _ _ _ Hr Hnf E).
Defined.
