(* ===== verification/CacheCalls.v ===== *)
(** * Calls, their settlement, and the connections they open

    Each call of [bulkCheck..] and [addPool] gets the number [w_next_id]
    and settles through a [KReturn] frame, which travels with the
    command or the connection attempt it awaits.  [calls_inv] accounts for
    every call made: its number is either among the settled results or in
    exactly one suspended activation, the multiset of both being
    [0 .. w_next_id - 1].  It holds in every reachable world, provided
    connections are never reused ([fresh_conns]: [initialize] stores the
    connections [getRedisInstance] just numbered).  With [drain], every
    call made settles once the instance's own work is done.

    [conn_budget] bounds the connections the instance opens: two per
    [initialize] that reaches [Promise.all], one for the constructor and
    at most one per call.  The duplicated initialization of
    [CacheRaces.initialize_race_duplicates] reaches that bound. *)

From S2P Require Import Prelude Address RemoteStore MembershipCache CacheSpec Scenarios CacheInvariants CacheRaces CacheConvergence CacheTermination.

Open Scope string_scope.

(** ** Definitions *)

(** The calls a frame stack will settle. *)
Fixpoint frame_calls (fs : list Frame) : list nat :=
  match fs with
  | [] => []
  | KReturn id :: fs' => id :: frame_calls fs'
  | _ :: fs' => frame_calls fs'
  end.

Definition inc_calls (i : Incoming) : list nat :=
  match i with IReply _ fs => frame_calls fs | IPush _ _ => [] end.

Definition connq_calls (q : ConnQ) : list nat :=
  (cq_requests q ≫= fun x => frame_calls x.2) ++ (cq_incoming q ≫= inc_calls).

Definition task_calls (ts : list (Pending * list Frame)) : list nat :=
  ts ≫= fun t => frame_calls t.2.

Definition settled_calls (w : World) : list nat := fst <$> w_results w.

(** Every call, settled or suspended. *)
Definition calls_of (w : World) : list nat :=
  settled_calls w ++ map_concat connq_calls (w_conns w) ++ task_calls (w_tasks w).

Definition calls_inv (w : World) : Prop := calls_of w ≡ₚ seq 0 (w_next_id w).

(** Connections and the instance's fields only name connections the
    server has opened. *)
Definition fresh_conns (w : World) : Prop :=
  (forall c q, w_conns w !! c = Some q -> c < rs_nconn (w_redis w)) /\
  (forall c, redisCommand (w_cache w) = Some c -> c < rs_nconn (w_redis w)) /\
  (forall c, redisSub (w_cache w) = Some c -> c < rs_nconn (w_redis w)).

(** The call an action makes. *)
Definition made (w : World) (a : Action) : list nat :=
  match a with ABulkCheck _ | AAddPool _ => [w_next_id w] | _ => [] end.

(** The pending connection attempts. *)
Definition is_connect (t : Pending * list Frame) : nat :=
  match t.1 with PConnect => 1 | PResolved _ => 0 end.

Definition count_connect (ts : list (Pending * list Frame)) : nat := sum_list_with is_connect ts.

(** The connections opened, and those pending attempts will open, against
    two per [initialize] of the constructor and of the calls. *)
Definition conn_budget (n0 : nat) (w : World) : Prop :=
  rs_nconn (w_redis w) + 2 * count_connect (w_tasks w) <= n0 + 2 * S (w_next_id w).

(** The well-formedness of a world of an instance whose server had
    [n0] connections. *)
Definition calls_wf (n0 : nat) (w : World) : Prop :=
  fresh_conns w /\ calls_inv w /\ conn_budget n0 w.

(** ** How the operations move calls *)

Lemma calls_set_conn (w : World) (c : conn) (q : ConnQ) :
  calls_of (set_conns w (<[c := q]> (w_conns w))) ++ connq_calls (conn_of w c) ≡ₚ
  calls_of w ++ connq_calls q.
Proof.
  pose proof (map_concat_insert connq_calls (w_conns w) c q) as E.
  assert (Ex : default [] (connq_calls <$> w_conns w !! c) = connq_calls (conn_of w c))
    by (unfold conn_of; by destruct (w_conns w !! c)).
  rewrite Ex in E. unfold calls_of; simpl.
  transitivity (settled_calls w ++ (map_concat connq_calls (<[c:=q]> (w_conns w)) ++
                  connq_calls (conn_of w c)) ++ task_calls (w_tasks w))%list; [solve_Permutation|].
  rewrite E. solve_Permutation.
Qed.

Lemma park_calls (w : World) (p : Pending) (fs : list Frame) :
  calls_of (park w p fs) ≡ₚ calls_of w ++ frame_calls fs.
Proof.
  unfold calls_of, park, task_calls; simpl. rewrite bind_app. simpl. rewrite app_nil_r.
  solve_Permutation.
Qed.

Lemma settle_calls (w : World) (id : nat) (o : Outcome) :
  calls_of (settle w id o) ≡ₚ calls_of w ++ [id].
Proof. unfold calls_of, settled_calls, settle; simpl. rewrite fmap_app. simpl. solve_Permutation. Qed.

Lemma send_calls (w : World) (oc : option conn) (r : Req) (fs : list Frame) (o : Outcome) :
  calls_of (send w oc r fs o) ≡ₚ calls_of w ++ frame_calls fs.
Proof.
  destruct oc as [c|]; simpl; [|apply park_calls].
  pose proof (calls_set_conn w c (mkConnQ (cq_requests (conn_of w c) ++ [(r, fs)]) (cq_incoming (conn_of w c))))
    as E.
  unfold connq_calls in E; simpl in E. rewrite bind_app in E. simpl in E. rewrite app_nil_r in E.
  apply (Permutation_app_inv_r (connq_calls (conn_of w c))). rewrite E.
  unfold connq_calls. solve_Permutation.
Qed.

Lemma unwind_calls (w : World) (o : Outcome) (fs : list Frame) :
  calls_of (unwind w o fs) ≡ₚ calls_of w ++ frame_calls fs.
Proof.
  revert w o. induction fs as [|f rest IH]; intros w o; simpl; [by rewrite app_nil_r|].
  destruct f, o as [v|]; simpl;
    try (match goal with |- context [unwind w ?o' rest] => rewrite (IH w o'); reflexivity end).
  - unfold subscribeToSetOperations. by rewrite send_calls.
  - rewrite IH, settle_calls. solve_Permutation.
  - rewrite IH, settle_calls. solve_Permutation.
Qed.

Lemma push_all_calls (cs : gmap conn ConnQ) (ns : list (conn * string * string)) :
  map_concat connq_calls (push_all cs ns) ≡ₚ map_concat connq_calls cs.
Proof.
  unfold push_all. revert cs. induction ns as [|[[c ch] ev] ns IH]; intros cs; simpl; [done|].
  destruct (cs !! c) as [q|] eqn:Hq; [|apply IH].
  rewrite IH. apply (Permutation_app_inv_r (connq_calls q)).
  pose proof (map_concat_insert connq_calls cs c
                (mkConnQ (cq_requests q) (cq_incoming q ++ [IPush ch ev]))) as E.
  rewrite Hq in E. simpl in E. rewrite E. unfold connq_calls; simpl.
  rewrite bind_app. simpl. rewrite !app_nil_r. done.
Qed.

Lemma publish_calls (w : World) (ns : list (conn * string * string)) :
  calls_of (publish w ns) ≡ₚ calls_of w.
Proof. unfold calls_of, publish; simpl. by rewrite push_all_calls. Qed.

(** Replacing the queue of [c] by one holding the same calls. *)
Lemma calls_replace_conn (w : World) (c : conn) (q q' : ConnQ) :
  w_conns w !! c = Some q -> connq_calls q' ≡ₚ connq_calls q ++ [] ->
  calls_of (set_conns w (<[c := q']> (w_conns w))) ≡ₚ calls_of w.
Proof.
  intros Hq Hq'. apply (Permutation_app_inv_r (connq_calls (conn_of w c))).
  rewrite calls_set_conn. unfold conn_of. rewrite Hq. simpl. rewrite Hq', app_nil_r. done.
Qed.

Lemma task_calls_delete (ts : list (Pending * list Frame)) (i : nat) (t : Pending * list Frame) :
  ts !! i = Some t -> task_calls ts ≡ₚ task_calls (delete i ts) ++ frame_calls t.2.
Proof.
  intros Hi. unfold task_calls. etrans; [apply bind_Permutation, (delete_Permutation ts i t Hi)|].
  simpl. solve_Permutation.
Qed.

(** ** Fresh connections *)

Lemma send_fresh (w : World) (oc : option conn) (r : Req) (fs : list Frame) (o : Outcome) :
  fresh_conns w -> (forall c, oc = Some c -> c < rs_nconn (w_redis w)) ->
  fresh_conns (send w oc r fs o).
Proof.
  intros (Hc & Hcmd & Hsub) Hoc. destruct oc as [c|]; simpl; [|done].
  split; [|done]. intros c' q. simpl. rewrite lookup_insert.
  case_decide; [intros _; subst; by apply Hoc | apply Hc].
Qed.

Lemma unwind_fresh (w : World) (o : Outcome) (fs : list Frame) :
  fresh_conns w -> fresh_conns (unwind w o fs).
Proof.
  revert w o. induction fs as [|f rest IH]; intros w o Hw; simpl; [done|].
  destruct f, o as [v|]; simpl; try (apply IH; done).
  unfold subscribeToSetOperations. apply send_fresh; [done|]. destruct Hw as (_ & _ & Hs). apply Hs.
Qed.

Lemma push_all_dom_inv (cs : gmap conn ConnQ) (ns : list (conn * string * string)) (x : conn) :
  is_Some (push_all cs ns !! x) -> is_Some (cs !! x).
Proof.
  unfold push_all. revert cs. induction ns as [|[[c' ch] ev] ns IH]; intros cs Hx; simpl in *; [done|].
  apply IH in Hx. destruct (cs !! c') eqn:Hq; [|done].
  rewrite lookup_insert in Hx. case_decide; subst; [by rewrite Hq | done].
Qed.

(** A world whose queues and fields are those of [w], up to queues of
    connections [w] knows, over a server with as many connections. *)
Lemma fresh_conns_same (w w' : World) :
  fresh_conns w -> rs_nconn (w_redis w') = rs_nconn (w_redis w) ->
  redisCommand (w_cache w') = redisCommand (w_cache w) -> redisSub (w_cache w') = redisSub (w_cache w) ->
  (forall c, is_Some (w_conns w' !! c) -> is_Some (w_conns w !! c)) -> fresh_conns w'.
Proof.
  intros (Hc & Hcmd & Hsub) En Ec Es Hd. unfold fresh_conns. rewrite En, Ec, Es.
  split; [|done]. intros c q Hq. destruct (Hd c) as [q0 Hq0]; [by eexists|]. by apply (Hc c q0).
Qed.

Lemma publish_fresh (w : World) (r : RedisServer) (ns : list (conn * string * string)) :
  fresh_conns w -> rs_nconn r = rs_nconn (w_redis w) -> fresh_conns (publish (set_redis w r) ns).
Proof. intros Hw En. apply (fresh_conns_same w); try done. intros c. apply push_all_dom_inv. Qed.

Lemma exec_req_nconn (r : RedisServer) (key : string) (c : conn) (rq : Req) :
  rs_nconn (exec_req r key c rq).1.1 = rs_nconn r.
Proof. destruct rq; simpl; [done| |done]. unfold sAdd. by case_decide. Qed.

Lemma initialize_connected_fresh (w : World) (fs : list Frame) :
  fresh_conns w -> fresh_conns (initialize_connected w fs).
Proof.
  intros (Hc & _ & _). unfold initialize_connected. cbn [getRedisInstance]. unfold updateInMemoryCache.
  apply send_fresh; [|simpl; intros c [= <-]; lia].
  repeat split; simpl; [|intros c [= <-]; lia|intros c [= <-]; lia].
  intros c q. rewrite !lookup_insert. repeat case_decide; [lia|lia|]. intros Hq. pose proof (Hc c q Hq). lia.
Qed.

Lemma step_fresh (w w' : World) (a : Action) :
  fresh_conns w -> step w a = Some w' -> fresh_conns w'.
Proof.
  intros Hw Hs. pose proof Hw as (Hc & Hcmd & Hsub).
  destruct a; simpl in Hs.
  - unfold server_step in Hs. destruct (w_conns w !! c) as [q|] eqn:Hq; simpl in Hs; [|done].
    destruct (cq_requests q) as [|[rq fs] rest]; [done|].
    destruct (if ok then exec_req (w_redis w) (CACHE_KEY (w_cache w)) c rq else (w_redis w, RpErr rq, []))
      as [[r' rp] ns] eqn:Hex. injection Hs as <-.
    apply (fresh_conns_same w); simpl; try done.
    + destruct ok; [|by injection Hex as <- _ _]. pose proof (exec_req_nconn (w_redis w) (CACHE_KEY (w_cache w)) c rq) as E.
      by rewrite Hex in E.
    + intros c' Hc'%push_all_dom_inv. rewrite lookup_insert in Hc'. case_decide; [subst; by eexists|done].
  - unfold client_step in Hs. destruct (w_conns w !! c) as [q|] eqn:Hq; simpl in Hs; [|done].
    destruct (cq_incoming q) as [|i rest]; [done|]. injection Hs as <-.
    set (w1 := set_conns w (<[c := mkConnQ (cq_requests q) rest]> (w_conns w))).
    assert (H1 : fresh_conns w1).
    { apply (fresh_conns_same w); try done. intros c'. simpl. rewrite lookup_insert.
      case_decide; [subst; by eexists|done]. }
    destruct i as [rp fs|ch msg].
    + change (w_cache w1) with (w_cache w). destruct (resume_key (w_cache w) rp) as (_ & E1 & E2).
      destruct (resume (w_cache w) rp) as [cache' o]. simpl in E1, E2. apply unwind_fresh.
      by apply (fresh_conns_same w1).
    + unfold listener. case_decide; [|done]. apply send_fresh; [done|]. apply H1.
  - unfold task_step in Hs. destruct (w_tasks w !! i) as [[p fs]|]; simpl in Hs; [|done].
    injection Hs as <-. destruct p; [destruct ok|];
      [apply initialize_connected_fresh | apply unwind_fresh | apply unwind_fresh]; done.
  - injection Hs as <-. unfold ext_sadd. destruct (sAdd (w_redis w) k v) as [r' added] eqn:Ha.
    apply publish_fresh; [done|]. unfold sAdd in Ha. case_decide; by injection Ha as <- _.
  - unfold ext_event in Hs. case_decide; [done|]. injection Hs as <-.
    rewrite <- (set_redis_id w) at 2. by apply publish_fresh.
  - injection Hs as <-. unfold bulkCheck, initialize. simpl. by repeat case_match.
  - injection Hs as <-. unfold callAddPool, addPool. apply send_fresh; [done|]. apply Hcmd.
Qed.

(** ** Every step accounts for its calls *)

Lemma unwind_next_id (w : World) (o : Outcome) (fs : list Frame) :
  w_next_id (unwind w o fs) = w_next_id w.
Proof.
  revert w o. induction fs as [|f rest IH]; intros w o; simpl; [done|].
  destruct f, o; simpl; rewrite ?IH; try done. unfold subscribeToSetOperations, send. by case_match.
Qed.

Lemma send_next_id (w : World) (oc : option conn) (r : Req) (fs : list Frame) (o : Outcome) :
  w_next_id (send w oc r fs o) = w_next_id w.
Proof. by destruct oc. Qed.

Lemma initialize_calls (w : World) (fs : list Frame) :
  calls_of (initialize w fs) ≡ₚ calls_of w ++ frame_calls fs.
Proof. unfold initialize. repeat case_match; apply park_calls. Qed.

Lemma initialize_connected_calls (w : World) (fs : list Frame) :
  fresh_conns w -> calls_of (initialize_connected w fs) ≡ₚ calls_of w ++ frame_calls fs.
Proof.
  intros (Hc & _ & _). unfold initialize_connected. cbn [getRedisInstance]. unfold updateInMemoryCache.
  rewrite send_calls. simpl. unfold calls_of; simpl.
  assert (N : forall k, rs_nconn (w_redis w) <= k -> w_conns w !! k = None).
  { intros k Hk. destruct (w_conns w !! k) as [q|] eqn:Hq; [|done]. pose proof (Hc k q Hq). lia. }
  rewrite (map_concat_insert_fresh _ _ _ _); [|rewrite lookup_insert_ne by lia; apply N; lia|done].
  rewrite (map_concat_insert_fresh _ _ _ _); [done|apply N; lia|done].
Qed.

Lemma listener_calls (w : World) (message : string) : calls_of (listener w message) ≡ₚ calls_of w.
Proof. unfold listener, updateInMemoryCache. case_decide; [|done]. rewrite send_calls. simpl. by rewrite app_nil_r. Qed.

(** Taking the head message of a connection off its queue. *)
Lemma pop_calls (w : World) (c : conn) (q : ConnQ) (i : Incoming) (rest : list Incoming) :
  w_conns w !! c = Some q -> cq_incoming q = i :: rest ->
  calls_of (set_conns w (<[c := mkConnQ (cq_requests q) rest]> (w_conns w))) ++ inc_calls i ≡ₚ calls_of w.
Proof.
  intros Hq Hi. set (q1 := mkConnQ (cq_requests q) rest).
  pose proof (calls_set_conn w c q1) as E. unfold conn_of in E. rewrite Hq in E. simpl in E.
  assert (H : connq_calls q ≡ₚ connq_calls q1 ++ inc_calls i).
  { unfold connq_calls, q1. rewrite Hi. simpl. solve_Permutation. }
  apply (Permutation_app_inv_r (connq_calls q1)). rewrite <- E, H. solve_Permutation.
Qed.

Lemma step_calls (w w' : World) (a : Action) :
  fresh_conns w -> step w a = Some w' ->
  calls_of w' ≡ₚ calls_of w ++ made w a /\ w_next_id w' = w_next_id w + List.length (made w a).
Proof.
  intros Hw Hs. destruct a; simpl in Hs; cbn [made List.length]; rewrite ?app_nil_r, ?Nat.add_0_r, ?Nat.add_1_r.
  - unfold server_step in Hs. destruct (w_conns w !! c) as [q|] eqn:Hq; simpl in Hs; [|done].
    destruct (cq_requests q) as [|[rq fs] rest] eqn:Hr; [done|].
    destruct (if ok then exec_req (w_redis w) (CACHE_KEY (w_cache w)) c rq else (w_redis w, RpErr rq, []))
      as [[r' rp] ns]. injection Hs as <-. split; [|done].
    set (q1 := mkConnQ rest (cq_incoming q ++ [IReply rp fs])).
    transitivity (calls_of (set_conns w (<[c := q1]> (w_conns w)))).
    { unfold calls_of; simpl. by rewrite push_all_calls. }
    apply calls_replace_conn with q; [done|]. unfold connq_calls, q1; simpl. rewrite Hr, bind_app.
    simpl. solve_Permutation.
  - unfold client_step in Hs. destruct (w_conns w !! c) as [q|] eqn:Hq; simpl in Hs; [|done].
    destruct (cq_incoming q) as [|i rest] eqn:Hi; [done|]. injection Hs as <-.
    pose proof (pop_calls w c q i rest Hq Hi) as E.
    set (w1 := set_conns w (<[c := mkConnQ (cq_requests q) rest]> (w_conns w))) in *.
    destruct i as [rp fs|ch msg]; simpl in E.
    + destruct (resume (w_cache w) rp) as [cache' o]. rewrite unwind_next_id. split; [|done].
      rewrite unwind_calls. exact E.
    + rewrite listener_calls, <- E, app_nil_r. split; [done|]. unfold listener. case_decide; [|done].
      unfold updateInMemoryCache. by rewrite send_next_id.
  - unfold task_step in Hs. destruct (w_tasks w !! i) as [t|] eqn:Ht; simpl in Hs; [|done].
    injection Hs as <-. set (w1 := set_tasks w (delete i (w_tasks w))).
    assert (E : calls_of w1 ++ frame_calls t.2 ≡ₚ calls_of w).
    { unfold calls_of, w1; simpl. rewrite (task_calls_delete (w_tasks w) i t Ht). solve_Permutation. }
    destruct t as [[|o] fs]; [destruct ok|]; cbn [fst snd] in E |- *.
    + split; [etrans; [apply initialize_connected_calls, Hw | exact E]|].
      unfold initialize_connected, updateInMemoryCache. cbn [getRedisInstance]. by rewrite send_next_id.
    + rewrite unwind_calls, unwind_next_id. by split.
    + rewrite unwind_calls, unwind_next_id. by split.
  - injection Hs as <-. unfold ext_sadd. destruct (sAdd (w_redis w) k v). by rewrite publish_calls.
  - unfold ext_event in Hs. case_decide; [done|]. injection Hs as <-. by rewrite publish_calls.
  - injection Hs as <-. unfold bulkCheck. case_match.
    + rewrite settle_calls. by split.
    + rewrite initialize_calls. split; [done|]. unfold initialize. by repeat case_match.
  - injection Hs as <-. unfold callAddPool, addPool. rewrite send_calls, send_next_id. by split.
Qed.

(** ** Connections opened *)

Lemma send_conns (w : World) (oc : option conn) (r : Req) (fs : list Frame) (o : Outcome) :
  rs_nconn (w_redis (send w oc r fs o)) = rs_nconn (w_redis w) /\
  count_connect (w_tasks (send w oc r fs o)) = count_connect (w_tasks w).
Proof.
  destruct oc; simpl; [done|]. unfold count_connect. rewrite sum_list_with_app. cbn [sum_list_with].
  unfold is_connect; simpl. split; lia.
Qed.

Lemma unwind_conns (w : World) (o : Outcome) (fs : list Frame) :
  rs_nconn (w_redis (unwind w o fs)) = rs_nconn (w_redis w) /\
  count_connect (w_tasks (unwind w o fs)) = count_connect (w_tasks w).
Proof.
  revert w o. induction fs as [|f rest IH]; intros w o; simpl; [done|].
  destruct f, o; simpl; try apply IH; [apply send_conns | |]; apply (IH (settle _ _ _)).
Qed.

Ltac conns_of_send_unwind :=
  repeat match goal with
  | |- context [send ?w2 ?oc ?r ?fs ?o] => destruct (send_conns w2 oc r fs o) as [-> ->]
  | |- context [unwind ?w2 ?o ?fs] => destruct (unwind_conns w2 o fs) as [-> ->]
  end.

Lemma step_conns (w w' : World) (a : Action) :
  step w a = Some w' ->
  rs_nconn (w_redis w') + 2 * count_connect (w_tasks w') <=
    rs_nconn (w_redis w) + 2 * count_connect (w_tasks w) + 2 * List.length (made w a).
Proof.
  intros Hs. destruct a; simpl in Hs; cbn [made List.length].
  - unfold server_step in Hs. destruct (w_conns w !! c) as [q|]; simpl in Hs; [|done].
    destruct (cq_requests q) as [|[rq fs] rest]; [done|].
    destruct (if ok then exec_req (w_redis w) (CACHE_KEY (w_cache w)) c rq else (w_redis w, RpErr rq, []))
      as [[r' rp] ns] eqn:Hex. injection Hs as <-. simpl.
    assert (rs_nconn r' = rs_nconn (w_redis w)) as ->; [|lia].
    destruct ok; [|by injection Hex as <- _ _].
    pose proof (exec_req_nconn (w_redis w) (CACHE_KEY (w_cache w)) c rq) as E. by rewrite Hex in E.
  - unfold client_step in Hs. destruct (w_conns w !! c) as [q|]; simpl in Hs; [|done].
    destruct (cq_incoming q) as [|[rp fs|ch msg] rest]; [done| |]; injection Hs as <-.
    + destruct (resume (w_cache w) rp) as [cache' o]. conns_of_send_unwind. simpl. lia.
    + unfold listener, updateInMemoryCache. case_decide; [|simpl; lia]. conns_of_send_unwind. simpl. lia.
  - unfold task_step in Hs. destruct (w_tasks w !! i) as [t|] eqn:Ht; simpl in Hs; [|done].
    injection Hs as <-. pose proof (sum_list_with_delete is_connect _ i t Ht) as E.
    set (w1 := set_tasks w (delete i (w_tasks w))).
    assert (E1 : rs_nconn (w_redis w1) = rs_nconn (w_redis w) /\
                 count_connect (w_tasks w1) + is_connect t = count_connect (w_tasks w)) by done.
    destruct t as [[|o] fs]; [destruct ok|]; cbn [fst snd] in *; unfold is_connect in E1; simpl in E1.
    + unfold initialize_connected, updateInMemoryCache. cbn [getRedisInstance].
      conns_of_send_unwind. simpl. lia.
    + conns_of_send_unwind. unfold w1; simpl. lia.
    + conns_of_send_unwind. unfold w1; simpl. lia.
  - injection Hs as <-. unfold ext_sadd. destruct (sAdd (w_redis w) k v) as [r' added] eqn:Ha. simpl.
    unfold sAdd in Ha. case_decide; injection Ha as <- _; simpl; lia.
  - unfold ext_event in Hs. case_decide; [done|]. injection Hs as <-. simpl. lia.
  - injection Hs as <-. unfold bulkCheck, initialize. simpl.
    repeat case_match; simpl; unfold count_connect; rewrite ?sum_list_with_app; cbn [sum_list_with];
      unfold is_connect; simpl; lia.
  - injection Hs as <-. unfold callAddPool, addPool.
conns_of_send_unwind. simpl. lia.
Qed.

(** ** Every reachable world is well formed *)

Lemma made_seq (w : World) (a : Action) :
  (seq 0 (w_next_id w) ++ made w a)%list = seq 0 (w_next_id w + List.length (made w a)).
Proof.
  destruct a; cbn [made List.length]; rewrite ?app_nil_r, ?Nat.add_0_r; try done.
  all: by rewrite Nat.add_1_r, seq_S.
Qed.

Lemma step_calls_wf (n0 : nat) (w w' : World) (a : Action) :
  calls_wf n0 w -> step w a = Some w' -> calls_wf n0 w'.
Proof.
  intros (Hf & Hc & Hb) Hs. destruct (step_calls w w' a Hf Hs) as [Ec En].
  split; [by eapply step_fresh|]. split.
  - unfold calls_inv in *. rewrite Ec, Hc, En, made_seq. done.
  - pose proof (step_conns w w' a Hs). unfold conn_budget in *. lia.
Qed.

Lemma new_cache_calls_wf (test : bool) (key : string) (r : RedisServer) :
  calls_wf (rs_nconn r) (new_cache test key r).
Proof.
  unfold calls_wf, fresh_conns, calls_inv, conn_budget, new_cache, initialize.
  destruct test; simpl; (split; [split; [intros c q; by rewrite lookup_empty|done]|]);
    (split; [done|]); unfold count_connect, is_connect; simpl; lia.
Qed.

Lemma run_calls_wf (n0 : nat) (w w' : World) (acts : list Action) :
  calls_wf n0 w -> w -[ acts ]-> w' -> calls_wf n0 w'.
Proof. apply run_invariant. intros s a s'. apply step_calls_wf. Qed.

Lemma reachable_calls_wf (test : bool) (key : string) (r : RedisServer) (w : World) :
  reachable test key r w -> calls_wf (rs_nconn r) w.
Proof. intros [acts Hrun]. exact (run_calls_wf _ _ _ _ (new_cache_calls_wf test key r) Hrun). Qed.

(** Internal steps make no call. *)
Lemma run_internal_calls (n0 : nat) (w w' : World) (acts : list Action) :
  calls_wf n0 w -> Forall (fun a => internal a = true) acts -> w -[ acts ]-> w' ->
  calls_wf n0 w' /\ w_next_id w' = w_next_id w.
Proof.
  revert w. induction acts as [|a acts IH]; intros w Hw Hi Hr.
  - injection Hr as <-. by split.
  - apply run_cons in Hr as (w1 & Hs & Hr). apply Forall_cons in Hi as [Ha Hi].
    destruct (step_calls w w1 a (proj1 Hw) Hs) as [_ En].
    destruct a; try discriminate Ha; cbn [made List.length] in En;
      (destruct (IH w1 (step_calls_wf _ _ _ _ Hw Hs) Hi Hr) as [? ->]; split; [done|lia]).
Qed.

(** In a quiescent world every call is settled. *)
Lemma quiescent_calls (w : World) : quiescent w = true -> calls_of w = settled_calls w.
Proof.
  intros Hq. unfold calls_of. rewrite (quiescent_tasks w Hq). simpl.
  rewrite map_concat_nil; [by rewrite !app_nil_r|].
  intros c q Hc. destruct (quiescent_conn w c q Hq Hc) as [Hr Hi]. unfold connq_calls. by rewrite Hr, Hi.
Qed.

(** The constructor's world of the wallet cache after a query that
    started a second [initialize] and both connection attempts. *)
Lemma race_double_init_reachable :
  reachable false "clave:wallets" store0 (wallet_after race_double_init).
Proof. exists race_double_init. vm_compute. reflexivity. Qed.

(** ** Properties *)

(** C21: Every call settles: from every reachable world, server, client
    and task steps that do not fail, and no new call, reach a world in
    which each call made so far has settled exactly once. *)
Theorem every_call_settles (test : bool) (key : string) (r : RedisServer) (w : World) :
  reachable test key r w ->
  exists acts w', Forall (fun a => internal a = true /\ no_fail a) acts /\ w -[ acts ]-> w' /\
    w_next_id w' = w_next_id w /\ settled_calls w' ≡ₚ seq 0 (w_next_id w).
Proof.
  intros Hr. pose proof (reachable_calls_wf test key r w Hr) as Hw.
  destruct (drain w) as (acts & w' & Hall & Hrun & Hq & _).
  assert (Hi : Forall (fun a => internal a = true) acts)
    by (eapply Forall_impl; [exact Hall | intros x [Hx _]; exact Hx]).
  destruct (run_internal_calls _ _ _ _ Hw Hi Hrun) as ((_ & Hc & _) & En).
  exists acts, w'. do 3 (split; [done|]). unfold calls_inv in Hc.
  rewrite <- (quiescent_calls w' Hq), Hc, En. done.
Qed.

(** C22: The connections the instance opens are bounded by two per
    [initialize]: the constructor's and one per call made before the
    command connection was stored.  The bound is reached when a query
    arrives before the constructor's connections are open. *)
Theorem connections_bounded (test : bool) (key : string) (r : RedisServer) (w : World) :
  reachable test key r w -> rs_nconn (w_redis w) <= rs_nconn r + 2 * S (w_next_id w).
Proof. intros Hr. destruct (reachable_calls_wf test key r w Hr) as (_ & _ & Hb). unfold conn_budget in Hb. lia. Qed.

Lemma every_call_settles_witness :
  reachable false "clave:wallets" store0 (wallet_after race_double_init) /\
  exists acts w', Forall (fun a => internal a = true /\ no_fail a) acts /\
    wallet_after race_double_init -[ acts ]-> w' /\
    w_next_id w' = w_next_id (wallet_after race_double_init) /\
    settled_calls w' ≡ₚ seq 0 (w_next_id (wallet_after race_double_init)).
Proof.
  pose proof race_double_init_reachable as Hr.
  split; [exact Hr | exact (every_call_settles _ _ _ _ Hr)].
Defined.

(** Here the bound is reached: one call, four connections. *)
Lemma connections_bounded_witness :
  reachable false "clave:wallets" store0 (wallet_after race_double_init) /\
  rs_nconn (w_redis (wallet_after race_double_init)) <=
    rs_nconn store0 + 2 * S (w_next_id (wallet_after race_double_init)) /\
  rs_nconn (w_redis (wallet_after race_double_init)) =
    rs_nconn store0 + 2 * S (w_next_id (wallet_after race_double_init)).
Proof.
  pose proof race_double_init_reachable as Hr.
  split; [exact Hr|]. split; [exact (connections_bounded _ _ _ _ Hr) | vm_compute; reflexivity].
Defined.
