(* ===== verification/CacheDegraded.v ===== *)
(** * The degraded instance: a subscription that failed

    [subscribeToSetOperations] catches a failed [subscribe] and only logs
    it (src/utils/WalletCache.ts:94-106); [initialize] then completes as
    if subscribed, and nothing subscribes again, since [bulkCheck..] only
    re-initializes while [redisCommand] is unset.  The specification
    (sections 4.1 and 7) calls this state [Degraded]: the mirror freezes
    at the last successful load.

    [degraded x w] is that state, with a member [x] the mirror lacks: no
    subscription is registered, the command connection is stored, and
    nothing in flight can reload the mirror, subscribe, or bring [x] in (no
    [SMEMBERS] or [SUBSCRIBE] queued, no reply that installs [x], no
    ["sadd"] message, no activation of [initialize] before its load, no
    connection attempt).  Every step other than the instance's own
    [addPool] keeps it, so [x] stays out of the mirror, and out of every
    answer, whatever other processes write. *)

From S2P Require Import Prelude Address RemoteStore MembershipCache CacheSpec Scenarios CacheInvariants CacheRaces.

Open Scope string_scope.

(** ** Definitions *)

(** An activation that will not subscribe: not [initialize] waiting for
    its load. *)
Definition frame_quiet (f : Frame) : bool :=
  match f with KInitLoaded => false | _ => true end.

Definition frames_quiet (fs : list Frame) : bool := forallb frame_quiet fs.

(** A queued command that reloads nothing and adds another member. *)
Definition req_quiet (x : string) (r : Req * list Frame) : bool :=
  match r.1 with RqSAdd v => bool_decide (v <> x) | _ => false end && frames_quiet r.2.

(** A message in flight that cannot bring [x] into the mirror. *)
Definition inc_quiet (x : string) (i : Incoming) : bool :=
  match i with
  | IReply rp fs =>
      match rp with
      | RpMembers m => bool_decide (x ∉ m)
      | RpAdded v => bool_decide (v <> x)
      | _ => true
      end && frames_quiet fs
  | IPush _ msg => bool_decide (msg <> "sadd")
  end.

Definition connq_quiet (x : string) (q : ConnQ) : bool :=
  forallb (req_quiet x) (cq_requests q) && forallb (inc_quiet x) (cq_incoming q).

Definition task_quiet (t : Pending * list Frame) : bool :=
  match t.1 with PConnect => false | PResolved _ => true end && frames_quiet t.2.

Definition degraded (x : string) (w : World) : bool :=
  bool_decide (x ∉ mirror w) &&
  match rs_subs (w_redis w) with [] => true | _ => false end &&
  match redisCommand (w_cache w) with Some _ => true | None => false end &&
  forallb (fun cq => connq_quiet x cq.2) (map_to_list (w_conns w)) &&
  forallb task_quiet (w_tasks w).

Definition is_addPool (a : Action) : bool :=
  match a with AAddPool _ => true | _ => false end.

(** From a fresh wallet cache: the connections open, the initial load is
    installed, the [SUBSCRIBE] fails, [initialize] settles, and another
    process adds the wallet ["0xbbb"]. *)
Definition subscribe_failure : list Action :=
  [ ATask 0 true; AServer 0 true; AClient 0; AServer 1 false; AClient 1;
    AExtSAdd "clave:wallets" "0xbbb" ].

(** ** The parts of [degraded] *)

(** Worlds that differ at most in the settled results and the call
    numbers. *)
Definition same_state (w w' : World) : Prop :=
  w_redis w' = w_redis w /\ w_cache w' = w_cache w /\ w_conns w' = w_conns w /\ w_tasks w' = w_tasks w.

Lemma same_state_trans (w1 w2 w3 : World) : same_state w1 w2 -> same_state w2 w3 -> same_state w1 w3.
Proof. intros (? & ? & ? & ?) (? & ? & ? & ?). repeat split; congruence. Qed.

Lemma degraded_same (x : string) (w w' : World) : same_state w w' -> degraded x w' = degraded x w.
Proof. intros (Hr & Hc & Hq & Ht). unfold degraded, mirror. by rewrite Hr, Hc, Hq, Ht. Qed.

Lemma conns_quiet_spec (x : string) (m : gmap conn ConnQ) :
  forallb (fun cq => connq_quiet x cq.2) (map_to_list m) = true <->
  forall c q, m !! c = Some q -> connq_quiet x q = true.
Proof.
  rewrite forallb_forall. split.
  - intros H c q Hc. apply (H (c, q)), list_elem_of_In, elem_of_map_to_list, Hc.
  - intros H [c q] Hin. apply (H c q), elem_of_map_to_list, list_elem_of_In, Hin.
Qed.

Lemma degraded_spec (x : string) (w : World) :
  degraded x w = true <->
  x ∉ mirror w /\ rs_subs (w_redis w) = [] /\ is_Some (redisCommand (w_cache w)) /\
  (forall c q, w_conns w !! c = Some q -> connq_quiet x q = true) /\
  forallb task_quiet (w_tasks w) = true.
Proof.
  unfold degraded. rewrite <- conns_quiet_spec, !andb_true_iff, bool_decide_eq_true.
  destruct (rs_subs (w_redis w)), (redisCommand (w_cache w)); naive_solver.
Qed.

(** The activations of a quiet stack only settle calls. *)
Lemma unwind_quiet (w : World) (o : Outcome) (fs : list Frame) :
  frames_quiet fs = true -> same_state w (unwind w o fs).
Proof.
  revert w o. induction fs as [|f rest IH]; intros w o Hq; [done|].
  apply andb_true_iff in Hq as [Hf Hq].
  destruct f; [done|..]; destruct o; simpl; (eapply same_state_trans; [|apply IH, Hq]); done.
Qed.

Lemma resume_quiet (x : string) (c : Cache) (rp : Reply) (fs : list Frame) :
  inc_quiet x (IReply rp fs) = true -> x ∉ inMemoryCache c ->
  x ∉ inMemoryCache (resume c rp).1 /\ redisCommand (resume c rp).1 = redisCommand c.
Proof.
  intros Hq Hx. pose proof (resume_key c rp) as (_ & Hk & _). split; [|exact Hk].
  apply andb_true_iff in Hq as [Hq _]. destruct rp as [m|v|ch|[]]; simpl in *; try done.
  - by apply bool_decide_eq_true in Hq.
  - apply bool_decide_eq_true in Hq. set_solver.
Qed.

(** With no subscription the server publishes nothing. *)
Lemma keyspace_notifications_nil (r : RedisServer) (k ev : string) :
  rs_subs r = [] -> keyspace_notifications r k ev = [].
Proof. intros Hs. unfold keyspace_notifications. rewrite Hs. by destruct (rs_keyspace r). Qed.

(** ** Every step but [addPool] keeps the instance degraded *)

Lemma degraded_set_conn (x : string) (w : World) (c : conn) (q : ConnQ) :
  degraded x w = true -> connq_quiet x q = true ->
  degraded x (set_conns w (<[c := q]> (w_conns w))) = true.
Proof.
  intros (Hx & Hs & Hc & Hq & Ht)%degraded_spec Hq'. apply degraded_spec. simpl.
  do 3 (split; [done|]). split; [|done]. intros c' q''. rewrite lookup_insert.
  case_decide; [intros [= <-]; done | apply Hq].
Qed.

(** Taking a message or a command off a quiet queue. *)
Lemma connq_quiet_pop (x : string) (q : ConnQ) (r : Req * list Frame) (rest : list (Req * list Frame))
    (i : Incoming) (irest : list Incoming) :
  connq_quiet x q = true ->
  (cq_requests q = r :: rest -> req_quiet x r = true /\ forallb (req_quiet x) rest = true /\
                                 forallb (inc_quiet x) (cq_incoming q) = true) /\
  (cq_incoming q = i :: irest -> inc_quiet x i = true /\ connq_quiet x (mkConnQ (cq_requests q) irest) = true).
Proof.
  unfold connq_quiet. rewrite andb_true_iff. intros [Hr Hi]. split; intros E; rewrite E in *; simpl in *;
    apply andb_true_iff in Hr || apply andb_true_iff in Hi; rewrite ?andb_true_iff; naive_solver.
Qed.

Lemma step_degraded (x : string) (w w' : World) (a : Action) :
  degraded x w = true -> is_addPool a = false -> step w a = Some w' -> degraded x w' = true.
Proof.
  intros Hd Ha Hs. pose proof Hd as (Hx & Hsub & Hcmd & Hc & Ht)%degraded_spec.
  destruct a; simpl in Hs; try discriminate Ha.
  - unfold server_step in Hs. destruct (w_conns w !! c) as [q|] eqn:Hq; simpl in Hs; [|done].
    destruct (cq_requests q) as [|[rq fs] rest] eqn:Hr; [done|].
    destruct (proj1 (connq_quiet_pop x q (rq, fs) rest (IPush "" "") [] (Hc c q Hq)) Hr) as (Hrq & Hrest & Hinc).
    unfold req_quiet in Hrq; simpl in Hrq. destruct rq as [|v|ch]; [done| |done].
    apply andb_true_iff in Hrq as [Hv Hfs].
    set (rp := if ok then RpAdded v else RpErr (RqSAdd v)).
    assert (Hw' : exists r', rs_subs r' = [] /\
              w' = set_conns (set_redis w r') (<[c := mkConnQ rest (cq_incoming q ++ [IReply rp fs])]> (w_conns w))).
    { destruct ok; simpl in Hs.
      - destruct (sAdd (w_redis w) (CACHE_KEY (w_cache w)) v) as [r' added] eqn:Ha'.
        pose proof (sAdd_keyspace (w_redis w) (CACHE_KEY (w_cache w)) v) as [_ Hsub']. rewrite Ha' in Hsub'.
        simpl in Hsub'. rewrite keyspace_notifications_nil in Hs by congruence.
        exists r'. split; [congruence|]. destruct added; by injection Hs as <-.
      - exists (w_redis w). split; [done|]. by injection Hs as <-. }
    destruct Hw' as (r' & Hr' & ->).
    assert (Hd' : degraded x (set_redis w r') = true)
      by (apply degraded_spec; simpl; repeat split; done).
    apply (degraded_set_conn x (set_redis w r') c). exact Hd'.
    unfold connq_quiet; simpl. rewrite Hrest, forallb_app, Hinc. simpl.
    unfold rp. destruct ok; simpl; rewrite Hfs; [rewrite Hv|]; done.
  - unfold client_step in Hs. destruct (w_conns w !! c) as [q|] eqn:Hq; simpl in Hs; [|done].
    destruct (cq_incoming q) as [|i rest] eqn:Hi; [done|]. injection Hs as <-.
    destruct (proj2 (connq_quiet_pop x q (RqSMembers, []) [] i rest (Hc c q Hq)) Hi) as [Hiq Hq1].
    pose proof (degraded_set_conn x w c _ Hd Hq1) as Hd1.
    set (w1 := set_conns w (<[c := mkConnQ (cq_requests q) rest]> (w_conns w))) in *.
    destruct i as [rp fs|ch msg].
    + change (w_cache w1) with (w_cache w).
      destruct (resume_quiet x (w_cache w) rp fs Hiq Hx) as [Hx' Hk].
      destruct (resume (w_cache w) rp) as [cache' o]. simpl in Hx', Hk.
      apply andb_true_iff in Hiq as [_ Hfs].
      rewrite (degraded_same x (set_cache w1 cache') _ (unwind_quiet _ o fs Hfs)).
      apply degraded_spec in Hd1 as (_ & ? & ? & ? & ?). apply degraded_spec. simpl. rewrite Hk.
      unfold mirror; simpl. done.
    + simpl in Hiq. apply bool_decide_eq_true in Hiq. unfold listener. by rewrite decide_False.
  - unfold task_step in Hs. destruct (w_tasks w !! i) as [t|] eqn:Hti; simpl in Hs; [|done].
    injection Hs as <-. pose proof (forallb_lookup _ _ _ _ Ht Hti) as Htq.
    unfold task_quiet in Htq. destruct t as [[|o] fs]; simpl in Htq; [done|]. cbn [fst snd].
    rewrite (degraded_same x _ _ (unwind_quiet _ o fs Htq)).
    apply degraded_spec. simpl. do 4 (split; [done|]). by apply forallb_delete.
  - injection Hs as <-. unfold ext_sadd.
    pose proof (sAdd_keyspace (w_redis w) k v) as [_ Hsub'].
    destruct (sAdd (w_redis w) k v) as [r' added]. simpl in Hsub'.
    rewrite keyspace_notifications_nil by congruence. destruct added; apply degraded_spec; simpl;
      split_and!; first [exact Hx | exact Hcmd | exact Hc | exact Ht | congruence].
  - unfold ext_event in Hs. case_decide; [done|]. injection Hs as <-.
    rewrite keyspace_notifications_nil by done. exact Hd.
  - injection Hs as <-. unfold bulkCheck. simpl. destruct Hcmd as [c Hcmd]. rewrite Hcmd. exact Hd.
Qed.

Lemma run_degraded (x : string) (w w' : World) (acts : list Action) :
  degraded x w = true -> Forall (fun a => is_addPool a = false) acts -> w -[ acts ]-> w' ->
  degraded x w' = true.
Proof.
  revert w. induction acts as [|a acts IH]; intros w Hd Ha Hr.
  - by injection Hr as <-.
  - apply run_cons in Hr as (w1 & Hs & Hr). apply Forall_cons in Ha as [Ha1 Ha].
    exact (IH w1 (step_degraded x w w1 a Hd Ha1 Hs) Ha Hr).
Qed.

Lemma run_remote (x : string) (w w' : World) (acts : list Action) :
  x ∈ remote w -> w -[ acts ]-> w' -> x ∈ remote w'.
Proof.
  intros Hx Hr. assert (Hg : grows w w')
    by (revert Hr; apply run_relation; [apply grows_refl | apply grows_trans | intros s a s'; apply step_grows]).
  destruct Hg as (_ & Hk & Hs).
  unfold remote in *. rewrite Hk. by apply Hs.
Qed.

(** ** Properties *)

(** C23: A degraded instance stays frozen: once the subscription has
    failed, a member [x] that another process added after the last load
    stays in the store and out of the mirror under every later schedule
    without the instance's own [addPool] (queries, failures, writes and
    events of other processes), and every query then settles at once
    with an answer that lacks [x]. *)
Theorem degraded_mirror_frozen (x : string) (w w' : World) (acts : list Action) :
  degraded x w = true -> x ∈ remote w -> Forall (fun a => is_addPool a = false) acts ->
  w -[ acts ]-> w' ->
  x ∈ remote w' /\ x ∉ mirror w' /\
  forall addresses, exists s,
    step w' (ABulkCheck addresses) = Some (settle (fresh_id w') (w_next_id w') (Ok (VSet s))) /\ x ∉ s.
Proof.
  intros Hd Hx Ha Hr. pose proof (run_degraded x w w' acts Hd Ha Hr) as (Hx' & _ & [c Hc] & _)%degraded_spec.
  split; [exact (run_remote x w w' acts Hx Hr)|]. split; [exact Hx'|].
  intros addresses. exists (bulkCheck_result (mirror w') addresses). split.
  - simpl. unfold bulkCheck. simpl. by rewrite Hc.
  - intros Hin. by apply Hx', (bulkCheck_result_subset _ addresses).
Qed.

(** Later, a checksummed query of the wallet, an unrelated event and a
    second wallet added by another process. *)
Lemma degraded_mirror_frozen_witness :
  degraded "0xbbb" (wallet_after subscribe_failure) = true /\
  "0xbbb" ∈ remote (wallet_after subscribe_failure) /\
  exists w', wallet_after subscribe_failure -[ [ABulkCheck ["0xBBB"]; AExtEvent "clave:wallets" "expire";
                                                AExtSAdd "clave:wallets" "0xccc"] ]-> w' /\
    "0xbbb" ∈ remote w' /\ "0xbbb" ∉ mirror w'.
Proof.
  assert (Hd : degraded "0xbbb" (wallet_after subscribe_failure) = true) by (vm_compute; reflexivity).
  assert (Hx : "0xbbb" ∈ remote (wallet_after subscribe_failure)) by decide_by_eval.
  assert (Ha : Forall (fun a => is_addPool a = false)
                 [ABulkCheck ["0xBBB"]; AExtEvent "clave:wallets" "expire"; AExtSAdd "clave:wallets" "0xccc"])
    by (repeat constructor).
  set (acts := [ABulkCheck ["0xBBB"]; AExtEvent "clave:wallets" "expire"; AExtSAdd "clave:wallets" "0xccc"]).
  assert (E : wallet_after subscribe_failure -[ acts ]->
                default (wallet_after subscribe_failure) (run (wallet_after subscribe_failure) acts))
    by (vm_compute; reflexivity).
  split; [exact Hd|]. split; [exact Hx|].
  exists (default (wallet_after subscribe_failure) (run (wallet_after subscribe_failure) acts)).
  split; [exact E|].
  destruct (degraded_mirror_frozen _ _ _ _ Hd Hx Ha E) as (H1 & H2 & _). split; [exact H1 | exact H2].
Defined.
