(* ===== verification/CacheBoot.v ===== *)
(** * Booting an instance, over any store

    The constructor's [initialize] (src/utils/WalletCache.ts:36-75) on its
    nominal schedule: the two connections open (numbered from the
    server's count [n]), the initial [SMEMBERS] is executed and received,
    the [SUBSCRIBE] it then sends is executed and received.  For every
    store and every key, this reaches a [ready] instance whose mirror is
    the remote set, having settled no call; composed with the
    convergence of [CacheConvergence] and the draining of
    [CacheTermination], every instance that boots this way converges
    after whatever failure-free activity follows. *)

From S2P Require Import Prelude Address RemoteStore MembershipCache CacheSpec Scenarios CacheInvariants CacheRaces CacheConvergence CacheTermination.

Open Scope string_scope.

(** ** Definitions *)

(** The nominal boot when the server has opened [n] connections before. *)
Definition boot_at (n : conn) : list Action :=
  [ATask 0 true; AServer n true; AClient n; AServer (S n) true; AClient (S n)].

(** ** Lemmas *)

(** A world whose tasks are done and whose queues are all empty is
    quiescent. *)
Lemma quiescent_intro (w : World) :
  w_tasks w = [] -> (forall c q, w_conns w !! c = Some q -> connq_idle q = true) -> quiescent w = true.
Proof.
  intros Ht Hq. unfold quiescent. rewrite Ht. apply forallb_forall. intros [c q] Hin.
  apply (Hq c q), elem_of_map_to_list, list_elem_of_In, Hin.
Qed.

Ltac sym_step :=
  apply run_cons; eexists; split;
    [unfold step_of, world_steps, step, server_step, client_step, task_step; simpl; unfold conn_of; simpl;
     repeat first [rewrite lookup_insert_eq | rewrite lookup_insert_ne by lia | rewrite lookup_empty];
     simpl; reflexivity|].

(** ** Properties *)

(** C25: Booting over any store: for every key and every state of the
    server, the constructor's [initialize] on its nominal schedule
    (connections [n] and [n + 1] open, the initial load is executed and
    received, the subscription is registered and acknowledged) reaches
    a [ready] instance whose mirror is the remote set, having settled no
    call; and from it, whatever callers, other writers and events do
    without a failing command, internal steps without failure always
    lead to a world with nothing in flight whose mirror is the remote
    set. *)
Theorem boot_ready (key : string) (r : RedisServer) :
  exists w, new_cache false key r -[ boot_at (rs_nconn r) ]-> w /\
    ready w /\ mirror w = sMembers r key /\ w_results w = [] /\
    forall acts w', Forall no_fail acts -> w -[ acts ]-> w' ->
      exists acts' w'', Forall (fun a => internal a = true /\ no_fail a) acts' /\
        w' -[ acts' ]-> w'' /\ quiescent w'' = true /\ mirror w'' = remote w''.
Proof.
  eexists. split.
  { unfold boot_at. sym_step. sym_step. sym_step. sym_step. sym_step. reflexivity. }
  match goal with |- ready ?W /\ _ => assert (Hready : ready W) end.
  { exists (rs_nconn r), (S (rs_nconn r)). simpl.
    split; [done|]. split; [done|].
    split; [rewrite lookup_insert_eq; by eexists|].
    split; [unfold subscribed; simpl; apply bool_decide_eq_true; left|].
    split; [by rewrite orb_true_r|]. split; [done|]. split; [|done].
    apply quiescent_intro; [done|]. simpl. intros c q.
    rewrite !lookup_insert. repeat case_decide; try (intros [= <-]; done). }
  split; [exact Hready|]. split; [reflexivity|]. split; [reflexivity|].
  intros acts w' Hnf Hrun. destruct (ready_steady_cover _ Hready) as (c & s & Hst & Hcov).
  destruct (run_steady_cover _ w' acts c s Hnf Hst Hcov Hrun) as [Hst' Hcov'].
  destruct (drain w') as (acts' & w'' & Hall & Hrun' & Hq & _).
  assert (Hnf' : Forall no_fail acts') by (eapply Forall_impl; [exact Hall | intros x [_ Hx]; exact Hx]).
  destruct (run_steady_cover w' w'' acts' c s Hnf' Hst' Hcov' Hrun') as [_ Hcov''].
  exists acts', w''. do 3 (split; [done|]). exact (quiescent_cover w'' c Hq Hcov'').
Qed.
