(* ===== verification/CacheIsolation.v ===== *)
(** * Two instances on one server: key isolation

    The service runs two instances of the class on the same Redis server,
    [walletCache] on ["clave:wallets"] and [syncswapCache] on
    ["syncswap:pools"] (src/utils/WalletCache.ts, SyncswapCache.ts).  Seen
    from one instance, what the other one does to the store is an external
    write on another key ([AExtSAdd], [AExtEvent]).  The instance
    subscribes to the keyspace channel of its own key only
    ([subscribeToSetOperations], WalletCache.ts:91-107), and the server
    publishes an event on key [k] only to the subscribers of [k]'s channel
    ([RemoteStore.keyspace_notifications]).

    [isolated n0 key w] is the invariant that makes the two instances
    independent: every connection the instance holds or queues on was
    opened after the [n0] connections the server had when the instance was
    built, every [SUBSCRIBE] it queues names its own channel, and every
    subscription of the server on one of its connections is to that
    channel.  It holds in every reachable world when the server's earlier
    subscriptions are on earlier connections ([server_wf]); hence the
    writes of the other instance change the store and nothing of this
    instance ([other_key_writes_isolated]). *)

From S2P Require Import Prelude Address RemoteStore MembershipCache CacheSpec Scenarios CacheInvariants CacheRaces CacheConvergence CacheCalls.

Open Scope string_scope.

(** ** Definitions *)

(** A server whose subscriptions are all on connections it has opened. *)
Definition server_wf (r : RedisServer) : Prop :=
  forall c ch, (c, ch) ∈ rs_subs r -> c < rs_nconn r.

(** A command that subscribes only to the channel of [key]. *)
Definition req_scoped (key : string) (rq : Req) : Prop :=
  forall ch, rq = RqSubscribe ch -> ch = server_keyspace_channel 0 key.

Definition isolated (n0 : nat) (key : string) (w : World) : Prop :=
  CACHE_KEY (w_cache w) = key /\ n0 <= rs_nconn (w_redis w) /\
  (forall c, redisCommand (w_cache w) = Some c \/ redisSub (w_cache w) = Some c -> n0 <= c) /\
  (forall c q, w_conns w !! c = Some q ->
     n0 <= c /\ forall rq fs, (rq, fs) ∈ cq_requests q -> req_scoped key rq) /\
  (forall c ch, (c, ch) ∈ rs_subs (w_redis w) -> n0 <= c -> ch = server_keyspace_channel 0 key).

(** ** Lemmas *)

Section Isolation.
Context (n0 : nat) (key : string).

Lemma server_keyspace_channel_inj (k k' : string) :
  server_keyspace_channel 0 k = server_keyspace_channel 0 k' -> k = k'.
Proof. unfold server_keyspace_channel. intros H. by apply (inj _), (inj _), (inj _) in H. Qed.

Lemma push_all_lookup_inv (cs : gmap conn ConnQ) (ns : list (conn * string * string)) (c : conn) (q' : ConnQ) :
  push_all cs ns !! c = Some q' -> exists q, cs !! c = Some q /\ cq_requests q' = cq_requests q.
Proof.
  intros Hq'. destruct (push_all_dom_inv cs ns c) as [q Hq]; [by eexists|].
  exists q. split; [done|]. pose proof (push_all_requests cs ns c) as E. by rewrite Hq', Hq in E.
Qed.

(** Messages to connections a map does not hold are dropped. *)
Lemma push_all_absent (cs : gmap conn ConnQ) (ns : list (conn * string * string)) :
  (forall c ch ev, (c, ch, ev) ∈ ns -> cs !! c = None) -> push_all cs ns = cs.
Proof.
  revert cs. induction ns as [|[[c ch] ev] ns IH]; intros cs Hn; simpl; [done|].
  rewrite (Hn c ch ev) by (apply elem_of_cons; by left). apply IH. intros c' ch' ev' Hin.
  apply (Hn c' ch' ev'), elem_of_cons. by right.
Qed.

Lemma isolated_same (w w' : World) :
  isolated n0 key w ->
  CACHE_KEY (w_cache w') = CACHE_KEY (w_cache w) -> rs_nconn (w_redis w') = rs_nconn (w_redis w) ->
  rs_subs (w_redis w') = rs_subs (w_redis w) ->
  redisCommand (w_cache w') = redisCommand (w_cache w) -> redisSub (w_cache w') = redisSub (w_cache w) ->
  (forall c q', w_conns w' !! c = Some q' ->
     exists q, w_conns w !! c = Some q /\ forall x, x ∈ cq_requests q' -> x ∈ cq_requests q) ->
  isolated n0 key w'.
Proof.
  intros (Hk & Hn & Hcs & Hq & Hsubs) Ek En Es Ec Esub Hd. unfold isolated.
  rewrite Ek, En, Es, Ec, Esub. do 3 (split; [done|]). split; [|done].
  intros c q' Hq'. destruct (Hd c q' Hq') as (q & Hlq & Hsub). destruct (Hq c q Hlq) as [Hc Hr].
  split; [done|]. intros rq fs Hin. by apply (Hr rq fs), Hsub.
Qed.

Lemma publish_isolated (w : World) (r : RedisServer) (ns : list (conn * string * string)) :
  isolated n0 key w -> rs_nconn r = rs_nconn (w_redis w) -> rs_subs r = rs_subs (w_redis w) ->
  isolated n0 key (publish (set_redis w r) ns).
Proof.
  intros Hw En Es. apply (isolated_same w); try done.
  intros c q' (q & Hq & E)%push_all_lookup_inv. exists q. simpl in Hq. by rewrite E.
Qed.

Lemma send_isolated (w : World) (oc : option conn) (rq : Req) (fs : list Frame) (o : Outcome) :
  isolated n0 key w -> (forall c, oc = Some c -> n0 <= c) -> req_scoped key rq ->
  isolated n0 key (send w oc rq fs o).
Proof.
  intros Hw Hoc Hrq. destruct oc as [c|]; simpl; [|exact Hw].
  destruct Hw as (Hk & Hn & Hcs & Hq & Hsubs). do 3 (split; [done|]). split; [|done].
  intros c' q'. simpl. rewrite lookup_insert. case_decide as E; [|apply Hq].
  intros [= <-]. subst c'. split; [by apply Hoc|]. intros rq' fs'. simpl.
  rewrite elem_of_app, list_elem_of_singleton. intros [Hin|[= -> ->]]; [|done].
  unfold conn_of in Hin. destruct (w_conns w !! c) as [q|] eqn:Hl; simpl in Hin.
  - exact (proj2 (Hq c q Hl) rq' fs' Hin).
  - by apply not_elem_of_nil in Hin.
Qed.

Lemma subscribeToSetOperations_isolated (w : World) (fs : list Frame) :
  isolated n0 key w -> isolated n0 key (subscribeToSetOperations w fs).
Proof.
  intros Hw. pose proof Hw as (Hk & _ & Hcs & _). apply send_isolated; [done| |].
  - intros c Hc. apply Hcs. by right.
  - intros ch [= <-]. by rewrite keyspaceChannel_server, Hk.
Qed.

Lemma unwind_isolated (w : World) (o : Outcome) (fs : list Frame) :
  isolated n0 key w -> isolated n0 key (unwind w o fs).
Proof.
  revert w o. induction fs as [|f rest IH]; intros w o Hw; simpl; [done|].
  destruct f, o as [v|]; simpl; try (apply IH; done). by apply subscribeToSetOperations_isolated.
Qed.

Lemma updateInMemoryCache_isolated (w : World) (fs : list Frame) :
  isolated n0 key w -> isolated n0 key (updateInMemoryCache w fs).
Proof.
  intros Hw. pose proof Hw as (_ & _ & Hcs & _). apply send_isolated; [done| |by intros ch].
  intros c Hc. apply Hcs. by left.
Qed.

Lemma initialize_connected_isolated (w : World) (fs : list Frame) :
  isolated n0 key w -> isolated n0 key (initialize_connected w fs).
Proof.
  intros (Hk & Hn & Hcs & Hq & Hsubs). unfold initialize_connected. cbn [getRedisInstance].
  apply updateInMemoryCache_isolated. split; [done|]. simpl. split; [lia|].
  split; [intros c [[= <-]|[= <-]]; lia|]. split; [|done].
  intros c q. rewrite !lookup_insert. case_decide; [intros [= <-]; split; [lia|]; intros rq fs' Hin; by apply not_elem_of_nil in Hin|].
  case_decide; [intros [= <-]; split; [lia|]; intros rq fs' Hin; by apply not_elem_of_nil in Hin|].
  apply Hq.
Qed.

Lemma exec_req_subs (r : RedisServer) (c : conn) (rq : Req) :
  n0 <= c -> req_scoped key rq ->
  (forall c' ch, (c', ch) ∈ rs_subs r -> n0 <= c' -> ch = server_keyspace_channel 0 key) ->
  forall c' ch, (c', ch) ∈ rs_subs (exec_req r key c rq).1.1 -> n0 <= c' -> ch = server_keyspace_channel 0 key.
Proof.
  intros Hc Hrq Hsubs c' ch. destruct rq as [|v|ch0]; simpl.
  - apply Hsubs.
  - destruct (sAdd_keyspace r key v) as [_ Es]. destruct (sAdd r key v) as [r' added] eqn:Ha.
    simpl in Es |- *. rewrite Es. apply Hsubs.
  - unfold subscribe; simpl. intros [[= -> ->]|Hin]%elem_of_cons; [intros _; exact (Hrq _ eq_refl)|]. by apply Hsubs.
Qed.

Lemma sAdd_nconn (r : RedisServer) (k v : string) : rs_nconn (sAdd r k v).1 = rs_nconn r.
Proof. unfold sAdd. by case_decide. Qed.

Lemma step_isolated (w w' : World) (a : Action) :
  isolated n0 key w -> step w a = Some w' -> isolated n0 key w'.
Proof.
  intros Hw Hs. pose proof Hw as (Hk & Hn & Hcs & Hq & Hsubs).
  destruct a; simpl in Hs.
  - unfold server_step in Hs. destruct (w_conns w !! c) as [q|] eqn:Hl; simpl in Hs; [|done].
    destruct (cq_requests q) as [|[rq fs] rest] eqn:Hr; [done|]. destruct (Hq c q Hl) as [Hc Hrq].
    rewrite Hr in Hrq. rewrite Hk in Hs.
    destruct (if ok then exec_req (w_redis w) key c rq else (w_redis w, RpErr rq, []))
      as [[r' rp] ns] eqn:Hex. injection Hs as <-.
    split; [done|]. simpl.
    assert (Er : rs_nconn r' = rs_nconn (w_redis w) /\
                 forall c' ch, (c', ch) ∈ rs_subs r' -> n0 <= c' -> ch = server_keyspace_channel 0 key).
    { destruct ok; [|injection Hex as <- _ _; by split].
      pose proof (exec_req_nconn (w_redis w) key c rq) as E1.
      pose proof (exec_req_subs (w_redis w) c rq Hc (Hrq rq fs ltac:(by apply elem_of_cons; left)) Hsubs) as E2.
      rewrite Hex in E1, E2. by split. }
    destruct Er as [Er Es]. rewrite Er. do 2 (split; [done|]). split; [|done].
    intros c' q' (q0 & Hq0 & E)%push_all_lookup_inv. rewrite E. revert Hq0.
    rewrite lookup_insert. case_decide; [intros [= <-]; subst c'; split; [done|]|apply Hq].
    intros rq' fs' Hin. apply (Hrq rq' fs'). simpl in Hin. by apply elem_of_cons; right.
  - unfold client_step in Hs. destruct (w_conns w !! c) as [q|] eqn:Hl; simpl in Hs; [|done].
    destruct (cq_incoming q) as [|i rest]; [done|]. injection Hs as <-.
    set (w1 := set_conns w (<[c := mkConnQ (cq_requests q) rest]> (w_conns w))).
    assert (H1 : isolated n0 key w1).
    { apply (isolated_same w); try done. intros c' q'. simpl. rewrite lookup_insert.
      case_decide; [intros [= <-]; subst c'; by exists q|]. intros Hq'. by exists q'. }
    destruct i as [rp fs|ch msg].
    + change (w_cache w1) with (w_cache w). destruct (resume_key (w_cache w) rp) as (E0 & E1 & E2).
      destruct (resume (w_cache w) rp) as [cache' o]. simpl in E0, E1, E2. apply unwind_isolated.
      apply (isolated_same w1); try done. intros c' q' Hq'. by exists q'.
    + unfold listener. case_decide; [|done]. by apply updateInMemoryCache_isolated.
  - unfold task_step in Hs. destruct (w_tasks w !! i) as [[p fs]|]; simpl in Hs; [|done].
    injection Hs as <-. destruct p; [destruct ok|];
      [apply initialize_connected_isolated | apply unwind_isolated | apply unwind_isolated]; done.
  - injection Hs as <-. unfold ext_sadd. destruct (sAdd_keyspace (w_redis w) k v) as [_ Es].
    pose proof (sAdd_nconn (w_redis w) k v) as En.
    destruct (sAdd (w_redis w) k v) as [r' added]. by apply publish_isolated.
  - unfold ext_event in Hs. case_decide; [done|]. injection Hs as <-.
    change (publish w ?ns) with (publish (set_redis w (w_redis w)) ns). by apply publish_isolated.
  - injection Hs as <-. unfold bulkCheck, initialize. simpl. by repeat case_match.
  - injection Hs as <-. unfold callAddPool, addPool. apply send_isolated; [done| |by intros ch].
    intros c Hc. apply Hcs. by left.
Qed.

Lemma run_isolated (w w' : World) (acts : list Action) :
  isolated n0 key w -> w -[ acts ]-> w' -> isolated n0 key w'.
Proof. apply run_invariant. intros s a s'. apply step_isolated. Qed.

(** The events on another key reach none of the instance's connections. *)
Lemma notifications_other_key (w : World) (r : RedisServer) (k ev : string) :
  isolated n0 key w -> rs_subs r = rs_subs (w_redis w) -> k <> key ->
  push_all (w_conns w) (keyspace_notifications r k ev) = w_conns w.
Proof.
  intros (_ & _ & _ & Hq & Hsubs) Es Hne. apply push_all_absent. intros c ch ev' Hin.
  unfold keyspace_notifications in Hin. destruct (rs_keyspace r); [|by apply not_elem_of_nil in Hin].
  apply list_elem_of_fmap in Hin as ([c0 ch0] & [= -> -> ->] & Hin).
  apply list_elem_of_filter in Hin as [Hch Hin]. simpl in Hch |- *. rewrite Es in Hin.
  destruct (w_conns w !! c0) as [q|] eqn:Hl; [|done].
  destruct (Hq c0 q Hl) as [Hc _]. pose proof (Hsubs c0 ch0 Hin Hc) as E.
  rewrite Hch in E. by apply server_keyspace_channel_inj in E.
Qed.
End Isolation.

Lemma new_cache_isolated (test : bool) (key : string) (r : RedisServer) :
  server_wf r -> isolated (rs_nconn r) key (new_cache test key r).
Proof.
  intros Hr. unfold new_cache, initialize. destruct test; simpl;
    (split; [done|]); (split; [done|]); (split; [intros c [[=]|[=]]|]);
    (split; [intros c q; simpl; rewrite ?lookup_empty; done|]);
    intros c ch Hin Hc; pose proof (Hr c ch Hin); lia.
Qed.

(** ** Properties *)

(** C28: Key isolation between the instances sharing the server: in every
    world an instance reaches from a server whose subscriptions are on
    connections it has opened, a write of the other instance, an [SADD]
    on another key, changes the store and nothing else of this instance
    (no message reaches its connections, its mirror, calls and tasks are
    untouched), and an event other than ["sadd"] on another key leaves
    the whole world unchanged. *)
Theorem other_key_writes_isolated (test : bool) (key : string) (r : RedisServer) (w : World)
    (k v ev : string) :
  reachable test key r w -> server_wf r -> k <> key ->
  ext_sadd w k v = set_redis w (sAdd (w_redis w) k v).1 /\
  (ev <> "sadd" -> ext_event w k ev = Some w).
Proof.
  intros [acts Hrun] Hr Hne. pose proof (run_isolated _ _ _ _ _ (new_cache_isolated test key r Hr) Hrun) as Hw.
  split.
  - unfold ext_sadd. destruct (sAdd_keyspace (w_redis w) k v) as [_ Es].
    destruct (sAdd (w_redis w) k v) as [r' added]. simpl in Es |- *. unfold publish. simpl.
    destruct added; [|by destruct w].
    rewrite (notifications_other_key _ key w r' k "sadd" Hw Es Hne). by destruct w.
  - intros Hev. unfold ext_event. rewrite decide_False by done. f_equal. unfold publish.
    rewrite (notifications_other_key _ key w (w_redis w) k ev Hw eq_refl Hne). by destruct w.
Qed.

(** ** Witnesses *)

(** The booted wallet cache (subscribed to its channel) and a write of the
    pool cache. *)
Lemma other_key_writes_isolated_witness :
  reachable false "clave:wallets" store0 (wallet_after boot) /\ server_wf store0 /\
  "syncswap:pools" <> "clave:wallets" /\
  ext_sadd (wallet_after boot) "syncswap:pools" "0xbbb" =
    set_redis (wallet_after boot) (sAdd (w_redis (wallet_after boot)) "syncswap:pools" "0xbbb").1 /\
  ("del" <> "sadd" -> ext_event (wallet_after boot) "syncswap:pools" "del" = Some (wallet_after boot)).
Proof.
  assert (Hr : reachable false "clave:wallets" store0 (wallet_after boot)) by (exists boot; vm_compute; reflexivity).
  assert (Hwf : server_wf store0) by (intros c ch Hin; by apply not_elem_of_nil in Hin).
  assert (Hne : "syncswap:pools" <> "clave:wallets") by done.
  split; [exact Hr|]. split; [exact Hwf|]. split; [exact Hne|].
  exact (other_key_writes_isolated false "clave:wallets" store0 _ "syncswap:pools" "0xbbb" "del" Hr Hwf Hne).
Defined.
