(* ===== verification/ERC20Handler.v ===== *)
(** * The ERC20 transfer handler

    src/ERC20Handler.ts registers a loader and a handler for every ERC20
    [Transfer] event.  The loader pre-fetches the two parties' balance
    records and accounts and asks the two caches which parties are Clave
    wallets and whether the token is a Syncswap pool; the handler filters
    the event (self transfers, transfers without a wallet, transfers of
    protocol tokens), creates missing accounts, and [PlainTransferHandler]
    debits the sender, credits the receiver and writes four time-bucketed
    snapshots per party ([setHistoricalBalance]).

    The entity store is a record of [gmap]s keyed by entity id; [set] is
    [<[id := entity]>].  The caches enter through [MembershipOracle]
    (CacheSpec): the theorems hold for any implementation of
    [bulkCheck..] with that contract.  [roundTimestamp]
    (src/utils/helpers.ts) and the protocol address lists
    (src/constants/) are not among the staged sources: they are the
    section's parameters. *)

From S2P Require Import Prelude Address CacheSpec.

Open Scope string_scope.
Open Scope Z_scope.

(** ** Entities (the generated schema) *)

Record Account := mkAccount { acc_id : string; acc_address : string }.

Record AccountIdleBalance := mkAccountIdleBalance {
  aib_id : string; aib_balance : Z; aib_address : string; aib_token : string }.

Record HistoricalBalance := mkHistoricalBalance {
  h_id : string; h_balance : Z; h_address : string; h_token : string; h_timestamp : Z }.

Record DB := mkDB {
  db_Account : gmap string Account;
  db_AccountIdleBalance : gmap string AccountIdleBalance;
  db_Hist4Hours : gmap string HistoricalBalance;
  db_Hist1Day : gmap string HistoricalBalance;
  db_Hist1Week : gmap string HistoricalBalance;
  db_Hist1Month : gmap string HistoricalBalance
}.

Record Event := mkEvent {
  params_from : string; params_to : string; params_value : Z;
  srcAddress : string; block_timestamp : Z }.

Record LoaderReturn := mkLoaderReturn {
  senderBalance : option AccountIdleBalance;
  receiverBalance : option AccountIdleBalance;
  claveAddresses : gset string;
  senderAccount : option Account;
  receiverAccount : option Account;
  syncswapPools : gset string
}.

(** [process.env.NODE_ENV == "test"] and [process.env.TEST_MODE == "syncswap"]. *)
Record Env := mkEnv { NODE_ENV_test : bool; TEST_MODE_syncswap : bool }.

(** JavaScript's [String(n)] on an integral number below 1e21. *)
Definition numberToString (n : Z) : string := pretty n.

(** [address.toLowerCase() + token.toLowerCase()]: the id of a balance. *)
Definition balance_id (address token : string) : string :=
  toLowerCase address ++ toLowerCase token.

(** ** Store updates *)

Definition set_Account (a : Account) (db : DB) : DB :=
  mkDB (<[acc_id a := a]> (db_Account db)) (db_AccountIdleBalance db) (db_Hist4Hours db)
    (db_Hist1Day db) (db_Hist1Week db) (db_Hist1Month db).

Definition set_AccountIdleBalance (b : AccountIdleBalance) (db : DB) : DB :=
  mkDB (db_Account db) (<[aib_id b := b]> (db_AccountIdleBalance db)) (db_Hist4Hours db)
    (db_Hist1Day db) (db_Hist1Week db) (db_Hist1Month db).

Definition set_Hist4Hours (h : HistoricalBalance) (db : DB) : DB :=
  mkDB (db_Account db) (db_AccountIdleBalance db) (<[h_id h := h]> (db_Hist4Hours db))
    (db_Hist1Day db) (db_Hist1Week db) (db_Hist1Month db).
Definition set_Hist1Day (h : HistoricalBalance) (db : DB) : DB :=
  mkDB (db_Account db) (db_AccountIdleBalance db) (db_Hist4Hours db)
    (<[h_id h := h]> (db_Hist1Day db)) (db_Hist1Week db) (db_Hist1Month db).
Definition set_Hist1Week (h : HistoricalBalance) (db : DB) : DB :=
  mkDB (db_Account db) (db_AccountIdleBalance db) (db_Hist4Hours db)
    (db_Hist1Day db) (<[h_id h := h]> (db_Hist1Week db)) (db_Hist1Month db).
Definition set_Hist1Month (h : HistoricalBalance) (db : DB) : DB :=
  mkDB (db_Account db) (db_AccountIdleBalance db) (db_Hist4Hours db)
    (db_Hist1Day db) (db_Hist1Week db) (<[h_id h := h]> (db_Hist1Month db)).

Definition set_claveAddresses (lr : LoaderReturn) (s : gset string) : LoaderReturn :=
  mkLoaderReturn (senderBalance lr) (receiverBalance lr) s (senderAccount lr)
    (receiverAccount lr) (syncswapPools lr).
Definition set_syncswapPools (lr : LoaderReturn) (s : gset string) : LoaderReturn :=
  mkLoaderReturn (senderBalance lr) (receiverBalance lr) (claveAddresses lr) (senderAccount lr)
    (receiverAccount lr) s.

Section Handler.
(** [roundTimestamp(timestamp, interval?)] of src/utils/helpers.ts;
    [None] is the call without an interval. *)
Context (roundTimestamp : Z -> option Z -> Z).
(** src/constants/ClaggAddresses.ts, VenusPools.ts, AavePools.ts. *)
Context (ClaggMainAddress : string) (VenusPoolAddresses AavePoolAddresses : list string).
(** The two caches, through the contract of [bulkCheck..]. *)
Context {QW QP : Type} `{MembershipOracle QW} `{MembershipOracle QP}.
Context (wallets : QW) (pools : QP).

(** [setHistoricalBalance(accountObject, context, timestamp)] *)
Definition snapshot (a : AccountIdleBalance) (t : Z) : HistoricalBalance :=
  mkHistoricalBalance (aib_id a ++ numberToString t) (aib_balance a) (aib_address a)
    (aib_token a) t.

Definition setHistoricalBalance (a : AccountIdleBalance) (db : DB) (timestamp : Z) : DB :=
  let db := set_Hist4Hours (snapshot a (roundTimestamp timestamp (Some (3600 * 4)))) db in
  let db := set_Hist1Day (snapshot a (roundTimestamp timestamp None)) db in
  let db := set_Hist1Week (snapshot a (roundTimestamp timestamp (Some (86400 * 7)))) db in
  set_Hist1Month (snapshot a (roundTimestamp timestamp (Some (86400 * 30)))) db.

(** The balance record before the transfer: the loaded one, or zero. *)
Definition previousBalance (party : string) (event : Event) (loaded : option AccountIdleBalance)
    : AccountIdleBalance :=
  mkAccountIdleBalance (balance_id party (srcAddress event))
    (match loaded with None => 0 | Some b => aib_balance b end)
    (toLowerCase party) (toLowerCase (srcAddress event)).

Definition with_balance (a : AccountIdleBalance) (v : Z) : AccountIdleBalance :=
  mkAccountIdleBalance (aib_id a) v (aib_address a) (aib_token a).

(** [PlainTransferHandler(event, context, loaderReturn)] *)
Definition PlainTransferHandler (event : Event) (db : DB) (lr : LoaderReturn) : DB :=
  let db :=
    if decide (toLowerCase (params_from event) ∈ claveAddresses lr) then
      let prev := previousBalance (params_from event) event (senderBalance lr) in
      let db := set_AccountIdleBalance (with_balance prev (aib_balance prev - params_value event)) db in
      setHistoricalBalance prev db (block_timestamp event)
    else db in
  if decide (toLowerCase (params_to event) ∈ claveAddresses lr) then
    let prev := previousBalance (params_to event) event (receiverBalance lr) in
    let db := set_AccountIdleBalance (with_balance prev (aib_balance prev + params_value event)) db in
    setHistoricalBalance prev db (block_timestamp event)
  else db.

(** The [loader] of [ERC20.Transfer.handlerWithLoader], once the two
    cache calls have answered [claveAddresses] and [syncswapPools] (the
    entity reads cannot fail). *)
Definition loader_with (db : DB) (event : Event) (claveAddresses syncswapPools : gset string)
    : LoaderReturn :=
  let from := toLowerCase (params_from event) in
  let to := toLowerCase (params_to event) in
  let src := toLowerCase (srcAddress event) in
  mkLoaderReturn
    (db_AccountIdleBalance db !! (from ++ src))
    (db_AccountIdleBalance db !! (to ++ src))
    claveAddresses
    (db_Account db !! from)
    (db_Account db !! to)
    syncswapPools.

(** The loader with the caches' contract: [bulkCheck..([from, to])] and
    [bulkCheck..([src])] on the two oracles. *)
Definition loader (db : DB) (event : Event) : LoaderReturn :=
  loader_with db event
    (oracle_check wallets [toLowerCase (params_from event); toLowerCase (params_to event)])
    (oracle_check pools [toLowerCase (srcAddress event)]).

(** Create the account of a Clave party that has none. *)
Definition create_account (loaded : option Account) (party : string) (clave : gset string)
    (db : DB) : DB :=
  if (bool_decide (loaded = None) && bool_decide (party ∈ clave))%bool
  then set_Account (mkAccount party party) db else db.

(** The [handler]; the writes to [loaderReturn] are threaded to
    [PlainTransferHandler], which reads them back. *)
Definition handler (env : Env) (db : DB) (event : Event) (lr : LoaderReturn) : DB :=
  if String.eqb (params_from event) (params_to event) then db else
  let clave := if NODE_ENV_test env
               then {[toLowerCase (params_from event); toLowerCase (params_to event)]}
               else claveAddresses lr in
  let lr := set_claveAddresses lr clave in
  if bool_decide (clave = ∅) then db else
  let fromAddress := toLowerCase (params_from event) in
  let toAddress := toLowerCase (params_to event) in
  let src := toLowerCase (srcAddress event) in
  let db := create_account (senderAccount lr) fromAddress clave db in
  let db := create_account (receiverAccount lr) toAddress clave db in
  let pools := if (NODE_ENV_test env && TEST_MODE_syncswap env)%bool
               then {[toLowerCase src]} else syncswapPools lr in
  let lr := set_syncswapPools lr pools in
  if decide (toLowerCase src ∈ pools) then db
  else if String.eqb (toLowerCase ClaggMainAddress) (toLowerCase src) then db
  else if decide (toLowerCase src ∈ VenusPoolAddresses) then db
  else if decide (toLowerCase src ∈ AavePoolAddresses) then db
  else PlainTransferHandler event db lr.

(** One event: the loader on the store before the event, then the
    handler. *)
Definition processEvent (env : Env) (db : DB) (event : Event) : DB :=
  handler env db event (loader db event).
End Handler.

(** The balance of [party] in [token] before an event: the stored one, or
    zero. *)
Definition prior_balance (db : DB) (party token : string) : Z :=
  match db_AccountIdleBalance db !! balance_id party token with
  | None => 0
  | Some b => aib_balance b
  end.

(** The sum of all balance records: what the Clave wallets hold, over
    all tokens, as far as the indexer knows. *)
Definition total_balance (db : DB) : Z := map_sumZ aib_balance (db_AccountIdleBalance db).

(** ** Concrete inputs for the witnesses *)

(** A [roundTimestamp] that rounds down to the interval (one day by
    default). *)
Definition round_down (t : Z) (interval : option Z) : Z :=
  let iv := default 86400 interval in t - t mod iv.

Definition env_prod : Env := mkEnv false false.

(** Wallet ["0xaaa"] holds 5 of token ["0xt0k"]. *)
Definition db0 : DB :=
  mkDB ∅ {[ "0xaaa0xt0k" := mkAccountIdleBalance "0xaaa0xt0k" 5 "0xaaa" "0xt0k" ]} ∅ ∅ ∅ ∅.

Definition wallets0 : gset string := {["0xaaa"; "0xbbb"]}.
Definition pools0 : gset string := {["0xp00l"]}.

(** 3 tokens from ["0xAAA"] to ["0xbbb"] at time 1000. *)
Definition ev_plain : Event := mkEvent "0xAAA" "0xbbb" 3 "0xT0K" 1000.

(** The same wallet written twice with different cases. *)
Definition ev_case_self : Event := mkEvent "0xAAA" "0xaaa" 3 "0xt0k" 1000.

(** A transfer of a Syncswap pool token. *)
Definition ev_pool : Event := mkEvent "0xaaa" "0xbbb" 3 "0xP00L" 1000.

(** 7 tokens from an outsider to the wallet ["0xBBB"], checksummed. *)
Definition ev_deposit : Event := mkEvent "0xccc" "0xBBB" 7 "0xt0k" 1000.

(** A transfer between two addresses that are not wallets. *)
Definition ev_outsiders : Event := mkEvent "0xccc" "0xddd" 3 "0xt0k" 1000.

(** Protocol addresses. *)
Definition clagg0 : string := "0xc1a99".
Definition venus0 : list string := ["0xven"].
Definition aave0 : list string := ["0xaave"].

(** ** Properties *)

Section HandlerProperties.
Context (roundTimestamp : Z -> option Z -> Z).
Context (ClaggMainAddress : string) (VenusPoolAddresses AavePoolAddresses : list string).
Context {QW QP : Type} `{MembershipOracle QW} `{MembershipOracle QP}.
Context (wallets : QW) (pools : QP).

(** The token is one the handler leaves alone. *)
Definition src_skipped (event : Event) : Prop :=
  toLowerCase (srcAddress event) ∈ oracle_members pools \/
  toLowerCase ClaggMainAddress = toLowerCase (srcAddress event) \/
  toLowerCase (srcAddress event) ∈ VenusPoolAddresses \/
  toLowerCase (srcAddress event) ∈ AavePoolAddresses.

(** The balance and snapshot tables. *)
Definition ledger (db : DB) :=
  (db_AccountIdleBalance db, db_Hist4Hours db, db_Hist1Day db, db_Hist1Week db, db_Hist1Month db).

(** What a transfer moves into the Clave wallets. *)
Definition net_flow (event : Event) : Z :=
  (if decide (toLowerCase (params_to event) ∈ oracle_members wallets) then params_value event else 0)
  - (if decide (toLowerCase (params_from event) ∈ oracle_members wallets) then params_value event else 0).

Notation PTH := (PlainTransferHandler roundTimestamp).
Notation process := (processEvent roundTimestamp ClaggMainAddress VenusPoolAddresses
                       AavePoolAddresses wallets pools).

Lemma loader_clave (db : DB) (event : Event) (x : string) :
  x ∈ claveAddresses (loader wallets pools db event) <->
  x ∈ oracle_members wallets /\
  (x = toLowerCase (params_from event) \/ x = toLowerCase (params_to event)).
Proof.
  simpl. rewrite oracle_check_spec. unfold lowercaseAddresses. simpl.
  rewrite !toLowerCase_idem. set_solver.
Qed.

Lemma loader_pools (db : DB) (event : Event) :
  toLowerCase (toLowerCase (srcAddress event)) ∈ syncswapPools (loader wallets pools db event) <->
  toLowerCase (srcAddress event) ∈ oracle_members pools.
Proof.
  simpl. rewrite oracle_check_spec, !toLowerCase_idem. unfold lowercaseAddresses. simpl.
  rewrite toLowerCase_idem. set_solver.
Qed.

Lemma ledger_setHistoricalBalance_AIB (a : AccountIdleBalance) (db : DB) (t : Z) :
  db_AccountIdleBalance (setHistoricalBalance roundTimestamp a db t) = db_AccountIdleBalance db.
Proof. done. Qed.

Lemma ledger_create_account (l : option Account) (p : string) (s : gset string) (db : DB) :
  ledger (create_account l p s db) = ledger db.
Proof. unfold create_account. by case_match. Qed.

(** The ledger after [PlainTransferHandler] depends only on the ledger
    before it. *)
Lemma PTH_ledger (event : Event) (db1 db2 : DB) (lr : LoaderReturn) :
  ledger db1 = ledger db2 -> ledger (PTH event db1 lr) = ledger (PTH event db2 lr).
Proof.
  unfold ledger. destruct db1, db2; simpl. intros [= -> -> -> -> ->].
  unfold PlainTransferHandler. by repeat case_decide.
Qed.

Lemma PTH_AIB (event : Event) (db : DB) (lr : LoaderReturn) :
  let pf := previousBalance (params_from event) event (senderBalance lr) in
  let pt := previousBalance (params_to event) event (receiverBalance lr) in
  db_AccountIdleBalance (PTH event db lr) =
    (if decide (toLowerCase (params_to event) ∈ claveAddresses lr)
     then <[aib_id pt := with_balance pt (aib_balance pt + params_value event)]> else id)
    ((if decide (toLowerCase (params_from event) ∈ claveAddresses lr)
      then <[aib_id pf := with_balance pf (aib_balance pf - params_value event)]> else id)
       (db_AccountIdleBalance db)).
Proof. unfold PlainTransferHandler. by repeat case_decide. Qed.

Lemma PTH_AIB_frame (event : Event) (db : DB) (lr : LoaderReturn) (k : string) :
  k <> balance_id (params_from event) (srcAddress event) ->
  k <> balance_id (params_to event) (srcAddress event) ->
  db_AccountIdleBalance (PTH event db lr) !! k = db_AccountIdleBalance db !! k.
Proof.
  intros Hf Ht. rewrite PTH_AIB. simpl.
  repeat case_decide; simpl; rewrite ?lookup_insert_ne by done; done.
Qed.

(** The handler either leaves the ledger alone or is
    [PlainTransferHandler] on a store with the same ledger. *)
Lemma handler_cases (env : Env) (db : DB) (event : Event) (lr : LoaderReturn) :
  ledger (handler roundTimestamp ClaggMainAddress VenusPoolAddresses AavePoolAddresses env db event lr)
    = ledger db \/
  exists db' lr', ledger db' = ledger db /\
    handler roundTimestamp ClaggMainAddress VenusPoolAddresses AavePoolAddresses env db event lr
      = PTH event db' lr'.
Proof.
  unfold handler. case_match; [by left|]. case_match; [by left|].
  repeat case_match; try (left; rewrite !ledger_create_account; done).
  all: right; eexists _, _; split; [|reflexivity]; by rewrite !ledger_create_account.
Qed.

(** The handler on a transfer that involves a wallet and a token it does
    not skip is [PlainTransferHandler] on the loaded data. *)
Lemma process_plain_ledger (env : Env) (db : DB) (event : Event) :
  NODE_ENV_test env = false -> params_from event <> params_to event ->
  toLowerCase (params_from event) ∈ oracle_members wallets \/
    toLowerCase (params_to event) ∈ oracle_members wallets ->
  ~ src_skipped event ->
  ledger (process env db event) = ledger (PTH event db (loader wallets pools db event)).
Proof.
  intros Htest Hne Hw Hskip. unfold processEvent, handler.
  rewrite (proj2 (String.eqb_neq _ _) Hne), Htest. simpl andb.
  rewrite bool_decide_eq_false_2.
  2:{ intros Hempty. destruct Hw as [Hw|Hw];
      [set (x := toLowerCase (params_from event)) | set (x := toLowerCase (params_to event))];
      assert (Hx : x ∈ claveAddresses (loader wallets pools db event))
        by (apply loader_clave; unfold x; auto);
      cbn [set_claveAddresses claveAddresses] in Hempty; rewrite Hempty in Hx; set_solver. }
  unfold src_skipped in Hskip.
  rewrite decide_False by (cbn [syncswapPools set_claveAddresses]; rewrite loader_pools; tauto).
  rewrite (proj2 (String.eqb_neq _ _)) by (rewrite toLowerCase_idem; tauto).
  rewrite !decide_False by (rewrite toLowerCase_idem; tauto).
  apply PTH_ledger. by rewrite !ledger_create_account.
Qed.

(** Lookups of the balance table after a plain transfer. *)
Lemma plain_AIB (env : Env) (db : DB) (event : Event) :
  NODE_ENV_test env = false -> params_from event <> params_to event ->
  toLowerCase (params_from event) ∈ oracle_members wallets \/
    toLowerCase (params_to event) ∈ oracle_members wallets ->
  ~ src_skipped event ->
  db_AccountIdleBalance (process env db event) =
    db_AccountIdleBalance (PTH event db (loader wallets pools db event)).
Proof. intros ????. by pose proof (process_plain_ledger env db event ltac:(done) ltac:(done) ltac:(done) ltac:(done)) as [= ? ? ? ? ?]. Qed.

(** Outside test mode a transfer between two addresses that are not
    wallets changes nothing. *)
Lemma process_outsiders (env : Env) (db : DB) (event : Event) :
  NODE_ENV_test env = false ->
  toLowerCase (params_from event) ∉ oracle_members wallets ->
  toLowerCase (params_to event) ∉ oracle_members wallets ->
  process env db event = db.
Proof.
  intros Ht Hf Hto. unfold processEvent, handler. case_match; [done|]. rewrite Ht.
  rewrite bool_decide_eq_true_2; [done|]. simpl.
  apply set_eq. intros x. split; [|set_solver].
  intros Hx%(loader_clave db event). set_solver.
Qed.

(** [PlainTransferHandler] writes no account. *)
Lemma PTH_Account (event : Event) (db : DB) (lr : LoaderReturn) :
  db_Account (PTH event db lr) = db_Account db.
Proof. unfold PlainTransferHandler. by repeat case_decide. Qed.

(** The balance records [PlainTransferHandler] changes are those of the
    parties in [claveAddresses], for the event's token. *)
Lemma PTH_AIB_changed (event : Event) (db : DB) (lr : LoaderReturn) (k : string) :
  db_AccountIdleBalance (PTH event db lr) !! k <> db_AccountIdleBalance db !! k ->
  exists p, (p = params_from event \/ p = params_to event) /\
    toLowerCase p ∈ claveAddresses lr /\ k = balance_id p (srcAddress event).
Proof.
  rewrite PTH_AIB. intros Hk.
  destruct (decide (toLowerCase (params_to event) ∈ claveAddresses lr));
    destruct (decide (toLowerCase (params_from event) ∈ claveAddresses lr)); simpl in Hk;
    rewrite ?lookup_insert in Hk; repeat case_decide; subst;
    first [done | by exists (params_to event); repeat split; auto
                | by exists (params_from event); repeat split; auto].
Qed.

Lemma create_account_AIB (l : option Account) (p : string) (s : gset string) (db : DB) :
  db_AccountIdleBalance (create_account l p s db) = db_AccountIdleBalance db.
Proof. unfold create_account. by case_match. Qed.

Lemma create_account_Account (l : option Account) (p : string) (s : gset string) (db : DB) (a : string) :
  db_Account (create_account l p s db) !! a =
    if bool_decide (a = p /\ l = None /\ p ∈ s) then Some (mkAccount p p) else db_Account db !! a.
Proof.
  unfold create_account.
  repeat case_bool_decide; simpl; rewrite ?lookup_insert; repeat case_decide; naive_solver.
Qed.

(** The handler returns the store, the store with the parties' missing
    accounts created, or [PlainTransferHandler] on the latter, with
    [claveAddresses] overridden in test mode and the loaded one
    otherwise. *)
Lemma handler_shape (env : Env) (db : DB) (event : Event) (lr : LoaderReturn) :
  let clave := if NODE_ENV_test env
               then {[toLowerCase (params_from event); toLowerCase (params_to event)]}
               else claveAddresses lr in
  let C := create_account (receiverAccount lr) (toLowerCase (params_to event)) clave
             (create_account (senderAccount lr) (toLowerCase (params_from event)) clave db) in
  let h := handler roundTimestamp ClaggMainAddress VenusPoolAddresses AavePoolAddresses env db event lr in
  ((params_from event = params_to event \/ clave = ∅) /\ h = db) \/ h = C \/
  exists lr', claveAddresses lr' = clave /\ h = PTH event C lr'.
Proof.
  cbv zeta. unfold handler. destruct (String.eqb_spec (params_from event) (params_to event)).
  { left. split; [by left | done]. }
  case_bool_decide; [left; split; [by right | done]|]. simpl. right. repeat case_match; first [by left | right; eexists; split; [|reflexivity]; done].
Qed.

(** Outside test mode the handler writes balance records and accounts
    only for the parties [claveAddresses] holds. *)
Lemma handler_writes_clave (env : Env) (db : DB) (event : Event) (lr : LoaderReturn) :
  NODE_ENV_test env = false ->
  let db' := handler roundTimestamp ClaggMainAddress VenusPoolAddresses AavePoolAddresses env db event lr in
  (forall k, db_AccountIdleBalance db' !! k <> db_AccountIdleBalance db !! k ->
     exists p, (p = params_from event \/ p = params_to event) /\
       toLowerCase p ∈ claveAddresses lr /\ k = balance_id p (srcAddress event)) /\
  (forall a, db_Account db' !! a <> db_Account db !! a -> a ∈ claveAddresses lr).
Proof.
  intros Ht. cbv zeta. pose proof (handler_shape env db event lr) as Hs. cbv zeta in Hs. rewrite Ht in Hs.
  assert (HC : forall a, db_Account (create_account (receiverAccount lr) (toLowerCase (params_to event))
                  (claveAddresses lr) (create_account (senderAccount lr) (toLowerCase (params_from event))
                  (claveAddresses lr) db)) !! a <> db_Account db !! a -> a ∈ claveAddresses lr).
  { intros a. rewrite !create_account_Account. repeat case_bool_decide; naive_solver. }
  destruct Hs as [[_ ->] | [-> | (lr' & Hlr & ->)]]; split; try done.
  - intros k. by rewrite !create_account_AIB.
  - intros k Hk. rewrite <- Hlr. revert Hk. set (C := create_account _ _ _ _). intros Hk.
    apply (PTH_AIB_changed event C). unfold C. by rewrite !create_account_AIB.
  - intros a. rewrite PTH_Account. apply HC.
Qed.

(** The [claveAddresses] the handler works with after the test-mode
    override, on the loader's answer. *)
Lemma handler_clave_spec (env : Env) (db : DB) (event : Event) (x : string) :
  x ∈ (if NODE_ENV_test env
       then {[toLowerCase (params_from event); toLowerCase (params_to event)]}
       else claveAddresses (loader wallets pools db event)) <->
  (x = toLowerCase (params_from event) \/ x = toLowerCase (params_to event)) /\
  (NODE_ENV_test env = true \/ x ∈ oracle_members wallets).
Proof. destruct (NODE_ENV_test env); [set_solver|]. rewrite loader_clave. naive_solver. Qed.

(** C6: A transfer of a token the handler does not skip between two
    distinct Clave wallets debits the sender's balance record by the
    value and credits the receiver's: each record is keyed by the
    lower-cased address and token, and an absent record counts as 0. *)
Theorem plain_transfer_balances (env : Env) (db : DB) (event : Event) :
  NODE_ENV_test env = false ->
  toLowerCase (params_from event) <> toLowerCase (params_to event) ->
  toLowerCase (params_from event) ∈ oracle_members wallets ->
  toLowerCase (params_to event) ∈ oracle_members wallets ->
  ~ src_skipped event ->
  db_AccountIdleBalance (process env db event) !! balance_id (params_from event) (srcAddress event) =
    Some (mkAccountIdleBalance (balance_id (params_from event) (srcAddress event))
            (prior_balance db (params_from event) (srcAddress event) - params_value event)
            (toLowerCase (params_from event)) (toLowerCase (srcAddress event))) /\
  db_AccountIdleBalance (process env db event) !! balance_id (params_to event) (srcAddress event) =
    Some (mkAccountIdleBalance (balance_id (params_to event) (srcAddress event))
            (prior_balance db (params_to event) (srcAddress event) + params_value event)
            (toLowerCase (params_to event)) (toLowerCase (srcAddress event))).
Proof.
  intros Ht Hne Hf Hto Hs.
  assert (Hraw : params_from event <> params_to event) by (intros E; apply Hne; by rewrite E).
  assert (Hid : balance_id (params_from event) (srcAddress event) <>
                balance_id (params_to event) (srcAddress event))
    by (intros E; apply Hne; by apply append_cancel_r in E).
  rewrite (plain_AIB env db event Ht Hraw (or_introl Hf) Hs), PTH_AIB.
  rewrite !decide_True by (apply loader_clave; auto). simpl.
  rewrite lookup_insert_ne by done. rewrite !lookup_insert_eq. done.
Qed.

(** C12: The self-transfer guard compares the raw strings
    ([event.params.from === event.params.to]) while every key is
    lower-cased: a transfer from a wallet to the same wallet written with
    a different case is not filtered, the debit is overwritten by the
    credit, and the balance grows by the value. *)
Theorem case_variant_self_transfer_credits (env : Env) (db : DB) (event : Event) :
  NODE_ENV_test env = false ->
  params_from event <> params_to event ->
  toLowerCase (params_from event) = toLowerCase (params_to event) ->
  toLowerCase (params_from event) ∈ oracle_members wallets ->
  ~ src_skipped event ->
  db_AccountIdleBalance (process env db event) !! balance_id (params_from event) (srcAddress event) =
    Some (mkAccountIdleBalance (balance_id (params_from event) (srcAddress event))
            (prior_balance db (params_from event) (srcAddress event) + params_value event)
            (toLowerCase (params_from event)) (toLowerCase (srcAddress event))).
Proof.
  intros Ht Hraw Hlow Hf Hs.
  rewrite (plain_AIB env db event Ht Hraw (or_introl Hf) Hs), PTH_AIB.
  rewrite !decide_True by (apply loader_clave; auto; rewrite <- Hlow; auto). simpl.
  unfold balance_id, prior_balance, balance_id. rewrite Hlow, !lookup_insert_eq. done.
Qed.

(** C13: A transfer from an address to itself, or, outside test mode,
    a transfer between two addresses that are not Clave wallets, leaves
    the whole store unchanged. *)
Theorem uninteresting_transfer_noop (env : Env) (db : DB) (event : Event) :
  params_from event = params_to event \/
  (NODE_ENV_test env = false /\
   toLowerCase (params_from event) ∉ oracle_members wallets /\
   toLowerCase (params_to event) ∉ oracle_members wallets) ->
  process env db event = db.
Proof.
  intros [Heq|(Ht & Hf & Hto)]; [|exact (process_outsiders env db event Ht Hf Hto)].
  unfold processEvent, handler. by rewrite Heq, String.eqb_refl.
Qed.

(** C14: Outside test mode, a transfer of a Syncswap pool token, of the
    Clagg token or of a Venus or Aave pool token changes neither a
    balance nor a snapshot (it may still create the parties' accounts). *)
Theorem skipped_token_keeps_ledger (env : Env) (db : DB) (event : Event) :
  NODE_ENV_test env = false -> src_skipped event -> ledger (process env db event) = ledger db.
Proof.
  intros Ht Hskip. unfold processEvent, handler. rewrite Ht. simpl andb.
  case_match; [done|]. case_match; [done|].
  unfold src_skipped in Hskip.
  repeat case_match; try (by rewrite !ledger_create_account); exfalso.
  all: repeat match goal with H : decide _ = _ |- _ => clear H end.
  all: cbn [syncswapPools set_claveAddresses] in *.
  all: match goal with H : _ ∉ syncswapPools _ |- _ => rewrite loader_pools in H end.
  all: rewrite ?toLowerCase_idem in *.
  all: destruct Hskip as [Hp|[Hc|[Hv|Ha]]]; try contradiction.
  all: match goal with H : String.eqb _ _ = false |- _ => apply String.eqb_neq in H end.
  all: contradiction.
Qed.

(** C15: The snapshots [PlainTransferHandler] writes hold the balance
    before the transfer ([setHistoricalBalance(previousBalance, ..)]),
    not the balance the transfer produces: the 4-hour bucket of a
    debited wallet records its prior balance. *)
Theorem snapshot_holds_previous_balance (env : Env) (db : DB) (event : Event) :
  NODE_ENV_test env = false ->
  toLowerCase (params_from event) <> toLowerCase (params_to event) ->
  toLowerCase (params_from event) ∈ oracle_members wallets ->
  ~ src_skipped event ->
  let t := roundTimestamp (block_timestamp event) (Some (3600 * 4)) in
  let id := balance_id (params_from event) (srcAddress event) ++ numberToString t in
  db_Hist4Hours (process env db event) !! id =
    Some (mkHistoricalBalance id (prior_balance db (params_from event) (srcAddress event))
            (toLowerCase (params_from event)) (toLowerCase (srcAddress event)) t).
Proof.
  intros Ht Hne Hf Hs t id.
  assert (Hraw : params_from event <> params_to event) by (intros E; apply Hne; by rewrite E).
  pose proof (process_plain_ledger env db event Ht Hraw (or_introl Hf) Hs) as [= _ -> _ _ _].
  unfold PlainTransferHandler.
  rewrite (decide_True (P := toLowerCase (params_from event) ∈
                             claveAddresses (loader wallets pools db event)))
    by (apply loader_clave; auto).
  case_decide; simpl.
  - rewrite lookup_insert_ne; [by rewrite lookup_insert_eq|].
    intros E. apply Hne. unfold id in E. apply append_cancel_r, append_cancel_r in E. done.
  - by rewrite lookup_insert_eq.
Qed.

(** C7: Whatever the event and the mode, the handler writes no balance
    record other than the sender's and the receiver's for the event's
    token. *)
Theorem transfer_frame (env : Env) (db : DB) (event : Event) (k : string) :
  k <> balance_id (params_from event) (srcAddress event) ->
  k <> balance_id (params_to event) (srcAddress event) ->
  db_AccountIdleBalance (process env db event) !! k = db_AccountIdleBalance db !! k.
Proof.
  intros Hf Ht. unfold processEvent.
  destruct (handler_cases env db event (loader wallets pools db event))
    as [E|(db' & lr' & E & ->)].
  - by injection E as -> _ _ _ _.
  - rewrite PTH_AIB_frame by done. by injection E as -> _ _ _ _.
Qed.

(** C30: Accounts: whatever the mode and the token (the skip checks come
    after), a transfer between two different strings creates the account
    [{ id: a, address: a }] of each lower-cased party [a] that is a wallet
    (every party in test mode) and has no account yet, and changes no
    other account: an existing account is never overwritten. *)
Theorem handler_creates_accounts (env : Env) (db : DB) (event : Event) (a : string) :
  params_from event <> params_to event ->
  db_Account (process env db event) !! a =
    if bool_decide ((a = toLowerCase (params_from event) \/ a = toLowerCase (params_to event)) /\
                    (NODE_ENV_test env = true \/ a ∈ oracle_members wallets) /\
                    db_Account db !! a = None)
    then Some (mkAccount a a) else db_Account db !! a.
Proof.
  intros Hne. unfold processEvent.
  pose proof (handler_shape env db event (loader wallets pools db event)) as Hs.
  pose proof (handler_clave_spec env db event) as Hc. cbv zeta in Hs.
  destruct Hs as [[[E|E] ->] | [-> | (lr' & _ & ->)]]; [done| | |rewrite PTH_Account].
  { case_bool_decide as Hb; [|done]. destruct Hb as (Ha & Hm & _).
    assert (Hx : a ∈ (if NODE_ENV_test env
                      then {[toLowerCase (params_from event); toLowerCase (params_to event)]}
                      else claveAddresses (loader wallets pools db event))) by (apply Hc; auto).
    rewrite E in Hx. set_solver. }
  all: rewrite !create_account_Account; cbn [senderAccount receiverAccount loader].
  all: repeat case_bool_decide; try rewrite Hc in *; naive_solver.
Qed.
(** One event moves the sum of all balance records by its net flow into
    the Clave wallets. *)
Lemma total_balance_process (env : Env) (db : DB) (event : Event) :
  NODE_ENV_test env = false ->
  toLowerCase (params_from event) <> toLowerCase (params_to event) ->
  ~ src_skipped event ->
  total_balance (process env db event) =
    total_balance db
    + (if decide (toLowerCase (params_to event) ∈ oracle_members wallets) then params_value event else 0)
    - (if decide (toLowerCase (params_from event) ∈ oracle_members wallets) then params_value event else 0).
Proof.
  intros Ht Hne Hs.
  assert (Hraw : params_from event <> params_to event) by (intros E; apply Hne; by rewrite E).
  assert (Hid : balance_id (params_to event) (srcAddress event) <>
                balance_id (params_from event) (srcAddress event))
    by (intros E; apply Hne; symmetry; by apply append_cancel_r in E).
  destruct (decide (toLowerCase (params_from event) ∈ oracle_members wallets)) as [Hf|Hf],
    (decide (toLowerCase (params_to event) ∈ oracle_members wallets)) as [Hto|Hto];
    [| | |rewrite (process_outsiders env db event Ht Hf Hto); lia].
  all: unfold total_balance; rewrite (plain_AIB env db event Ht Hraw ltac:(tauto) Hs), PTH_AIB.
  all: rewrite ?(decide_True (P := toLowerCase (params_from event) ∈ _)) by (apply loader_clave; auto).
  all: rewrite ?(decide_True (P := toLowerCase (params_to event) ∈ _)) by (apply loader_clave; auto).
  all: rewrite ?(decide_False (P := toLowerCase (params_from event) ∈ _))
         by (rewrite loader_clave; tauto).
  all: rewrite ?(decide_False (P := toLowerCase (params_to event) ∈ _))
         by (rewrite loader_clave; tauto).
  all: cbn [id]; rewrite !map_sumZ_insert, ?lookup_insert_ne by done; cbn [with_balance aib_balance].
  all: unfold loader, loader_with; cbn [senderBalance receiverBalance aib_id aib_balance previousBalance].
  all: change (toLowerCase (params_from event) ++ toLowerCase (srcAddress event))
         with (balance_id (params_from event) (srcAddress event)).
  all: change (toLowerCase (params_to event) ++ toLowerCase (srcAddress event))
         with (balance_id (params_to event) (srcAddress event)).
  all: destruct (db_AccountIdleBalance db !! balance_id (params_from event) (srcAddress event)),
         (db_AccountIdleBalance db !! balance_id (params_to event) (srcAddress event)); cbn [default fmap option_fmap option_map id]; lia.
Qed.
(** C24: The handler implements an abstract ledger of the Clave wallets:
    outside test mode, over any sequence of transfers of tokens it does
    not skip between parties distinct up to case, the sum of all balance
    records moves by the net flow into the wallets: each transfer adds
    its value when the receiver is a wallet and subtracts it when the
    sender is one, so transfers between two wallets conserve the sum. *)
Theorem total_balance_transfer (env : Env) (db : DB) (events : list Event) :
  NODE_ENV_test env = false ->
  Forall (fun e => toLowerCase (params_from e) <> toLowerCase (params_to e) /\ ~ src_skipped e) events ->
  total_balance (foldl (process env) db events) = total_balance db + sumZ (net_flow <$> events).
Proof.
  intros Ht. revert db. induction events as [|e events IH]; intros db Hall; [simpl; lia|].
  apply Forall_cons in Hall as [[Hne Hs] Hall]. cbn [foldl]. rewrite fmap_cons, sumZ_cons.
  rewrite IH, (total_balance_process env db e Ht Hne Hs) by exact Hall. unfold net_flow. lia.
Qed.
End HandlerProperties.

(** ** Witnesses *)

Lemma plain_transfer_balances_witness :
  let db' := processEvent round_down clagg0 venus0 aave0 wallets0 pools0 env_prod db0 ev_plain in
  db_AccountIdleBalance db' !! balance_id (params_from ev_plain) (srcAddress ev_plain) =
    Some (mkAccountIdleBalance (balance_id (params_from ev_plain) (srcAddress ev_plain))
            (prior_balance db0 (params_from ev_plain) (srcAddress ev_plain) - params_value ev_plain)
            (toLowerCase (params_from ev_plain)) (toLowerCase (srcAddress ev_plain))) /\
  db_AccountIdleBalance db' !! balance_id (params_to ev_plain) (srcAddress ev_plain) =
    Some (mkAccountIdleBalance (balance_id (params_to ev_plain) (srcAddress ev_plain))
            (prior_balance db0 (params_to ev_plain) (srcAddress ev_plain) + params_value ev_plain)
            (toLowerCase (params_to ev_plain)) (toLowerCase (srcAddress ev_plain))).
Proof.
  apply (plain_transfer_balances round_down clagg0 venus0 aave0 wallets0 pools0 env_prod db0 ev_plain);
    [reflexivity | decide_by_eval | decide_by_eval | decide_by_eval | unfold src_skipped; decide_by_eval].
Defined.

Lemma case_variant_self_transfer_credits_witness :
  let db' := processEvent round_down clagg0 venus0 aave0 wallets0 pools0 env_prod db0 ev_case_self in
  db_AccountIdleBalance db' !! balance_id (params_from ev_case_self) (srcAddress ev_case_self) =
    Some (mkAccountIdleBalance (balance_id (params_from ev_case_self) (srcAddress ev_case_self))
            (prior_balance db0 (params_from ev_case_self) (srcAddress ev_case_self) +
               params_value ev_case_self)
            (toLowerCase (params_from ev_case_self)) (toLowerCase (srcAddress ev_case_self))) /\
  prior_balance db0 (params_from ev_case_self) (srcAddress ev_case_self) = 5.
Proof.
  split; [|reflexivity].
  apply (case_variant_self_transfer_credits round_down clagg0 venus0 aave0 wallets0 pools0 env_prod
           db0 ev_case_self);
    [reflexivity | decide_by_eval | reflexivity | decide_by_eval | unfold src_skipped; decide_by_eval].
Defined.

Lemma uninteresting_transfer_noop_witness :
  processEvent round_down clagg0 venus0 aave0 wallets0 pools0 env_prod db0 ev_outsiders = db0.
Proof.
  apply (uninteresting_transfer_noop round_down clagg0 venus0 aave0 wallets0 pools0 env_prod db0
           ev_outsiders).
  right. split; [reflexivity|]. split; decide_by_eval.
Defined.

Lemma skipped_token_keeps_ledger_witness :
  ledger (processEvent round_down clagg0 venus0 aave0 wallets0 pools0 env_prod db0 ev_pool) = ledger db0.
Proof.
  apply (skipped_token_keeps_ledger round_down clagg0 venus0 aave0 wallets0 pools0 env_prod db0 ev_pool);
    [reflexivity | left; decide_by_eval].
Defined.

Lemma snapshot_holds_previous_balance_witness :
  let t := round_down (block_timestamp ev_plain) (Some (3600 * 4)) in
  let id := balance_id (params_from ev_plain) (srcAddress ev_plain) ++ numberToString t in
  db_Hist4Hours (processEvent round_down clagg0 venus0 aave0 wallets0 pools0 env_prod db0 ev_plain) !! id =
    Some (mkHistoricalBalance id (prior_balance db0 (params_from ev_plain) (srcAddress ev_plain))
            (toLowerCase (params_from ev_plain)) (toLowerCase (srcAddress ev_plain)) t).
Proof.
  apply (snapshot_holds_previous_balance round_down clagg0 venus0 aave0 wallets0 pools0 env_prod db0
           ev_plain);
    [reflexivity | decide_by_eval | decide_by_eval | unfold src_skipped; decide_by_eval].
Defined.

Lemma transfer_frame_witness :
  db_AccountIdleBalance (processEvent round_down clagg0 venus0 aave0 wallets0 pools0 env_prod db0 ev_plain)
    !! "0xzzz0xt0k" = db_AccountIdleBalance db0 !! "0xzzz0xt0k".
Proof.
  apply (transfer_frame round_down clagg0 venus0 aave0 wallets0 pools0 env_prod db0 ev_plain);
    decide_by_eval.
Defined.

(** An outsider pays a wallet, then two wallets trade: the sum grows
    from 5 to 12 and stays there. *)
Lemma total_balance_transfer_witness :
  Forall (fun e => toLowerCase (params_from e) <> toLowerCase (params_to e) /\
                   ~ src_skipped clagg0 venus0 aave0 pools0 e) [ev_deposit; ev_plain] /\
  total_balance (foldl (processEvent round_down clagg0 venus0 aave0 wallets0 pools0 env_prod) db0
                   [ev_deposit; ev_plain]) =
    total_balance db0 + sumZ (net_flow wallets0 <$> [ev_deposit; ev_plain]) /\
  total_balance db0 = 5 /\ sumZ (net_flow wallets0 <$> [ev_deposit; ev_plain]) = 7.
Proof.
  assert (Hall : Forall (fun e => toLowerCase (params_from e) <> toLowerCase (params_to e) /\
                                  ~ src_skipped clagg0 venus0 aave0 pools0 e) [ev_deposit; ev_plain])
    by (repeat constructor; first [decide_by_eval | unfold src_skipped; decide_by_eval]).
  split; [exact Hall|]. split.
  - exact (total_balance_transfer round_down clagg0 venus0 aave0 wallets0 pools0 env_prod db0 _ eq_refl Hall).
  - split; vm_compute; reflexivity.
Defined.

Lemma handler_creates_accounts_witness :
  "0xAAA" <> "0xbbb" /\
  db_Account (processEvent round_down clagg0 venus0 aave0 wallets0 pools0 env_prod db0 ev_plain) !! "0xaaa" =
    if bool_decide (("0xaaa" = toLowerCase "0xAAA" \/ "0xaaa" = toLowerCase "0xbbb") /\
                    (NODE_ENV_test env_prod = true \/ "0xaaa" ∈ oracle_members wallets0) /\
                    db_Account db0 !! "0xaaa" = None)
    then Some (mkAccount "0xaaa" "0xaaa") else db_Account db0 !! "0xaaa".
Proof.
  assert (Hne : "0xAAA" <> "0xbbb") by done. split; [exact Hne|].
  exact (handler_creates_accounts round_down clagg0 venus0 aave0 wallets0 pools0 env_prod db0 ev_plain "0xaaa" Hne).
Defined.
