(* ===== verification/Router.v ===== *)
(** * The transfer router against the caches

    The [loader] of src/ERC20Handler.ts:31-62 awaits [Promise.all] of six
    promises, two of which are calls of the caches:
    [walletCache.bulkCheckClaveWallets([from, to])] and
    [syncswapCache.bulkCheckSyncswapPools([src])].  [ERC20Handler] runs
    the handler against the contract [MembershipOracle]; here the two
    calls are calls of the cache model ([MembershipCache]), and the
    loader sees what they settled with.  [Promise.all] resolves when both
    calls resolved and rejects as soon as one rejects ([promise_all2]),
    and a rejected loader means the event's processing rejects
    ([processEvent_settled] is [None]).

    Theorems: whatever call of a reachable wallet instance answers the
    query, the event's processing writes balance records and accounts
    only for addresses in the store's set: the cache's invariant (every
    settled answer is in the store, [CacheInvariants]) composed with the
    handler's writes ([ERC20Handler.handler_writes_clave])
    ([ledger_writes_only_store_members]); when the wallet cache's
    connection attempt fails, the event's processing rejects, where the
    specification's fail-open answer would leave the store unchanged
    ([router_rejects_on_connection_failure]). *)

From S2P Require Import Prelude Address RemoteStore MembershipCache CacheSpec Scenarios CacheInvariants CacheRaces ERC20Handler.

Open Scope string_scope.

(** ** Definitions *)

(** [Promise.all] of two settled promises. *)
Definition promise_all2 {A B : Type} (a : option A) (b : option B) : option (A * B) :=
  match a, b with
  | Some x, Some y => Some (x, y)
  | _, _ => None
  end.

(** What an awaited [bulkCheck..] call yields: its set, or a rejection.
    ([bulkCheck..] never resolves with anything but a set.) *)
Definition set_answer (o : Outcome) : option (gset string) :=
  match o with Ok (VSet s) => Some s | _ => None end.

(** The arguments of the two cache calls of the loader. *)
Definition wallet_query (event : Event) : list string :=
  [toLowerCase (params_from event); toLowerCase (params_to event)].

Definition pool_query (event : Event) : list string := [toLowerCase (srcAddress event)].

(** The loader once the two cache calls have settled with [ow] and [op]:
    [await Promise.all(..)], then [loader_with] on the two sets. *)
Definition loader_settled (ow op : Outcome) (db : DB) (event : Event) : option LoaderReturn :=
  '(claveAddresses, syncswapPools) ← promise_all2 (set_answer ow) (set_answer op);
  Some (loader_with db event claveAddresses syncswapPools).

Section Router.
Context (roundTimestamp : Z -> option Z -> Z).
Context (ClaggMainAddress : string) (VenusPoolAddresses AavePoolAddresses : list string).

(** [handlerWithLoader]: the loader, then the handler; [None] when the
    loader rejects. *)
Definition processEvent_settled (env : Env) (db : DB) (event : Event) (ow op : Outcome) : option DB :=
  lr ← loader_settled ow op db event;
  Some (handler roundTimestamp ClaggMainAddress VenusPoolAddresses AavePoolAddresses env db event lr).

(** ** Lemmas *)

(** A rejected cache call rejects the event. *)
Lemma processEvent_settled_reject (env : Env) (db : DB) (event : Event) (ow op : Outcome) :
  set_answer ow = None \/ set_answer op = None -> processEvent_settled env db event ow op = None.
Proof.
  intros H. unfold processEvent_settled, loader_settled, promise_all2.
  by destruct H as [-> | ->]; [|destruct (set_answer ow)].
Qed.

(** Every set a call of a reachable instance settled with holds only
    members of the store. *)
Lemma settled_answer_in_store (test : bool) (key : string) (r : RedisServer) (w : World)
    (id : nat) (s : gset string) :
  reachable test key r w -> (id, Ok (VSet s)) ∈ w_results w -> s ⊆ remote w.
Proof.
  intros [acts Hrun] Hin. destruct (run_cache_inv _ _ _ (new_cache_inv test key r) Hrun) as [_ [HR _]].
  exact (HR _ Hin).
Qed.

(** A settled wallet answer reaches the handler as [claveAddresses]. *)
Lemma processEvent_settled_Some (env : Env) (db db' : DB) (event : Event) (s : gset string) (op : Outcome) :
  processEvent_settled env db event (Ok (VSet s)) op = Some db' ->
  exists lr, claveAddresses lr = s /\
    db' = handler roundTimestamp ClaggMainAddress VenusPoolAddresses AavePoolAddresses env db event lr.
Proof.
  unfold processEvent_settled, loader_settled. simpl.
  destruct (set_answer op); simpl; [|done]. intros [= <-]. eexists; split; [|reflexivity]; done.
Qed.

(** ** Properties *)

(** C26: The specification says a query fails open (an empty set) when
    the store cannot be reached.  The first event that reaches a fresh
    instance whose connection attempt then fails is not processed as
    uninteresting: its wallet query rejects ([bulkCheck..] awaits
    [initialize()] outside its [try]), [Promise.all] rejects, and so does
    the event's processing, whatever the pool cache answers; with the
    fail-open answer the handler would have left the store unchanged. *)
Theorem router_rejects_on_connection_failure (key : string) (r : RedisServer)
    (env : Env) (db : DB) (event : Event) (op : Outcome) :
  NODE_ENV_test env = false ->
  exists w, new_cache false key r -[ [ABulkCheck (wallet_query event); ATask 1 false] ]-> w /\
    w_results w = [(0%nat, Err)] /\
    processEvent_settled env db event Err op = None /\
    (forall pools, processEvent_settled env db event (Ok (VSet ∅)) (Ok (VSet pools)) = Some db).
Proof.
  intros Ht. eexists. split; [reflexivity|]. split; [reflexivity|].
  split; [apply processEvent_settled_reject; by left|].
  intros pools. unfold processEvent_settled, handler. simpl. f_equal.
  case_match; [done|]. by rewrite Ht.
Qed.
(** C29: The pipeline records only members of the store: outside test
    mode, when the wallet query is answered by any call a reachable cache
    instance settled (whatever the interleaving, the races and the
    failures before), processing the event writes balance records only
    under the id of a party whose lower-cased address is in the store's
    set, for the event's token, and creates accounts only for such
    addresses. *)
Theorem ledger_writes_only_store_members (test : bool) (key : string) (r : RedisServer) (w : World)
    (id : nat) (s : gset string) (env : Env) (db db' : DB) (event : Event) (op : Outcome) :
  reachable test key r w -> (id, Ok (VSet s)) ∈ w_results w -> NODE_ENV_test env = false ->
  processEvent_settled env db event (Ok (VSet s)) op = Some db' ->
  (forall k, db_AccountIdleBalance db' !! k <> db_AccountIdleBalance db !! k ->
     exists p, (p = params_from event \/ p = params_to event) /\ toLowerCase p ∈ remote w /\
       k = balance_id p (srcAddress event)) /\
  (forall a, db_Account db' !! a <> db_Account db !! a -> a ∈ remote w).
Proof.
  intros Hr Hin Ht Hp. pose proof (settled_answer_in_store test key r w id s Hr Hin) as Hs.
  destruct (processEvent_settled_Some env db db' event s op Hp) as (lr & <- & ->).
  destruct (handler_writes_clave roundTimestamp ClaggMainAddress VenusPoolAddresses AavePoolAddresses
              env db event lr Ht) as [HA HB].
  split.
  - intros k Hk. destruct (HA k Hk) as (p & Hp' & Hm & ->). exists p. split; [done|]. split; [by apply Hs|done].
  - intros a Ha. by apply Hs, HB.
Qed.
End Router.

(** ** Witnesses *)

Lemma router_rejects_on_connection_failure_witness :
  NODE_ENV_test env_prod = false /\
  exists w, walletCache false store0 -[ [ABulkCheck (wallet_query ev_plain); ATask 1 false] ]-> w /\
    w_results w = [(0%nat, Err)] /\
    processEvent_settled round_down clagg0 venus0 aave0 env_prod db0 ev_plain Err (Ok (VSet ∅)) = None /\
    (forall pools, processEvent_settled round_down clagg0 venus0 aave0 env_prod db0 ev_plain
                     (Ok (VSet ∅)) (Ok (VSet pools)) = Some db0).
Proof.
  split; [reflexivity|].
  exact (router_rejects_on_connection_failure round_down clagg0 venus0 aave0 "clave:wallets" store0
           env_prod db0 ev_plain (Ok (VSet ∅)) eq_refl).
Defined.

(** The wallet cache, booted, answers the plain transfer's query with
    ["0xaaa"]; the event is processed on that answer. *)
Lemma ledger_writes_only_store_members_witness :
  let W := wallet_after (boot ++ [ABulkCheck (wallet_query ev_plain)]) in
  let D := default db0 (processEvent_settled round_down clagg0 venus0 aave0 env_prod db0 ev_plain
                          (Ok (VSet {["0xaaa"]})) (Ok (VSet ∅))) in
  reachable false "clave:wallets" store0 W /\ (0%nat, Ok (VSet {["0xaaa"]})) ∈ w_results W /\
  NODE_ENV_test env_prod = false /\
  processEvent_settled round_down clagg0 venus0 aave0 env_prod db0 ev_plain
    (Ok (VSet {["0xaaa"]})) (Ok (VSet ∅)) = Some D /\
  (forall k, db_AccountIdleBalance D !! k <> db_AccountIdleBalance db0 !! k ->
     exists p, (p = params_from ev_plain \/ p = params_to ev_plain) /\ toLowerCase p ∈ remote W /\
       k = balance_id p (srcAddress ev_plain)) /\
  (forall a, db_Account D !! a <> db_Account db0 !! a -> a ∈ remote W).
Proof.
  intros W D.
  assert (H1 : reachable false "clave:wallets" store0 W)
    by (exists (boot ++ [ABulkCheck (wallet_query ev_plain)])%list; vm_compute; reflexivity).
  assert (H2 : (0%nat, Ok (VSet {["0xaaa"]})) ∈ w_results W)
    by (assert (E : w_results W = [(0%nat, Ok (VSet {["0xaaa"]}))]) by (vm_compute; reflexivity);
        rewrite E; by apply elem_of_cons; left).
  assert (H3 : NODE_ENV_test env_prod = false) by reflexivity.
  assert (H4 : processEvent_settled round_down clagg0 venus0 aave0 env_prod db0 ev_plain
                 (Ok (VSet {["0xaaa"]})) (Ok (VSet ∅)) = Some D) by (vm_compute; reflexivity).
  do 4 (split; [assumption|]).
  exact (ledger_writes_only_store_members round_down clagg0 venus0 aave0 false "clave:wallets" store0 W
           0 {["0xaaa"]} env_prod db0 D ev_plain (Ok (VSet ∅)) H1 H2 H3 H4).
Defined.
