(* ===== verification/Client.v ===== *)
(** * The RPC client (src/viem/Client.ts)

    The module builds two viem public clients for zkSync and exports one:
    [client1] talks to the public endpoint alone, [client2] puts the
    endpoint named by [ENVIO_FALLBACK_URL] in front of it under viem's
    [fallback] transport; [client] is [client2] exactly when that
    variable is defined.  No handler calls it.  The clients are data:
    viem's [http] and [fallback] transports are the constructors of
    [Transport], with the options the file passes; what viem does with
    them (retries, batching) is viem's and is not modelled.  The
    environment variable is an [option string] ([None] when undefined). *)

From S2P Require Import Prelude.

Open Scope string_scope.

(** ** Definitions *)

(** [http(url, { batch, retryCount, retryDelay })]; an undefined [url]
    is [None]. *)
Record HttpTransport := mkHttp {
  http_url : option string;
  http_batch : bool;
  http_retryCount : nat;
  http_retryDelay : nat
}.

(** viem's transports as the file uses them: one [http] transport, or
    [fallback] over a list of them. *)
Inductive Transport :=
| THttp (h : HttpTransport)
| TFallback (hs : list HttpTransport).

(** [createPublicClient({ chain, transport, batch: { multicall } })] *)
Record PublicClient := mkPublicClient {
  pc_chain : string;
  pc_transport : Transport;
  pc_multicall : bool
}.

Definition zksync : string := "zksync".
Definition mainnet_url : string := "https://mainnet.era.zksync.io".

(** [http(url, { batch: true, retryCount: 10, retryDelay: 150 })], the
    options every transport of the file gets. *)
Definition http_with_retries (url : option string) : HttpTransport := mkHttp url true 10 150.

(** [const isFallbackDefined = process.env.ENVIO_FALLBACK_URL !== undefined] *)
Definition isFallbackDefined (ENVIO_FALLBACK_URL : option string) : bool :=
  match ENVIO_FALLBACK_URL with Some _ => true | None => false end.

Definition client1 : PublicClient :=
  mkPublicClient zksync (THttp (http_with_retries (Some mainnet_url))) true.

Definition client2 (ENVIO_FALLBACK_URL : option string) : PublicClient :=
  mkPublicClient zksync
    (TFallback [http_with_retries ENVIO_FALLBACK_URL; http_with_retries (Some mainnet_url)]) true.

(** [export const client = isFallbackDefined ? client2 : client1] *)
Definition client (ENVIO_FALLBACK_URL : option string) : PublicClient :=
  if isFallbackDefined ENVIO_FALLBACK_URL then client2 ENVIO_FALLBACK_URL else client1.

(** The [http] transports of a transport, in the order viem tries them. *)
Definition transports (t : Transport) : list HttpTransport :=
  match t with THttp h => [h] | TFallback hs => hs end.

(** ** Properties *)

(** C27: The exported client is for zkSync with multicall batching; its
    endpoints are the fallback URL, when [ENVIO_FALLBACK_URL] is defined,
    tried before the public endpoint, which is always there; every
    endpoint is an [http] transport with batching, 10 retries and a 150 ms
    delay; an undefined variable never reaches a transport. *)
Theorem client_endpoints (ENVIO_FALLBACK_URL : option string) :
  let c := client ENVIO_FALLBACK_URL in
  pc_chain c = zksync /\ pc_multicall c = true /\
  http_url <$> transports (pc_transport c) =
    (match ENVIO_FALLBACK_URL with Some u => [Some u] | None => [] end ++ [Some mainnet_url])%list /\
  Forall (fun h => http_batch h = true /\ http_retryCount h = 10 /\ http_retryDelay h = 150)
    (transports (pc_transport c)) /\
  Forall (fun h => is_Some (http_url h)) (transports (pc_transport c)).
Proof.
  destruct ENVIO_FALLBACK_URL as [u|]; simpl; repeat split; repeat constructor; eauto.
Qed.
