(* ===== verification/HandlerTests.v ===== *)
(** * The repository's test suite, run on the model

    test/test.ts sets [NODE_ENV = "test"] (line 11) and runs
    [ERC20.Transfer.processEvent] on Envio's mock database.  Each test is
    modelled as the store [processEvent] returns on the test's event, and
    its assertions are theorems about that store.

    In test mode the caches never connect and answer every query with the
    empty set ([CacheTestMode]), so both oracles of the loader are the
    empty mirror; the handler then overrides [claveAddresses] with the two
    parties (and, with [TEST_MODE = "syncswap"], [syncswapPools] with the
    token).

    Values the staged sources do not define are stand-ins: the two mock
    addresses (Envio's generated [Addresses.mockAddresses]), viem's
    [zeroAddress], the protocol lists ([clagg0], [venus0], [aave0] of
    [ERC20Handler], lower-case as the handler's [includes] checks need), and
    the default block timestamp of a mock event (0).  The balance tests
    hold for every [roundTimestamp]; the snapshot tests take
    [round_down], rounding down to the interval. *)

From S2P Require Import Prelude Address CacheSpec ERC20Handler.

Open Scope string_scope.
Open Scope Z_scope.

(** ** The fixtures (test.ts:9-28) *)

(** [process.env.NODE_ENV = "test"], and [TEST_MODE = "syncswap"] for one
    test. *)
Definition env_test : Env := mkEnv true false.
Definition env_test_syncswap : Env := mkEnv true true.

Definition mockDbEmpty : DB := mkDB ∅ ∅ ∅ ∅ ∅ ∅.
Definition tokenId : string := "0x0000000000000000000000B4s00000000Ac000001".
Definition userAddress1 : string := "0xf39Fd6e51aad88F6F4ce6aB8827279cffFb92266".
Definition userAddress2 : string := "0x70997970C51812dc3A010C7d01b50e0d17dc79C8".
Definition zeroAddress : string := "0x0000000000000000000000000000000000000000".

Definition mockAccountIdleBalanceEntity : AccountIdleBalance :=
  mkAccountIdleBalance (toLowerCase userAddress1 ++ toLowerCase tokenId) 5
    (toLowerCase userAddress1) (toLowerCase tokenId).

Definition mockDb : DB := set_AccountIdleBalance mockAccountIdleBalanceEntity mockDbEmpty.

(** [ERC20.Transfer.createMockEvent({from, to, value, mockEventData})]. *)
Definition createMockEvent (from to : string) (value : Z) (src : string) (timestamp : Z) : Event :=
  mkEvent from to value src timestamp.

(** [db.entities.AccountIdleBalance.get(address + token)?.balance], with the
    parts lower-cased as the tests write them. *)
Definition balanceOf (db : DB) (address token : string) : option Z :=
  aib_balance <$> db_AccountIdleBalance db !! (toLowerCase address ++ toLowerCase token).

(** [db.entities.Account.get(address)?.address] *)
Definition accountOf (db : DB) (address : string) : option string :=
  acc_address <$> db_Account db !! toLowerCase address.

(** [db.entities.HistoricalAccountIdleBalance4Hours.get(key)] *)
Definition hist4Of (db : DB) (address token : string) (bucket : Z) : option HistoricalBalance :=
  db_Hist4Hours db !! (toLowerCase address ++ toLowerCase token ++ numberToString bucket).

Section Tests.
Context (roundTimestamp : Z -> option Z -> Z).

(** [ERC20.Transfer.processEvent({event, mockDb})] in test mode. *)
Definition processEvent_test (env : Env) (db : DB) (event : Event) : DB :=
  processEvent roundTimestamp clagg0 venus0 aave0 (∅ : gset string) (∅ : gset string) env db event.

(** "should handle transfer between two different users" *)
Definition basic_transfer_db : DB :=
  processEvent_test env_test mockDb (createMockEvent userAddress1 userAddress2 3 tokenId 0).

(** "should handle transfer to self (same address)" *)
Definition self_transfer_db : DB :=
  processEvent_test env_test mockDb (createMockEvent userAddress1 userAddress1 3 tokenId 0).

(** "should handle minting (transfer from zero address)" *)
Definition mint_db : DB :=
  processEvent_test env_test mockDbEmpty (createMockEvent zeroAddress userAddress1 10 tokenId 0).

(** "should handle burning (transfer to zero address)" *)
Definition burn_db : DB :=
  processEvent_test env_test mockDb (createMockEvent userAddress1 zeroAddress 3 tokenId 0).

(** "should handle transfer with zero value" *)
Definition zero_value_db : DB :=
  processEvent_test env_test mockDb (createMockEvent userAddress1 userAddress2 0 tokenId 0).

(** "should return early for Venus / Aave / Clagg pool transfers" *)
Definition protocol_db (src : string) : DB :=
  processEvent_test env_test mockDb (createMockEvent userAddress1 userAddress2 3 src 0).

(** "should return early for Syncswap pool transfers" *)
Definition syncswap_src : string := "0x0259d9dfb638775858b1d072222237e2ce7111C0".
Definition syncswap_db : DB :=
  processEvent_test env_test_syncswap mockDb (createMockEvent userAddress1 userAddress2 3 syncswap_src 0).

(** Two transfers of 2 and 1 at [t1] then [t2] ("multiple transfers in the
    same hour": 1000 and 2000; "different hours": 3600 and 7200). *)
Definition two_transfers_db (t1 t2 : Z) : DB :=
  let db := processEvent_test env_test mockDb (createMockEvent userAddress1 userAddress2 2 tokenId t1) in
  processEvent_test env_test db (createMockEvent userAddress1 userAddress2 1 tokenId t2).

(** "should create historical records for transfers" *)
Definition historical_db : DB :=
  processEvent_test env_test mockDb (createMockEvent userAddress1 userAddress2 3 tokenId 1000).

End Tests.

(** ** The assertions *)

Section Assertions.
Context (roundTimestamp : Z -> option Z -> Z).

(** The "Basic Transfers" and "Minting and Burning" tests, and the
    zero-value edge case, pass on the model whatever [roundTimestamp] is:
    3 moved from user 1 (balance 5) to user 2 gives 2 and 3 and creates
    both accounts; a self transfer leaves 5; a mint of 10 credits 10; a
    burn of 3 leaves 2; a transfer of 0 leaves 5 and the receiver at 0. *)
Example test_suite_balances :
  balanceOf (basic_transfer_db roundTimestamp) userAddress1 tokenId = Some 2 /\
  balanceOf (basic_transfer_db roundTimestamp) userAddress2 tokenId = Some 3 /\
  accountOf (basic_transfer_db roundTimestamp) userAddress1 = Some (toLowerCase userAddress1) /\
  accountOf (basic_transfer_db roundTimestamp) userAddress2 = Some (toLowerCase userAddress2) /\
  balanceOf (self_transfer_db roundTimestamp) userAddress1 tokenId = Some 5 /\
  balanceOf (mint_db roundTimestamp) userAddress1 tokenId = Some 10 /\
  balanceOf (burn_db roundTimestamp) userAddress1 tokenId = Some 2 /\
  balanceOf (zero_value_db roundTimestamp) userAddress1 tokenId = Some 5 /\
  default 0 (balanceOf (zero_value_db roundTimestamp) userAddress2 tokenId) = 0.
Proof. vm_compute. repeat split. Qed.

(** The "Protocol-Specific Transfers" tests pass on the model
    whatever [roundTimestamp] is: a transfer of the first Venus or Aave
    pool, of the Clagg token, or (with [TEST_MODE = "syncswap"]) of any
    token, writes no balance for either party. *)
Example test_suite_protocol_skips :
  balanceOf (protocol_db roundTimestamp (List.hd "" venus0)) userAddress1 (List.hd "" venus0) = None /\
  balanceOf (protocol_db roundTimestamp (List.hd "" venus0)) userAddress2 (List.hd "" venus0) = None /\
  balanceOf (protocol_db roundTimestamp (List.hd "" aave0)) userAddress1 (List.hd "" aave0) = None /\
  balanceOf (protocol_db roundTimestamp (List.hd "" aave0)) userAddress2 (List.hd "" aave0) = None /\
  balanceOf (protocol_db roundTimestamp clagg0) userAddress1 clagg0 = None /\
  balanceOf (protocol_db roundTimestamp clagg0) userAddress2 clagg0 = None /\
  balanceOf (syncswap_db roundTimestamp) userAddress1 syncswap_src = None /\
  balanceOf (syncswap_db roundTimestamp) userAddress2 syncswap_src = None.
Proof. vm_compute. repeat split. Qed.

End Assertions.

(** The "Historical Balance Tracking" tests pass on the model with a
    [roundTimestamp] that rounds down: each transfer writes, for both
    parties, a 4-hour record under the rounded timestamp and carrying it;
    after two transfers (at 1000 and 2000, and at 3600 and 7200) the
    records the tests read exist with the rounded timestamps. *)
Example test_suite_historical :
  let b := fun t => round_down t (Some 14400) in
  h_timestamp <$> hist4Of (historical_db round_down) userAddress1 tokenId (b 1000) = Some (b 1000) /\
  h_timestamp <$> hist4Of (historical_db round_down) userAddress2 tokenId (b 1000) = Some (b 1000) /\
  h_timestamp <$> hist4Of (two_transfers_db round_down 1000 2000) userAddress1 tokenId (b 1000) =
    Some (b 1000) /\
  h_timestamp <$> hist4Of (two_transfers_db round_down 3600 7200) userAddress1 tokenId (b 3600) =
    Some (b 3600) /\
  h_timestamp <$> hist4Of (two_transfers_db round_down 3600 7200) userAddress1 tokenId (b 7200) =
    Some (b 7200).
Proof. vm_compute. repeat split. Qed.
